(** * The extension-host process bridge of core-electron-main

    A shallow embedding of
    [packages/core-electron-main/src/bootstrap/window.ts]:
    the [KTNodeProcess] launcher with its memoized readiness promise, and the
    [CodeWindow] that owns one browser window, one launcher and one
    'window-metadata' responder.

    JavaScript objects that the code mutates are records threaded through the
    functions; promises, child processes and the log of outward effects live
    in a [World]; everything the code obtains from its surroundings
    (process.env, isDevelopment(), whether fork throws, events emitted by a
    child or by the browser) is an explicit argument. *)

From Stdlib Require Import ZArith String List Bool Lia.
From stdpp Require Import base option list gmap strings.
Import ListNotations.

Local Open Scope string_scope.
Local Open Scope Z_scope.
Local Open Scope list_scope.

(** ** JavaScript values *)

Module Js.

(** Values that cross the boundaries of this file: IPC messages, error
    objects, the window id of a metadata query.  Objects are opaque
    references and compare by identity, as [===] does.  Numbers are
    integers: the only number the code compares against is
    [BrowserWindow.id]. *)
Inductive JsVal :=
| VUndefined
| VNull
| VBool (b : bool)
| VNum (z : Z)
| VStr (s : string)
| VObj (ref : nat).

#[global] Instance JsVal_eq_dec : EqDecision JsVal.
Proof. solve_decision. Defined.

(** [a === b] *)
Definition strict_eq (a b : JsVal) : bool := bool_decide (a = b).

(** [s.indexOf(sub)]: position of the first occurrence, [-1] when absent. *)
Definition indexOf (s sub : string) : Z :=
  match String.index 0 sub s with
  | Some n => Z.of_nat n
  | None => -1
  end.

(** The tree handed to [JSON.stringify]. *)
#[local] Set Warnings "-register-all".
Inductive Json :=
| JUndef
| JNull
| JBool (b : bool)
| JNum (z : Z)
| JStr (s : string)
| JArr (items : list Json)
| JObj (props : list (string * Json)).

(** [o[k] = v] on an object literal under construction: an existing key keeps
    its position and takes the new value, a new key goes last. *)
Fixpoint obj_set (k : string) (v : Json) (o : list (string * Json))
  : list (string * Json) :=
  match o with
  | [] => [(k, v)]
  | (k', v') :: rest =>
      if String.eqb k' k then (k', v) :: rest else (k', v') :: obj_set k v rest
  end.

(** [{ ...o, ...extra }] *)
Definition obj_spread (o extra : list (string * Json)) : list (string * Json) :=
  fold_left (fun acc kv => obj_set (fst kv) (snd kv) acc) extra o.

End Js.
Import Js.

(** ** Promises, child processes and outward effects *)

Inductive PState :=
| Pending
| Fulfilled
| Rejected (e : JsVal).

#[global] Instance PState_eq_dec : EqDecision PState.
Proof. solve_decision. Defined.

(** A promise either has a state of its own, or was resolved with another
    promise and takes that one's state (what an [async] function's result
    does when the body returns a promise). *)
Inductive PCell :=
| Own (st : PState)
| Follow (target : nat).

(** [ForkOptions] as [start] fills it.  An entry of [env] holding [None] is a
    property whose value is [undefined]. *)
Record ForkOptions := {
  env : gmap string (option string);
  stdio : list string;
  execArgv : option (list string);
}.

Inductive Effect :=
| EFork (pid : nat) (modulePath : string) (args : list string)
        (opts : ForkOptions)
| EKill (pid : nat)
| EConsoleLog (m : JsVal)
| ELog (parts : list string)
| ELogError (e : JsVal)
| ELoadURL (url : string)
| EShow
| ESend (channel : string) (payload : string)
| EPreventDefault
| EOpenExternal (url : string)
| EBrowserClose.

(** A forked child.  Its 'message' and 'error' listeners close over the
    [resolve] and [reject] of the promise [gate].  [alive] is whether the
    operating system still runs it: the child leaves when it exits, and the
    code has no listener for that. *)
Record ChildProcess := {
  alive : bool;
  gate : nat;
}.

Record World := {
  promises : list PCell;
  procs : list ChildProcess;
  trace : list Effect;
}.

Definition empty_world : World :=
  {| promises := []; procs := []; trace := [] |}.

Definition emit_effect (e : Effect) (w : World) : World :=
  {| promises := promises w; procs := procs w; trace := trace w ++ [e] |}.

(** [new Promise(...)], or the implicit result promise of an [async] call. *)
Definition alloc (c : PCell) (w : World) : nat * World :=
  (length (promises w),
   {| promises := promises w ++ [c]; procs := procs w; trace := trace w |}).

(** [resolve()] / [reject(e)]: only the first settlement has an effect. *)
Definition settle (p : nat) (st : PState) (w : World) : World :=
  match promises w !! p with
  | Some (Own Pending) =>
      {| promises := <[p := Own st]> (promises w);
         procs := procs w; trace := trace w |}
  | _ => w
  end.

Fixpoint outcome_fuel (fuel : nat) (ps : list PCell) (p : nat) : PState :=
  match fuel with
  | O => Pending
  | S fuel' =>
      match ps !! p with
      | Some (Own st) => st
      | Some (Follow q) => outcome_fuel fuel' ps q
      | None => Pending
      end
  end.

(** The state a promise has, or will have once the promise it follows has
    passed its state on. *)
Definition outcome (w : World) (p : nat) : PState :=
  outcome_fuel (length (promises w)) (promises w) p.

(** ** KTNodeProcess *)

(** What [start] reads from the surrounding process. *)
Record Host := {
  process_env : gmap string string;
  isDevelopment : bool;
}.

Record KTNodeProcess := {
  forkPath : string;
  extensionEntry : string;
  _process : option nat;
  ready : option nat;
}.

Definition new_KTNodeProcess (path entry : string) : KTNodeProcess :=
  {| forkPath := path; extensionEntry := entry;
     _process := None; ready := None |}.

(** [{ ...process.env, KTELECTRON: '1',
       EXTENSION_HOST_ENTRY: this.extensionEntry }]
    followed by [forkOptions.env.WORKSPACE_DIR = workspace]. *)
Definition fork_env (penv : gmap string string) (entry : string)
    (workspace : option string) : gmap string (option string) :=
  <["WORKSPACE_DIR" := workspace]>
    (<["EXTENSION_HOST_ENTRY" := Some entry]>
       (<["KTELECTRON" := Some "1"]> (Some <$> penv))).

Definition fork_options (h : Host) (entry : string) (workspace : option string)
  : ForkOptions :=
  {| env := fork_env (process_env h) entry workspace;
     stdio := ["pipe"; "pipe"; "pipe"; "ipc"];
     execArgv :=
       if isDevelopment h
       then Some ["-r"; "ts-node/register"; "-r"; "tsconfig-paths/register"]
       else None |}.

(** [forkArgs] after [forkArgs.push('--listenPath', rpcListenPath)]. *)
Definition fork_args (rpcListenPath : string) : list string :=
  [] ++ ["--listenPath"; rpcListenPath].

(** [env.NAME] as JavaScript reads it: [undefined] both for a missing property
    and for one that holds [undefined]. *)
Definition env_read (e : gmap string (option string)) (name : string)
  : option string :=
  match e !! name with
  | Some v => v
  | None => None
  end.

(** The executor of [this.ready].  [spawn_error = Some e] is a [fork] that
    throws [e]; it is caught and rejects the promise [g]. *)
Definition start_executor (h : Host) (spawn_error : option JsVal)
    (rpcListenPath : string) (workspace : option string)
    (this : KTNodeProcess) (g : nat) (w : World) : KTNodeProcess * World :=
  let forkOptions := fork_options h (extensionEntry this) workspace in
  let forkArgs := fork_args rpcListenPath in
  match spawn_error with
  | Some e => (this, settle g (Rejected e) w)
  | None =>
      let pid := length (procs w) in
      ({| forkPath := forkPath this; extensionEntry := extensionEntry this;
          _process := Some pid; ready := ready this |},
       {| promises := promises w;
          procs := procs w ++ [{| alive := true; gate := g |}];
          trace := trace w
                   ++ [EFork pid (forkPath this) forkArgs forkOptions] |})
  end.

(** [async start(rpcListenPath, workspace)].  The result is the promise the
    caller receives: a fresh one, resolved with [this.ready]. *)
Definition KTNodeProcess_start (h : Host) (spawn_error : option JsVal)
    (rpcListenPath : string) (workspace : option string)
    (this : KTNodeProcess) (w : World) : KTNodeProcess * World * nat :=
  let '(this1, w1, g) :=
    match ready this with
    | Some g => (this, w, g)
    | None =>
        let '(g, w0) := alloc (Own Pending) w in
        let '(this0, w0') :=
          start_executor h spawn_error rpcListenPath workspace this g w0 in
        ({| forkPath := forkPath this0; extensionEntry := extensionEntry this0;
            _process := _process this0; ready := Some g |}, w0', g)
    end in
  let '(p, w2) := alloc (Follow g) w1 in
  (this1, w2, p).

(** [this._process.kill()]: the call sends the child the request to
    terminate and returns.  The child is still running then; it is gone once
    it has exited ([Exit] below), and nothing here waits for that. *)
Definition kill (pid : nat) (w : World) : World := emit_effect (EKill pid) w.

(** [dispose()] *)
Definition KTNodeProcess_dispose (this : KTNodeProcess) (w : World) : World :=
  match _process this with
  | Some pid => kill pid w
  | None => w
  end.

(** What a child can emit towards the listeners [start] installs. *)
Inductive ChildEvent :=
| Message (m : JsVal)
| Error (e : JsVal)
| StdoutData (data : string)
| StderrData (data : string)
| Exit.

Definition child_emit (pid : nat) (ev : ChildEvent) (w : World) : World :=
  match procs w !! pid with
  | None => w
  | Some c =>
      match ev with
      | Message m =>
          let w1 := emit_effect (EConsoleLog m) w in
          if strict_eq m (VStr "ready")
          then settle (gate c) Fulfilled w1
          else w1
      | Error e => settle (gate c) (Rejected e) w
      | StdoutData d => emit_effect (ELog ["[node]" +:+ d]) w
      | StderrData d => emit_effect (ELogError (VStr ("[node]" +:+ d))) w
      | Exit =>
          {| promises := promises w;
             procs := alter (fun c => {| alive := false; gate := gate c |})
                            pid (procs w);
             trace := trace w |}
      end
  end.

Definition child_emit_all (pid : nat) (evs : list ChildEvent) (w : World)
  : World :=
  fold_left (fun acc ev => child_emit pid ev acc) evs w.

(** ** CodeWindow *)

Module ElectronAppConfig.
Record t := {
  browserNodeIntegrated : bool;
  browserPreload : string;
  webviewPreload : string;
  plainWebviewPreload : string;
  extensionDir : string;
  nodeEntry : string;
  extensionEntry : string;
  browserUrl : string;
}.
End ElectronAppConfig.

(** The part of the Electron [BrowserWindow] the code relies on: its id and
    the listeners [CodeWindow] adds to its [webContents].  A 'did-finish-load'
    listener is the closure of [start] over [rpcListenPath], so it is kept as
    that path; the 'new-window' listeners are all the same function, so they
    are counted. *)
Record BrowserWindow := {
  browserId : Z;
  did_finish_load : list string;
  new_window : nat;
}.

Record CodeWindow := {
  _workspace : option string;
  appConfig : ElectronAppConfig.t;
  browser : BrowserWindow;
  node : option KTNodeProcess;
  metadata : option (list (string * Json));
  metadata_registered : bool;
}.

(** [get workspace()] *)
Definition workspace (this : CodeWindow) : option string := _workspace this.

(** [constructor(workspace?, metadata?)]: a hidden window, the 'closed' hook
    and the 'window-metadata' responder registered on [ipcMain]. *)
Definition new_CodeWindow (cfg : ElectronAppConfig.t) (bid : Z)
    (ws : option string) (md : option (list (string * Json))) : CodeWindow :=
  {| _workspace := ws; appConfig := cfg;
     browser := {| browserId := bid; did_finish_load := []; new_window := 0 |};
     node := None; metadata := md; metadata_registered := true |}.

(** An [async start()] of [CodeWindow] parked at its [await]: the promise it
    waits for, the [rpcListenPath] of that call, its own result promise. *)
Record Suspended := {
  awaited : nat;
  listenPath : string;
  result : nat;
}.

Record App := {
  world : World;
  window : CodeWindow;
  suspended : list Suspended;
}.

Definition new_App (cfg : ElectronAppConfig.t) (bid : Z)
    (ws : option string) (md : option (list (string * Json))) : App :=
  {| world := empty_world; window := new_CodeWindow cfg bid ws md;
     suspended := [] |}.

Definition set_node (nd : option KTNodeProcess) (this : CodeWindow)
  : CodeWindow :=
  {| _workspace := _workspace this; appConfig := appConfig this;
     browser := browser this; node := nd; metadata := metadata this;
     metadata_registered := metadata_registered this |}.

Definition set_browser (b : BrowserWindow) (this : CodeWindow) : CodeWindow :=
  {| _workspace := _workspace this; appConfig := appConfig this;
     browser := b; node := node this; metadata := metadata this;
     metadata_registered := metadata_registered this |}.

(** [clear()] *)
Definition CodeWindow_clear (a : App) : App :=
  match node (window a) with
  | Some nd =>
      {| world := KTNodeProcess_dispose nd (world a);
         window := set_node None (window a);
         suspended := suspended a |}
  | None => a
  end.

(** Modelled from the spec: [Disposable.dispose] of @ali/ide-core-common is
    not among the sources; it runs the disposer registered with [addDispose],
    which "unregisters the metadata-channel listener". *)
Definition super_dispose (this : CodeWindow) : CodeWindow :=
  {| _workspace := _workspace this; appConfig := appConfig this;
     browser := browser this; node := node this; metadata := metadata this;
     metadata_registered := false |}.

(** [dispose()] *)
Definition CodeWindow_dispose (a : App) : App :=
  let a1 := CodeWindow_clear a in
  {| world := world a1; window := super_dispose (window a1);
     suspended := suspended a1 |}.

(** [close()] *)
Definition CodeWindow_close (a : App) : App :=
  {| world := emit_effect EBrowserClose (world a); window := window a;
     suspended := suspended a |}.

(** [start()] up to its [await]: [clear], a new [KTNodeProcess], its [start].
    Nothing in the [try] block throws synchronously ([start] of the launcher
    is itself [async]), so the call always reaches the [await]. *)
Definition CodeWindow_start (h : Host) (spawn_error : option JsVal)
    (rpcListenPath : string) (a : App) : App * nat :=
  let '(r, w0) := alloc (Own Pending) (world a) in
  let a1 := CodeWindow_clear
              {| world := w0; window := window a; suspended := suspended a |} in
  let cfg := appConfig (window a1) in
  let nd := new_KTNodeProcess (ElectronAppConfig.nodeEntry cfg)
                              (ElectronAppConfig.extensionEntry cfg) in
  let '(nd', w1, p) :=
    KTNodeProcess_start h spawn_error rpcListenPath (workspace (window a1))
                        nd (world a1) in
  ({| world := w1; window := set_node (Some nd') (window a1);
      suspended := suspended a1 ++
        [{| awaited := p; listenPath := rpcListenPath; result := r |}] |}, r).

(** [bindEvents()] *)
Definition CodeWindow_bindEvents (this : CodeWindow) : CodeWindow :=
  set_browser {| browserId := browserId (browser this);
                 did_finish_load := did_finish_load (browser this);
                 new_window := S (new_window (browser this)) |} this.

(** [start()] after its [await], once the awaited promise has settled: the
    rest of the [try] block, or the [catch]; either way the body then ends
    and the result promise is fulfilled. *)
Definition CodeWindow_start_resume (s : Suspended) (st : PState) (a : App)
  : App :=
  match st with
  | Pending => a
  | Fulfilled =>
      let url := ElectronAppConfig.browserUrl (appConfig (window a)) in
      let w1 := emit_effect (ELog ["starting browser window with url: "; url])
                            (world a) in
      let w2 := emit_effect (ELoadURL url) w1 in
      let w3 := emit_effect EShow w2 in
      let this1 :=
        set_browser {| browserId := browserId (browser (window a));
                       did_finish_load :=
                         did_finish_load (browser (window a)) ++ [listenPath s];
                       new_window := new_window (browser (window a)) |}
                    (window a) in
      {| world := settle (result s) Fulfilled w3;
         window := CodeWindow_bindEvents this1;
         suspended := suspended a |}
  | Rejected e =>
      {| world := settle (result s) Fulfilled
                         (emit_effect (ELogError e) (world a));
         window := window a;
         suspended := suspended a |}
  end.

(** The microtasks at the end of a turn of the event loop: every parked
    [start] whose awaited promise has settled runs to its end. *)
Fixpoint resume_all (ss : list Suspended) (a : App) : App :=
  match ss with
  | [] => a
  | s :: rest =>
      match outcome (world a) (awaited s) with
      | Pending =>
          let a' := resume_all rest a in
          {| world := world a'; window := window a';
             suspended := s :: suspended a' |}
      | st => resume_all rest (CodeWindow_start_resume s st a)
      end
  end.

Definition run_microtasks (a : App) : App :=
  resume_all (suspended a)
    {| world := world a; window := window a; suspended := [] |}.

(** The 'new-window' listener of [bindEvents]. *)
Record NavEvent := { defaultPrevented : bool }.

Definition new_window_listener (event : NavEvent) (url : string)
  : NavEvent * list Effect :=
  if negb (defaultPrevented event) then
    ({| defaultPrevented := true |},
     EPreventDefault ::
       (if indexOf url "http" =? 0 then [EOpenExternal url] else []))
  else (event, []).

(** [webContents] emitting 'new-window' to [k] registered listeners, which
    share the event object. *)
Fixpoint emit_new_window (k : nat) (event : NavEvent) (url : string)
  : NavEvent * list Effect :=
  match k with
  | O => (event, [])
  | S k' =>
      let '(ev1, fx1) := new_window_listener event url in
      let '(ev2, fx2) := emit_new_window k' ev1 url in
      (ev2, fx1 ++ fx2)
  end.

(** [webContents] emitting 'did-finish-load': each listener sends its path. *)
Definition emit_did_finish_load (this : CodeWindow) : list Effect :=
  map (ESend "preload:listenPath") (did_finish_load (browser this)).

Definition emit_effects (fx : list Effect) (w : World) : World :=
  {| promises := promises w; procs := procs w; trace := trace w ++ fx |}.

(** One turn of the event loop of the main process. *)
Inductive Action :=
| AStart (h : Host) (spawn_error : option JsVal) (rpcListenPath : string)
| AClear
| AClose
| ADispose
| AClosed
| AChild (pid : nat) (ev : ChildEvent)
| ADidFinishLoad
| ANewWindow (event : NavEvent) (url : string).

Definition turn (a : App) (act : Action) : App :=
  match act with
  | AStart h spawn_error path => fst (CodeWindow_start h spawn_error path a)
  | AClear => CodeWindow_clear a
  | AClose => CodeWindow_close a
  | ADispose | AClosed => CodeWindow_dispose a
  | AChild pid ev =>
      {| world := child_emit pid ev (world a); window := window a;
         suspended := suspended a |}
  | ADidFinishLoad =>
      {| world := emit_effects (emit_did_finish_load (window a)) (world a);
         window := window a; suspended := suspended a |}
  | ANewWindow event url =>
      {| world := emit_effects
                    (snd (emit_new_window (new_window (browser (window a)))
                                          event url))
                    (world a);
         window := window a; suspended := suspended a |}
  end.

Definition step (a : App) (act : Action) : App := run_microtasks (turn a act).

Definition run (a : App) (acts : list Action) : App := fold_left step acts a.

(** ** The 'window-metadata' responder *)

Section Metadata.

(** [JSON.stringify] and [URI.file(path).toString()] are library functions;
    the responder is modelled for any such pair. *)
Variable JSON_stringify : Json -> string.
Variable URI_file_toString : string -> string.

Record IpcEvent := { returnValue : option string }.

Definition opt_str (o : option string) : Json :=
  match o with Some s => JStr s | None => JUndef end.

(** The object literal of the responder, with [...metadata] spread last. *)
Definition metadata_object (this : CodeWindow) : Json :=
  let cfg := appConfig this in
  JObj (obj_spread
          [("workspace", opt_str (workspace this));
           ("webview",
            JObj [("webviewPreload",
                   JStr (URI_file_toString
                           (ElectronAppConfig.webviewPreload cfg)));
                  ("plainWebviewPreload",
                   JStr (URI_file_toString
                           (ElectronAppConfig.plainWebviewPreload cfg)))]);
           ("extensionDir", JStr (ElectronAppConfig.extensionDir cfg))]
          (default [] (metadata this))).

Definition metadataResponser (this : CodeWindow) (event : IpcEvent)
    (windowId : JsVal) : IpcEvent :=
  if strict_eq windowId (VNum (browserId (browser this)))
  then {| returnValue := Some (JSON_stringify (metadata_object this)) |}
  else event.

(** [ipcMain] emitting 'window-metadata' to the responders of the windows
    that are still registered, in registration order. *)
Definition ipcMain_emit (windows : list CodeWindow) (event : IpcEvent)
    (windowId : JsVal) : IpcEvent :=
  fold_left (fun ev this =>
               if metadata_registered this
               then metadataResponser this ev windowId else ev)
            windows event.

(** What the querier reads back from [ipcRenderer.sendSync]. *)
Definition query (windows : list CodeWindow) (windowId : JsVal)
  : option string :=
  returnValue (ipcMain_emit windows {| returnValue := None |} windowId).

End Metadata.

(** ** Vocabulary of the statements *)

(** What one event from the child does to a readiness promise that is still
    pending: the literal 'ready' message fulfils it, an 'error' event rejects
    it with the error, anything else leaves it pending. *)
Definition decisive (ev : ChildEvent) : PState :=
  match ev with
  | Message m => if strict_eq m (VStr "ready") then Fulfilled else Pending
  | Error e => Rejected e
  | _ => Pending
  end.

(** The settlement a sequence of events leads to: that of its first decisive
    event. *)
Fixpoint first_settlement (evs : list ChildEvent) : PState :=
  match evs with
  | [] => Pending
  | ev :: rest =>
      match decisive ev with
      | Pending => first_settlement rest
      | st => st
      end
  end.

(** A client of one [KTNodeProcess]: it calls [start] with arguments of its
    choice, the child emits events, it calls [dispose]; the promises the
    calls of [start] returned are collected in order. *)
Inductive NodeOp :=
| OpStart (h : Host) (spawn_error : option JsVal) (rpcListenPath : string)
          (workspace : option string)
| OpEmit (ev : ChildEvent)
| OpDispose.

Record Session := {
  s_node : KTNodeProcess;
  s_world : World;
  s_returned : list nat;
}.

Definition node_op (s : Session) (op : NodeOp) : Session :=
  match op with
  | OpStart h spawn_error path ws =>
      let '(nd, w, p) :=
        KTNodeProcess_start h spawn_error path ws (s_node s) (s_world s) in
      {| s_node := nd; s_world := w; s_returned := s_returned s ++ [p] |}
  | OpEmit ev =>
      match _process (s_node s) with
      | Some pid =>
          {| s_node := s_node s; s_world := child_emit pid ev (s_world s);
             s_returned := s_returned s |}
      | None => s
      end
  | OpDispose =>
      {| s_node := s_node s;
         s_world := KTNodeProcess_dispose (s_node s) (s_world s);
         s_returned := s_returned s |}
  end.

Definition new_Session (fp entry : string) (w : World) : Session :=
  {| s_node := new_KTNodeProcess fp entry; s_world := w; s_returned := [] |}.

Definition is_fork (e : Effect) : bool :=
  match e with EFork _ _ _ _ => true | _ => false end.

(** Number of processes forked so far. *)
Definition forks (w : World) : nat := length (List.filter is_fork (trace w)).

(** Number of child processes that have not exited. *)
Definition live (w : World) : nat := length (List.filter alive (procs w)).


(** The process the window's launcher holds, if any. *)
Definition owner (a : App) : option nat :=
  match node (window a) with
  | Some nd => _process nd
  | None => None
  end.

(** The responders a 'window-metadata' query for [windowId] gets past. *)
Definition addressed (windowId : JsVal) (this : CodeWindow) : bool :=
  strict_eq windowId (VNum (browserId (browser this))).

(** ** Invariants and intermediate states used in the proofs *)

(** A readiness promise in state [st], after one more event of the child. *)
Definition after (st : PState) (ev : ChildEvent) : PState :=
  match st with Pending => decisive ev | _ => st end.

(** What holds of a session from the first [start] on: [g] is [this.ready],
    [p1] the promise the first call returned. *)
Definition memoized (g p1 : nat) (s : Session) : Prop :=
  ready (s_node s) = Some g
  ∧ (∃ st, promises (s_world s) !! g = Some (Own st))
  ∧ Forall (fun p => promises (s_world s) !! p = Some (Follow g))
           (p1 :: s_returned s).

(** What [run] never changes: the configuration, the workspace and the id
    of the window. *)
Definition static (this : CodeWindow)
  : ElectronAppConfig.t * option string * Z :=
  (appConfig this, _workspace this, browserId (browser this)).

(** The 'message' and 'error' listeners of every child aim at a promise that
    exists. *)
Definition gate_bound (a : App) : Prop :=
  ∀ pid c, procs (world a) !! pid = Some c →
           (gate c < length (promises (world a)))%nat.

Definition unrejected (w : World) (r : nat) : Prop :=
  promises w !! r = Some (Own Pending) ∨ promises w !! r = Some (Own Fulfilled).

(** [r] is a promise no child listener aims at, and it is not rejected. *)
Definition result_ok (r : nat) (a : App) : Prop :=
  unrejected (world a) r
  ∧ ∀ pid c, procs (world a) !! pid = Some c → gate c ≠ r.

Definition is_content_effect (e : Effect) : bool :=
  match e with
  | ELoadURL _ | EShow | ESend _ _ => true
  | _ => false
  end.

(** What the listeners of [start] write to the logs on an event. *)
Definition child_logs (ev : ChildEvent) : list Effect :=
  match ev with
  | Message m => [EConsoleLog m]
  | Error _ => []
  | StdoutData d => [ELog ["[node]" +:+ d]]
  | StderrData d => [ELogError (VStr ("[node]" +:+ d))]
  | Exit => []
  end.

Section FirstStartStates.

Variable cfg : ElectronAppConfig.t.
Variable bid : Z.
Variable ws : option string.
Variable md : option (list (string * Json)).
Variable path : string.

Definition first_launcher (pid : option nat) : KTNodeProcess :=
  {| forkPath := ElectronAppConfig.nodeEntry cfg;
     extensionEntry := ElectronAppConfig.extensionEntry cfg;
     _process := pid; ready := Some 1%nat |}.

(** [start] parked at its [await], the child not yet decided. *)
Definition parked (al : bool) (t : list Effect) : App :=
  {| world := {| promises := [Own Pending; Own Pending; Follow 1];
                 procs := [{| alive := al; gate := 1 |}];
                 trace := t |};
     window := set_node (Some (first_launcher (Some 0%nat)))
                        (new_CodeWindow cfg bid ws md);
     suspended := [{| awaited := 2; listenPath := path; result := 0 |}] |}.

(** [start] ended through its [catch]. *)
Definition failed (e : JsVal) (pid : option nat) (pr : list ChildProcess)
    (t : list Effect) : App :=
  {| world := {| promises := [Own Fulfilled; Own (Rejected e); Follow 1];
                 procs := pr; trace := t |};
     window := set_node (Some (first_launcher pid))
                        (new_CodeWindow cfg bid ws md);
     suspended := [] |}.

(** [start] ended through its [try]: content loaded, window shown, the
    listeners on 'did-finish-load' and 'new-window' in place. *)
Definition running (al : bool) (t : list Effect) : App :=
  {| world := {| promises := [Own Fulfilled; Own Fulfilled; Follow 1];
                 procs := [{| alive := al; gate := 1 |}];
                 trace := t |};
     window :=
       set_browser {| browserId := bid; did_finish_load := [path];
                      new_window := 1 |}
         (set_node (Some (first_launcher (Some 0%nat)))
                   (new_CodeWindow cfg bid ws md));
     suspended := [] |}.

End FirstStartStates.

(** Effects that neither touch the window content nor fork. *)
Definition quiet (t : list Effect) : Prop :=
  List.filter is_content_effect t = [] ∧ List.filter is_fork t = [].

(** How the readiness promise of a launch ends: by the throw of [fork], or by
    the first decisive event of the child. *)
Definition launch_settlement (se : option JsVal) (evs : list ChildEvent)
  : PState :=
  match se with
  | Some e => Rejected e
  | None => first_settlement evs
  end.

(** ** Further vocabulary *)

(** [o[k]] on the object under construction. *)
Fixpoint obj_get (k : string) (o : list (string * Json)) : option Json :=
  match o with
  | [] => None
  | (k', v) :: rest => if String.eqb k' k then Some v else obj_get k rest
  end.

(** The properties [metadataResponser] computes itself, before [...metadata]
    is spread over them. *)
Definition metadata_defaults (URI_file_toString : string -> string)
    (this : CodeWindow) : list (string * Json) :=
  [("workspace", opt_str (workspace this));
   ("webview",
    JObj [("webviewPreload",
           JStr (URI_file_toString
                   (ElectronAppConfig.webviewPreload (appConfig this))));
          ("plainWebviewPreload",
           JStr (URI_file_toString
                   (ElectronAppConfig.plainWebviewPreload (appConfig this))))]);
   ("extensionDir", JStr (ElectronAppConfig.extensionDir (appConfig this)))].

(** The properties of the object [metadataResponser] serializes. *)
Definition metadata_props (URI_file_toString : string -> string)
    (this : CodeWindow) : list (string * Json) :=
  match metadata_object URI_file_toString this with
  | JObj props => props
  | _ => []
  end.

(** [ps'] is [ps] after more of the program has run: nothing is removed, and
    only pending promises have changed. *)
Definition keeps (ps ps' : list PCell) : Prop :=
  (length ps ≤ length ps')%nat
  ∧ ∀ i c, ps !! i = Some c → c = Own Pending ∨ ps' !! i = Some c.

(** Events that are not part of the readiness handshake: output of the child
    and its exit. *)
Definition is_side_channel (ev : ChildEvent) : bool :=
  match ev with
  | StdoutData _ | StderrData _ | Exit => true
  | Message _ | Error _ => false
  end.

(** How many effects of a kind the trace holds. *)
Definition count (f : Effect -> bool) (w : World) : nat :=
  length (List.filter f (trace w)).

Definition is_kill (pid : nat) (e : Effect) : bool :=
  match e with
  | EKill q => Nat.eqb q pid
  | _ => false
  end.

(** How often [kill] was called on process [pid]. *)
Definition kills (pid : nat) (w : World) : nat := count (is_kill pid) w.

Definition is_load (e : Effect) : bool :=
  match e with ELoadURL _ => true | _ => false end.

Definition is_show (e : Effect) : bool :=
  match e with EShow => true | _ => false end.

(** What the window does towards its content or for it: pushing an address,
    intercepting a navigation. *)
Definition is_content_traffic (e : Effect) : bool :=
  match e with
  | ESend _ _ | EPreventDefault | EOpenExternal _ => true
  | _ => false
  end.

Definition is_ready_log (e : Effect) : bool :=
  match e with
  | EConsoleLog m => strict_eq m (VStr "ready")
  | _ => false
  end.

(** Calls of [CodeWindow.start] in which [fork] does not throw. *)
Definition forking_starts (acts : list Action) : nat :=
  length (List.filter (fun act => match act with
                                  | AStart _ None _ => true
                                  | _ => false
                                  end) acts).

(** A fork as a window with configuration [cfg] and workspace [ws] does it. *)
Definition fork_of (cfg : ElectronAppConfig.t) (ws : option string)
    (e : Effect) : Prop :=
  match e with
  | EFork _ modulePath args opts =>
      modulePath = ElectronAppConfig.nodeEntry cfg
      ∧ (∃ path, args = ["--listenPath"; path])
      ∧ env opts !! "KTELECTRON" = Some (Some "1")
      ∧ env opts !! "EXTENSION_HOST_ENTRY"
        = Some (Some (ElectronAppConfig.extensionEntry cfg))
      ∧ env opts !! "WORKSPACE_DIR" = Some ws
      ∧ stdio opts = ["pipe"; "pipe"; "pipe"; "ipc"]
  | _ => True
  end.

(** A launcher whose [fork] threw [e]: no process, [this.ready] rejected. *)
Definition spawn_failed (e : JsVal) (g : nat) (s : Session) : Prop :=
  _process (s_node s) = None
  ∧ ready (s_node s) = Some g
  ∧ promises (s_world s) !! g = Some (Own (Rejected e))
  ∧ Forall (fun p => promises (s_world s) !! p = Some (Follow g))
           (s_returned s).

(** What one turn adds to the trace before the microtasks run. *)
Definition turn_effects (a : App) (act : Action) : list Effect :=
  let killed := match owner a with Some pid => [EKill pid] | None => [] end in
  match act with
  | AStart h se path =>
      killed ++
      match se with
      | Some _ => []
      | None =>
          [EFork (length (procs (world a)))
                 (ElectronAppConfig.nodeEntry (appConfig (window a)))
                 (fork_args path)
                 (fork_options h
                    (ElectronAppConfig.extensionEntry (appConfig (window a)))
                    (workspace (window a)))]
      end
  | AClear | ADispose | AClosed => killed
  | AClose => [EBrowserClose]
  | AChild pid ev =>
      match procs (world a) !! pid with
      | Some _ => child_logs ev
      | None => []
      end
  | ADidFinishLoad => emit_did_finish_load (window a)
  | ANewWindow event url =>
      snd (emit_new_window (new_window (browser (window a))) event url)
  end.

(** What the continuation of [CodeWindow.start] can add to the trace. *)
Definition is_resume_effect (e : Effect) : bool :=
  match e with
  | ELog _ | ELoadURL _ | EShow | ELogError _ => true
  | _ => false
  end.

(** The launcher holds a process that was forked, and [kill] was called at
    most once on any process, never yet on the one the launcher holds. *)
Definition kill_once (a : App) : Prop :=
  (∀ pid, owner a = Some pid → (pid < length (procs (world a)))%nat)
  ∧ ∀ pid, (kills pid (world a) ≤ 1)%nat
           ∧ (owner a = Some pid ∨ (length (procs (world a)) ≤ pid)%nat →
              kills pid (world a) = 0%nat).

(** One listener of each kind per loaded content; without a load, nothing
    went to the content. *)
Definition listeners_inv (a : App) : Prop :=
  new_window (browser (window a)) = count is_load (world a)
  ∧ length (did_finish_load (browser (window a))) = count is_load (world a)
  ∧ count is_show (world a) = count is_load (world a)
  ∧ (count is_load (world a) = 0%nat →
     count is_content_traffic (world a) = 0%nat).

Definition is_from_child (pid : nat) (act : Action) : bool :=
  match act with
  | AChild q _ => Nat.eqb q pid
  | _ => false
  end.

(** The [start] whose result promise is [r], parked at its [await]. *)
Definition parked_call (r : nat) (path : string) : Suspended :=
  {| awaited := S (S r); listenPath := path; result := r |}.

(** Every parked [start] has a result promise that exists. *)
Definition result_bound (a : App) : Prop :=
  ∀ s, s ∈ suspended a → (result s < length (promises (world a)))%nat.

(** The promises of the call [parked_call r path], untouched. *)
Definition untouched (r : nat) (w : World) : Prop :=
  promises w !! r = Some (Own Pending)
  ∧ promises w !! S r = Some (Own Pending)
  ∧ promises w !! S (S r) = Some (Follow (S r)).

(** Another parked call, one that does not settle the promises of
    [parked_call r path] when it resumes. *)
Definition apart (r : nat) (path : string) (s : Suspended) : Prop :=
  s = parked_call r path ∨ (result s ≠ r ∧ result s ≠ S r).

(** The call [parked_call r path], whose child is [pid], is parked and nothing
    but that child can settle what it waits for. *)
Definition waits_for_child (r pid : nat) (path : string) (a : App) : Prop :=
  untouched r (world a)
  ∧ (∀ q c, procs (world a) !! q = Some c → q ≠ pid →
            gate c ≠ r ∧ gate c ≠ S r)
  ∧ Forall (apart r path) (suspended a)
  ∧ parked_call r path ∈ suspended a.

(** A parked [start] as [CodeWindow.start] leaves it, its launcher not
    fulfilled: result promise, readiness promise and the promise the call
    awaits are three consecutive promises, the first of a triple. *)
Definition unready_call (w : World) (s : Suspended) : Prop :=
  (∃ k, result s = 3 * k)%nat
  ∧ awaited s = S (S (result s))
  ∧ promises w !! S (S (result s)) = Some (Follow (S (result s)))
  ∧ ∃ st, promises w !! S (result s) = Some (Own st) ∧ st ≠ Fulfilled.

(** As long as no child has said 'ready': promises come in triples, no url
    was loaded, and no parked [start] has a fulfilled launcher. *)
Definition no_ready_inv (a : App) : Prop :=
  count is_ready_log (world a) = 0%nat →
  (∃ n, length (promises (world a)) = 3 * n)%nat
  ∧ count is_load (world a) = 0%nat
  ∧ Forall (unready_call (world a)) (suspended a).

(** Some extension host was forked with [path] as its listen path. *)
Definition forked_with (path : string) (t : list Effect) : Prop :=
  ∃ pid modulePath opts,
    EFork pid modulePath ["--listenPath"; path] opts ∈ t.

(** What reaches the content is what the window was configured with and
    what an extension host was launched with. *)
Definition content_effect_ok (cfg : ElectronAppConfig.t) (t : list Effect)
    (e : Effect) : Prop :=
  match e with
  | ELoadURL url => url = ElectronAppConfig.browserUrl cfg
  | ESend channel payload =>
      channel = "preload:listenPath" ∧ forked_with payload t
  | _ => True
  end.

(** A parked [start] either forked with its path or will never succeed. *)
Definition launch_ok (w : World) (s : Suspended) : Prop :=
  forked_with (listenPath s) (trace w)
  ∨ ∃ e, outcome w (awaited s) = Rejected e.

Definition pushes_inv (cfg : ElectronAppConfig.t) (a : App) : Prop :=
  Forall (content_effect_ok cfg (trace (world a))) (trace (world a))
  ∧ Forall (fun p => forked_with p (trace (world a)))
           (did_finish_load (browser (window a)))
  ∧ Forall (launch_ok (world a)) (suspended a).

(** [w'] is [w] after more of the program has run. *)
Definition grows (w w' : World) : Prop :=
  keeps (promises w) (promises w') ∧ ∃ fx, trace w' = trace w ++ fx.

(** The child [pid] of the call [parked_call r path] has decided: its
    readiness promise is settled with [st], the call has not resumed yet. *)
Definition decided (r : nat) (st : PState) (w : World) : Prop :=
  promises w !! r = Some (Own Pending)
  ∧ promises w !! S r = Some (Own st)
  ∧ promises w !! S (S r) = Some (Follow (S r)).



(** The processes the window forked on which [kill] was never called. *)
Definition unsignalled (w : World) : list nat :=
  List.filter (fun pid => Nat.eqb (kills pid w) 0) (seq 0 (length (procs w))).

(** The process the window's launcher holds, as a list. *)
Definition held (a : App) : list nat :=
  match owner a with Some pid => [pid] | None => [] end.

(** Every process the window forked and no longer holds was sent [kill]. *)
Definition dropped_killed (a : App) : Prop :=
  ∀ pid, (pid < length (procs (world a)))%nat → owner a ≠ Some pid →
         (1 ≤ kills pid (world a))%nat.

(** A parked [start] as the end of a turn leaves it: it awaits the promise
    its launcher returned, and neither that nor its own result has settled. *)
Definition calm_call (w : World) (s : Suspended) : Prop :=
  awaited s = S (S (result s)) ∧ untouched (result s) w.

(** A parked [start] in the middle of a turn: its launcher may have settled,
    the call has not resumed yet. *)
Definition settling_call (w : World) (s : Suspended) : Prop :=
  awaited s = S (S (result s)) ∧ ∃ st, decided (result s) st w.

(** Between two turns every parked [start] waits for a pending launcher, no
    two of them are the same call, and no child listener aims at the result
    of one. *)
Definition calm (a : App) : Prop :=
  Forall (calm_call (world a)) (suspended a)
  ∧ NoDup (result <$> suspended a)
  ∧ ∀ s q c, s ∈ suspended a → procs (world a) !! q = Some c →
             gate c ≠ result s.

(** What holds between two turns of any run of a window. *)
Definition between_turns (a : App) : Prop :=
  gate_bound a ∧ result_bound a ∧ calm a ∧ listeners_inv a.

(** Starts in a row, each completed by the 'ready' of its child before the
    next: the first child is [pid], one address per start. *)
Fixpoint restarts (h : Host) (pid : nat) (paths : list string) : list Action :=
  match paths with
  | [] => []
  | p :: rest =>
      AStart h None p :: AChild pid (Message (VStr "ready"))
        :: restarts h (S pid) rest
  end.

(** The handling of a 'new-window' event in the words of its description: an
    event whose default is already prevented is left alone; otherwise the
    navigation is prevented, and the url is handed to the external opener
    exactly when it starts with "http". *)
Definition new_window_policy (event : NavEvent) (url : string) : list Effect :=
  if defaultPrevented event then []
  else EPreventDefault ::
         (if String.prefix "http" url then [EOpenExternal url] else []).

(** * Properties *)

(** ** The environment and arguments of the fork *)

Lemma fork_env_KTELECTRON penv entry ws :
  fork_env penv entry ws !! "KTELECTRON" = Some (Some "1").
Proof.
  unfold fork_env.
  rewrite lookup_insert_ne by done.
  rewrite lookup_insert_ne by done.
  apply lookup_insert_eq.
Qed.

Lemma fork_env_EXTENSION_HOST_ENTRY penv entry ws :
  fork_env penv entry ws !! "EXTENSION_HOST_ENTRY" = Some (Some entry).
Proof.
  unfold fork_env.
  rewrite lookup_insert_ne by done.
  apply lookup_insert_eq.
Qed.

Lemma fork_env_WORKSPACE_DIR penv entry ws :
  fork_env penv entry ws !! "WORKSPACE_DIR" = Some ws.
Proof. unfold fork_env. apply lookup_insert_eq. Qed.

Lemma fork_env_other penv entry ws (k : string) :
  k ≠ "KTELECTRON" → k ≠ "EXTENSION_HOST_ENTRY" → k ≠ "WORKSPACE_DIR" →
  fork_env penv entry ws !! k = Some <$> penv !! k.
Proof.
  intros H1 H2 H3. unfold fork_env.
  rewrite !lookup_insert_ne by congruence.
  apply lookup_fmap.
Qed.

(** The first [start] of an instance whose [fork] succeeds: one promise for
    [this.ready], one child whose listeners settle it, one [EFork] in the
    trace, and the follower promise handed to the caller. *)
Lemma start_fresh_forks h path ws fp entry w :
  KTNodeProcess_start h None path ws (new_KTNodeProcess fp entry) w =
  ({| forkPath := fp; extensionEntry := entry;
      _process := Some (length (procs w));
      ready := Some (length (promises w)) |},
   {| promises := (promises w ++ [Own Pending])
                    ++ [Follow (length (promises w))];
      procs := procs w ++ [{| alive := true; gate := length (promises w) |}];
      trace := trace w ++ [EFork (length (procs w)) fp (fork_args path)
                                 (fork_options h entry ws)] |},
   length (promises w ++ [Own Pending])).
Proof. reflexivity. Qed.

(** The first [start] of an instance whose [fork] throws [e]. *)
Lemma start_fresh_throws h e path ws fp entry w :
  KTNodeProcess_start h (Some e) path ws (new_KTNodeProcess fp entry) w =
  ({| forkPath := fp; extensionEntry := entry;
      _process := None; ready := Some (length (promises w)) |},
   {| promises := (promises w ++ [Own (Rejected e)])
                    ++ [Follow (length (promises w))];
      procs := procs w;
      trace := trace w |},
   length (promises w ++ [Own (Rejected e)])).
Proof.
  unfold KTNodeProcess_start, start_executor, settle, alloc; simpl.
  rewrite lookup_app_r by lia.
  replace (length (promises w) - length (promises w))%nat with 0%nat by lia.
  simpl. rewrite length_insert.
  rewrite insert_app_r_alt by lia.
  replace (length (promises w) - length (promises w))%nat with 0%nat by lia.
  simpl. by rewrite !length_app.
Qed.

(** C3. Started with workspace "/proj" and transport address "/tmp/abc.sock",
    a fresh [KTNodeProcess] forks its [forkPath] once, with the argument list
    exactly ["--listenPath"; "/tmp/abc.sock"] and an environment in which
    KTELECTRON is "1", EXTENSION_HOST_ENTRY is the instance's extension entry
    and WORKSPACE_DIR is "/proj". *)
Theorem start_fork_env_and_args (h : Host) (fp entry : string) (w : World) :
  let '(_, w', _) :=
    KTNodeProcess_start h None "/tmp/abc.sock" (Some "/proj")
                        (new_KTNodeProcess fp entry) w in
  ∃ pid opts,
    trace w' = trace w ++ [EFork pid fp ["--listenPath"; "/tmp/abc.sock"] opts]
    ∧ env opts !! "KTELECTRON" = Some (Some "1")
    ∧ env opts !! "EXTENSION_HOST_ENTRY" = Some (Some entry)
    ∧ env opts !! "WORKSPACE_DIR" = Some (Some "/proj").
Proof.
  rewrite start_fresh_forks.
  exists (length (procs w)), (fork_options h entry (Some "/proj")).
  split; [reflexivity|]. simpl.
  split; [apply fork_env_KTELECTRON|].
  split; [apply fork_env_EXTENSION_HOST_ENTRY|apply fork_env_WORKSPACE_DIR].
Qed.

(** C8. Started with no workspace, a fresh [KTNodeProcess] forks with an
    environment in which WORKSPACE_DIR carries no value: the property is
    assigned [undefined], so reading it gives [undefined] and no string is
    bound to it, whatever the parent's environment held under that name. *)
Theorem start_no_workspace_unset (h : Host) (path fp entry : string)
    (w : World) :
  let '(_, w', _) :=
    KTNodeProcess_start h None path None (new_KTNodeProcess fp entry) w in
  ∃ pid opts,
    trace w' = trace w ++ [EFork pid fp ["--listenPath"; path] opts]
    ∧ env_read (env opts) "WORKSPACE_DIR" = None
    ∧ ∀ v : string, env opts !! "WORKSPACE_DIR" ≠ Some (Some v).
Proof.
  rewrite start_fresh_forks.
  exists (length (procs w)), (fork_options h entry None).
  split; [reflexivity|]. simpl. unfold env_read.
  rewrite fork_env_WORKSPACE_DIR. split; [reflexivity|discriminate].
Qed.

(** A parent that itself runs with WORKSPACE_DIR set does not pass it on to
    the extension host of a window without workspace. *)
Example start_no_workspace_overrides_parent :
  let h := {| process_env := {[ "WORKSPACE_DIR" := "/outer" ]};
              isDevelopment := false |} in
  env_read (env (fork_options h "ext.js" None)) "WORKSPACE_DIR" = None
  ∧ env_read (Some <$> process_env h) "WORKSPACE_DIR" = Some "/outer".
Proof. by vm_compute. Qed.

(** C9. The environment of the fork is the parent's environment with
    KTELECTRON, EXTENSION_HOST_ENTRY and WORKSPACE_DIR written over it: under
    every other name the child finds exactly what the parent has, a value
    where the parent has one and nothing where it has none. *)
Theorem start_env_inherits (h : Host) (path fp entry : string)
    (ws : option string) (w : World) (k : string) :
  k ≠ "KTELECTRON" → k ≠ "EXTENSION_HOST_ENTRY" → k ≠ "WORKSPACE_DIR" →
  let '(_, w', _) :=
    KTNodeProcess_start h None path ws (new_KTNodeProcess fp entry) w in
  ∃ pid opts,
    trace w' = trace w ++ [EFork pid fp ["--listenPath"; path] opts]
    ∧ env opts !! k = Some <$> process_env h !! k
    ∧ env_read (env opts) k = process_env h !! k
    ∧ dom (env opts) =
        dom (process_env h)
          ∪ {["KTELECTRON"; "EXTENSION_HOST_ENTRY"; "WORKSPACE_DIR"]}.
Proof.
  intros H1 H2 H3. rewrite start_fresh_forks.
  exists (length (procs w)), (fork_options h entry ws).
  split; [reflexivity|]. simpl. unfold env_read.
  rewrite fork_env_other by assumption.
  split; [reflexivity|]. split; [by destruct (process_env h !! k)|].
  unfold fork_env. rewrite !dom_insert_L, dom_fmap_L.
  apply set_eq. intros x. rewrite !elem_of_union, !elem_of_singleton. tauto.
Qed.

Lemma start_env_inherits_witness :
  let h := {| process_env := {[ "PATH" := "/usr/bin" ]};
              isDevelopment := false |} in
  let '(_, w', _) :=
    KTNodeProcess_start h None "/tmp/abc.sock" (Some "/proj")
                        (new_KTNodeProcess "node.js" "ext.js") empty_world in
  ∃ pid opts,
    trace w' = trace empty_world ++
               [EFork pid "node.js" ["--listenPath"; "/tmp/abc.sock"] opts]
    ∧ env opts !! "PATH" = Some <$> process_env h !! "PATH"
    ∧ env_read (env opts) "PATH" = process_env h !! "PATH"
    ∧ dom (env opts) =
        dom (process_env h)
          ∪ {["KTELECTRON"; "EXTENSION_HOST_ENTRY"; "WORKSPACE_DIR"]}.
Proof.
  intros h.
  apply (start_env_inherits h "/tmp/abc.sock" "node.js" "ext.js" (Some "/proj")
                            empty_world "PATH"); discriminate.
Defined.

(** ** The 'new-window' listener *)

Lemma indexOf_http_prefix (url : string) :
  (indexOf url "http" =? 0) = String.prefix "http" url.
Proof.
  unfold indexOf. destruct url as [|c url].
  - reflexivity.
  - cbn [String.index].
    destruct (String.prefix "http" (String c url)); [reflexivity|].
    destruct (String.index 0 "http" url); reflexivity.
Qed.

Lemma prefix_http_spec (url : string) :
  String.prefix "http" url = true ↔ ∃ rest, url = "http" +:+ rest.
Proof.
  split.
  - intros H.
    destruct url as [|c1 [|c2 [|c3 [|c4 rest]]]]; simpl in H; try discriminate;
      repeat match type of H with
             | (if ?d then _ else _) = true =>
                 destruct d as [<-|]; [|discriminate]
             end; try discriminate.
    by exists rest.
  - intros [rest ->]. unfold String.app. simpl. by destruct rest.
Qed.

Lemma emit_new_window_prevented (k : nat) (url : string) :
  emit_new_window k {| defaultPrevented := true |} url
  = ({| defaultPrevented := true |}, []).
Proof. induction k as [|k IH]; [done|]. cbn. by rewrite IH. Qed.

(** ** Promises *)

Lemma outcome_own (w : World) (p : nat) (st : PState) :
  promises w !! p = Some (Own st) → outcome w p = st.
Proof.
  intros H. unfold outcome.
  destruct (promises w) as [|c ps] eqn:E; [done|].
  simpl length. cbn [outcome_fuel]. by rewrite H.
Qed.

Lemma outcome_follow (w : World) (p g : nat) (st : PState) :
  promises w !! p = Some (Follow g) →
  promises w !! g = Some (Own st) →
  outcome w p = st.
Proof.
  intros Hp Hg. unfold outcome.
  assert (p ≠ g) by congruence.
  apply lookup_lt_Some in Hp as Hlp. apply lookup_lt_Some in Hg as Hlg.
  destruct (length (promises w)) as [|[|n]] eqn:E; [lia|lia|].
  cbn [outcome_fuel]. by rewrite Hp, Hg.
Qed.

(** Promises that follow the same promise settle alike. *)
Lemma outcome_follow_same (w : World) (p q g : nat) :
  promises w !! p = Some (Follow g) →
  promises w !! q = Some (Follow g) →
  outcome w p = outcome w q.
Proof.
  intros Hp Hq. unfold outcome.
  destruct (length (promises w)) as [|n]; [done|].
  cbn [outcome_fuel]. by rewrite Hp, Hq.
Qed.

Lemma settle_procs p st w : procs (settle p st w) = procs w.
Proof. unfold settle. by repeat case_match. Qed.

Lemma settle_trace p st w : trace (settle p st w) = trace w.
Proof. unfold settle. by repeat case_match. Qed.

Lemma settle_length p st w :
  length (promises (settle p st w)) = length (promises w).
Proof. unfold settle. repeat case_match; simpl; by rewrite ?length_insert. Qed.

Lemma settle_follow p st w (q t : nat) :
  promises w !! q = Some (Follow t) →
  promises (settle p st w) !! q = Some (Follow t).
Proof.
  intros H. unfold settle. repeat case_match; try done. simpl.
  rewrite list_lookup_insert_ne; [done|congruence].
Qed.

(** The cell a settlement is aimed at: a pending one takes the new state, a
    settled one keeps its own. *)
Lemma settle_at p st w (s : PState) :
  promises w !! p = Some (Own s) →
  promises (settle p st w) !! p =
    Some (Own match s with Pending => st | _ => s end).
Proof.
  intros H. unfold settle. rewrite H.
  destruct s; try done. simpl.
  apply list_lookup_insert_eq. by eapply lookup_lt_Some.
Qed.

Lemma settle_other p st w (q : nat) :
  q ≠ p → promises (settle p st w) !! q = promises w !! q.
Proof.
  intros H. unfold settle. repeat case_match; try done. simpl.
  by rewrite list_lookup_insert_ne.
Qed.

Lemma settle_own p st w (q : nat) (s : PState) :
  promises w !! q = Some (Own s) →
  ∃ s', promises (settle p st w) !! q = Some (Own s').
Proof.
  intros H. destruct (decide (q = p)) as [->|Hne].
  - eexists. by apply settle_at.
  - exists s. by rewrite settle_other.
Qed.

(** ** What the listeners of [start] do to the readiness promise *)

Lemma child_emit_gate pid ev w (c : ChildProcess) (st : PState) :
  procs w !! pid = Some c →
  promises w !! gate c = Some (Own st) →
  promises (child_emit pid ev w) !! gate c = Some (Own (after st ev))
  ∧ ∃ c', procs (child_emit pid ev w) !! pid = Some c' ∧ gate c' = gate c.
Proof.
  intros Hc Hg. unfold child_emit. rewrite Hc.
  destruct ev as [m|e| | |]; simpl.
  - destruct (strict_eq m (VStr "ready")) eqn:E.
    + split.
      * erewrite settle_at by exact Hg. unfold after, decisive. rewrite E.
        by destruct st.
      * rewrite settle_procs. eauto.
    + split; [|eauto]. simpl. rewrite Hg. unfold after, decisive. rewrite E.
      by destruct st.
  - split; [|rewrite settle_procs; eauto].
    erewrite settle_at by exact Hg. by destruct st.
  - split; [|eauto]. rewrite Hg. by destruct st.
  - split; [|eauto]. rewrite Hg. by destruct st.
  - split; [rewrite Hg; by destruct st|].
    rewrite list_lookup_alter_eq, Hc. simpl. eauto.
Qed.

Lemma child_emit_follow pid ev w (q t : nat) :
  promises w !! q = Some (Follow t) →
  promises (child_emit pid ev w) !! q = Some (Follow t).
Proof.
  intros H. unfold child_emit.
  destruct (procs w !! pid); [|done].
  destruct ev; simpl; try done.
  - case_match; [by apply settle_follow|done].
  - by apply settle_follow.
Qed.

Lemma after_all_pending (evs : list ChildEvent) :
  fold_left after evs Pending = first_settlement evs.
Proof.
  induction evs as [|ev evs IH]; [done|]. simpl.
  destruct (decisive ev) eqn:E; [exact IH| |].
  - clear. induction evs; [done|]. done.
  - clear. induction evs; [done|]. done.
Qed.

Lemma child_emit_all_gate evs : ∀ pid w (c : ChildProcess) (st : PState) (p : nat),
  procs w !! pid = Some c →
  promises w !! gate c = Some (Own st) →
  promises w !! p = Some (Follow (gate c)) →
  outcome (child_emit_all pid evs w) p = fold_left after evs st.
Proof.
  induction evs as [|ev evs IH]; intros pid w c st p Hc Hg Hp.
  - simpl. by eapply outcome_follow.
  - unfold child_emit_all. simpl.
    destruct (child_emit_gate pid ev w c st Hc Hg) as (Hg' & c' & Hc' & Hgc).
    rewrite <- Hgc in Hg'.
    apply (IH pid (child_emit pid ev w) c' (after st ev) p Hc' Hg').
    rewrite Hgc. by apply child_emit_follow.
Qed.

(** C1. The promise a first [start] returns, read for the promise while it is
    outstanding.  If [fork] throws [e], the promise is rejected with [e] and
    there is no child.  Otherwise it is pending when [start] returns, and
    after any sequence of events from the child its state is that of the
    first decisive event: a message that is the string 'ready' fulfils it, an
    'error' event rejects it with that error, and every other message, and
    all output on stdout and stderr, neither fulfils nor rejects it. *)
Theorem start_promise_settlement (h : Host) (path fp entry : string)
    (ws : option string) (w : World) :
  (∀ e : JsVal,
     let '(nd, w', p) :=
       KTNodeProcess_start h (Some e) path ws (new_KTNodeProcess fp entry) w in
     _process nd = None ∧ outcome w' p = Rejected e)
  ∧ (let '(nd, w', p) :=
       KTNodeProcess_start h None path ws (new_KTNodeProcess fp entry) w in
     ∃ pid, _process nd = Some pid
       ∧ outcome w' p = Pending
       ∧ (∀ evs, outcome (child_emit_all pid evs w') p = first_settlement evs)
       ∧ (∀ evs (m : JsVal),
            outcome (child_emit_all pid (evs ++ [Message m]) w') p =
            match first_settlement evs with
            | Pending =>
                if bool_decide (m = VStr "ready") then Fulfilled else Pending
            | st => st
            end)
       ∧ (∀ evs (e : JsVal),
            outcome (child_emit_all pid (evs ++ [Error e]) w') p =
            match first_settlement evs with
            | Pending => Rejected e
            | st => st
            end)).
Proof.
  split.
  - intros e. rewrite start_fresh_throws. split; [done|].
    eapply outcome_follow; simpl.
    + rewrite lookup_app_r by (rewrite length_app; simpl; lia).
      rewrite length_app. simpl.
      by replace (length (promises w) + 1 - (length (promises w) + 1))%nat
        with 0%nat by lia.
    + rewrite lookup_app_l by (rewrite length_app; simpl; lia).
      rewrite lookup_app_r by lia.
      by replace (length (promises w) - length (promises w))%nat with 0%nat by lia.
  - rewrite start_fresh_forks. exists (length (procs w)).
    set (w' := {| promises := _; procs := _; trace := _ |}).
    set (c := {| alive := true; gate := length (promises w) |}).
    assert (Hc : procs w' !! length (procs w) = Some c).
    { simpl. rewrite lookup_app_r by lia.
      by replace (length (procs w) - length (procs w))%nat with 0%nat by lia. }
    assert (Hg : promises w' !! gate c = Some (Own Pending)).
    { simpl. rewrite lookup_app_l by (rewrite length_app; simpl; lia).
      rewrite lookup_app_r by lia.
      by replace (length (promises w) - length (promises w))%nat with 0%nat by lia. }
    assert (Hp : promises w' !! length (promises w ++ [Own Pending])
                 = Some (Follow (gate c))).
    { simpl. rewrite lookup_app_r by lia.
      by replace (length (promises w ++ [Own Pending])
                  - length (promises w ++ [Own Pending]))%nat with 0%nat by lia. }
    assert (Hall : ∀ evs,
      outcome (child_emit_all (length (procs w)) evs w')
              (length (promises w ++ [Own Pending])) = first_settlement evs).
    { intros evs. rewrite <- after_all_pending.
      by apply (child_emit_all_gate evs _ w' c Pending). }
    split; [done|]. split; [apply (Hall [])|]. split; [exact Hall|]. split.
    + intros evs m. rewrite Hall, <- !after_all_pending, fold_left_app. simpl.
      by destruct (fold_left after evs Pending).
    + intros evs e. rewrite Hall, <- !after_all_pending, fold_left_app. simpl.
      by destruct (fold_left after evs Pending).
Qed.

(** ** Repeated calls of [start] on one instance *)

(** Once [this.ready] is set, [start] touches neither the instance nor the
    processes nor the trace: it only wraps [this.ready] in the promise of
    this call, whatever its arguments are. *)
Lemma start_again h se path ws (this : KTNodeProcess) (w : World) (g : nat) :
  ready this = Some g →
  KTNodeProcess_start h se path ws this w =
  (this,
   {| promises := promises w ++ [Follow g]; procs := procs w; trace := trace w |},
   length (promises w)).
Proof. intros H. unfold KTNodeProcess_start. by rewrite H. Qed.

Lemma child_emit_own pid ev w (q : nat) (s : PState) :
  promises w !! q = Some (Own s) →
  ∃ s', promises (child_emit pid ev w) !! q = Some (Own s').
Proof.
  intros H. unfold child_emit.
  destruct (procs w !! pid); [|eauto].
  destruct ev; simpl; eauto using settle_own.
  case_match; eauto using settle_own.
Qed.

Lemma filter_is_fork_app (t u : list Effect) :
  List.filter is_fork (t ++ u) = List.filter is_fork t ++ List.filter is_fork u.
Proof. apply List.filter_app. Qed.

Lemma child_emit_forks pid ev w : forks (child_emit pid ev w) = forks w.
Proof.
  unfold forks, child_emit.
  destruct (procs w !! pid); [|done].
  destruct ev; simpl; rewrite ?settle_trace; simpl;
    rewrite ?filter_is_fork_app; simpl; rewrite ?app_nil_r; try done.
  case_match; rewrite ?settle_trace; simpl;
    rewrite ?filter_is_fork_app; simpl; by rewrite ?app_nil_r.
Qed.

Lemma dispose_forks (this : KTNodeProcess) w :
  forks (KTNodeProcess_dispose this w) = forks w.
Proof.
  unfold forks, KTNodeProcess_dispose, kill.
  destruct (_process this); [|done]. simpl.
  rewrite filter_is_fork_app. simpl. by rewrite app_nil_r.
Qed.

Lemma lookup_snoc_last {A} (l : list A) (x : A) : (l ++ [x]) !! length l = Some x.
Proof.
  rewrite lookup_app_r by lia.
  by replace (length l - length l)%nat with 0%nat by lia.
Qed.

Lemma lookup_snoc_some {A} (l : list A) (x y : A) (i : nat) :
  l !! i = Some y → (l ++ [x]) !! i = Some y.
Proof. intros H. rewrite lookup_app_l; [done|by eapply lookup_lt_Some]. Qed.

Lemma node_op_memoized g p1 s op :
  memoized g p1 s →
  memoized g p1 (node_op s op)
  ∧ forks (s_world (node_op s op)) = forks (s_world s)
  ∧ ready (s_node (node_op s op)) = ready (s_node s).
Proof.
  intros (Hr & [st Hg] & Hret).
  destruct op as [h se path ws|ev|]; unfold node_op.
  - rewrite (start_again h se path ws _ _ g Hr).
    split; [|done]. split; [done|]. cbn [s_world s_returned s_node promises].
    split.
    + exists st. by apply lookup_snoc_some.
    + rewrite app_comm_cons. apply Forall_app. split.
      * eapply Forall_impl; [exact Hret|]. intros p Hp.
        by apply lookup_snoc_some.
      * constructor; [|constructor]. apply lookup_snoc_last.
  - destruct (_process (s_node s)) as [pid|].
    + split; [|split; [apply child_emit_forks|done]].
      split; [done|]. cbn [s_world s_returned s_node].
      split; [by eapply child_emit_own|].
      eapply Forall_impl; [exact Hret|]. intros p Hp.
      by apply child_emit_follow.
    + repeat split; eauto.
  - split; [|split; [apply dispose_forks|done]].
    unfold KTNodeProcess_dispose, kill.
    destruct (_process (s_node s)); repeat split; eauto.
Qed.

Lemma node_ops_memoized g p1 ops : ∀ s,
  memoized g p1 s →
  memoized g p1 (fold_left node_op ops s)
  ∧ forks (s_world (fold_left node_op ops s)) = forks (s_world s)
  ∧ ready (s_node (fold_left node_op ops s)) = ready (s_node s).
Proof.
  induction ops as [|op ops IH]; intros s Hs; [done|]. simpl.
  destruct (node_op_memoized g p1 s op Hs) as (Hs' & Hf & Hr).
  destruct (IH _ Hs') as (Hs'' & Hf' & Hr').
  split; [done|]. split; congruence.
Qed.

Lemma first_start_memoized h se path ws fp entry w :
  let s1 := node_op (new_Session fp entry w) (OpStart h se path ws) in
  memoized (length (promises w)) (S (length (promises w))) s1
  ∧ s_returned s1 = [S (length (promises w))]
  ∧ forks (s_world s1)
    = (forks w + match se with Some _ => 0 | None => 1 end)%nat.
Proof.
  assert (HS : ∀ c, length (promises w ++ [c]) = S (length (promises w))).
  { intros c. rewrite length_app. simpl. lia. }
  destruct se as [e|]; unfold node_op, new_Session;
    cbn [s_node s_world s_returned].
  - rewrite start_fresh_throws, HS. cbn [s_node s_world s_returned app].
    split; [|split; [done|unfold forks; simpl; lia]].
    split; [done|]. cbn [promises]. split.
    + exists (Rejected e). apply lookup_snoc_some, lookup_snoc_last.
    + assert (Hl := lookup_snoc_last (promises w ++ [Own (Rejected e)])
                                     (Follow (length (promises w)))).
      rewrite HS in Hl. by repeat constructor.
  - rewrite start_fresh_forks, HS. cbn [s_node s_world s_returned app].
    split; [|split; [done|]].
    + split; [done|]. cbn [promises]. split.
      * exists Pending. apply lookup_snoc_some, lookup_snoc_last.
      * assert (Hl := lookup_snoc_last (promises w ++ [Own Pending])
                                       (Follow (length (promises w)))).
        rewrite HS in Hl. by repeat constructor.
    + unfold forks. cbn [trace]. rewrite filter_is_fork_app, length_app.
      simpl. lia.
Qed.

(** C2, as the code has it.  After the first [start] of an instance, however
    the client goes on (further calls of [start] with any arguments, events
    from the child, [dispose], in any order, the first call in flight or
    settled): no process is forked beyond what the first call forked,
    [this.ready] stays the promise of the first call, and every promise a call
    of [start] has returned settles as the first call's promise does.  The
    promises themselves are one per call: [start] is an [async] function. *)
Theorem start_idempotent (fp entry : string) (w : World) (h : Host)
    (se : option JsVal) (path : string) (ws : option string)
    (ops : list NodeOp) :
  let s1 := node_op (new_Session fp entry w) (OpStart h se path ws) in
  let s := fold_left node_op ops s1 in
  forks (s_world s) = forks (s_world s1)
  ∧ forks (s_world s1)
    = (forks w + match se with Some _ => 0 | None => 1 end)%nat
  ∧ ready (s_node s) = ready (s_node s1)
  ∧ ∃ p1, s_returned s1 = [p1]
      ∧ Forall (fun p => outcome (s_world s) p = outcome (s_world s) p1)
               (s_returned s).
Proof.
  intros s1 s.
  destruct (first_start_memoized h se path ws fp entry w) as (Hm & Hret & Hf1).
  fold s1 in Hm, Hret, Hf1.
  destruct (node_ops_memoized _ _ ops s1 Hm) as ((Hr & Hg & Hall) & Hf & Hrd).
  fold s in Hr, Hg, Hall, Hf, Hrd.
  split; [exact Hf|]. split; [exact Hf1|]. split; [exact Hrd|].
  exists (S (length (promises w))). split; [exact Hret|].
  inversion Hall as [|? ? Hp1 Hrest]; subst.
  eapply Forall_impl; [exact Hrest|]. intros p Hp. simpl in Hp.
  by eapply outcome_follow_same.
Qed.

(** C2, as the claim has it, fails: two calls of [start] on one instance
    do not return the same promise. *)
Lemma start_twice_distinct_promises :
  let h := {| process_env := ∅; isDevelopment := false |} in
  let s := fold_left node_op
             [OpStart h None "/tmp/abc.sock" (Some "/proj");
              OpStart h None "/tmp/abc.sock" (Some "/proj")]
             (new_Session "node.js" "ext.js" empty_world) in
  ¬ ∃ p, s_returned s = [p; p].
Proof. intros h s [p Hp]. vm_compute in Hp. congruence. Qed.

(** ** The 'window-metadata' responder *)

Section MetadataProps.

Variable JSON_stringify : Json -> string.
Variable URI_file_toString : string -> string.

#[local] Abbreviation responder :=
  (metadataResponser JSON_stringify URI_file_toString).
#[local] Abbreviation emit := (ipcMain_emit JSON_stringify URI_file_toString).

Lemma responder_other (this : CodeWindow) (event : IpcEvent) (windowId : JsVal) :
  addressed windowId this = false → responder this event windowId = event.
Proof. unfold metadataResponser, addressed. by intros ->. Qed.

Lemma ipcMain_emit_addressed (windows : list CodeWindow) (windowId : JsVal) :
  ∀ event, emit windows event windowId
           = emit (List.filter (addressed windowId) windows) event windowId.
Proof.
  induction windows as [|this rest IH]; intros event; [done|].
  cbn [List.filter]. destruct (addressed windowId this) eqn:E.
  - unfold ipcMain_emit in *. cbn [fold_left]. apply IH.
  - unfold ipcMain_emit in *. cbn [fold_left]. rewrite IH.
    destruct (metadata_registered this); [|done].
    by rewrite responder_other.
Qed.

(** C7. A responder whose window id is not the one the query carries leaves
    the event as it found it.  So the answer to a query for [windowId] is
    that of the windows addressed alone: with [this] the one window of that
    id, it is the serialized object of [this] (or nothing once [this] is
    disposed), and two sets of windows that differ only in windows of other
    ids, whatever their workspace or metadata, give the same answer. *)
Theorem metadata_no_cross_window (windowId : JsVal) (this other : CodeWindow)
    (windows windows' : list CodeWindow) (event : IpcEvent) :
  windowId ≠ VNum (browserId (browser other)) →
  List.filter (addressed windowId) windows = [this] →
  List.filter (addressed windowId) windows' = [this] →
  responder other event windowId = event
  ∧ query JSON_stringify URI_file_toString windows windowId
    = (if metadata_registered this
       then Some (JSON_stringify (metadata_object URI_file_toString this))
       else None)
  ∧ query JSON_stringify URI_file_toString windows' windowId
    = query JSON_stringify URI_file_toString windows windowId.
Proof.
  intros Hne Hw Hw'.
  assert (Hthis : addressed windowId this = true).
  { assert (Hin : In this (List.filter (addressed windowId) windows))
      by (rewrite Hw; by left).
    by apply List.filter_In in Hin as [_ ?]. }
  split; [|split].
  - apply responder_other. unfold addressed, strict_eq.
    by apply bool_decide_eq_false.
  - unfold query. rewrite ipcMain_emit_addressed, Hw.
    unfold ipcMain_emit, metadataResponser. cbn [fold_left].
    unfold addressed in Hthis. rewrite Hthis.
    by destruct (metadata_registered this).
  - unfold query. by rewrite (ipcMain_emit_addressed windows'), Hw',
      (ipcMain_emit_addressed windows), Hw.
Qed.

End MetadataProps.

Lemma metadata_no_cross_window_witness :
  let stringify := fun j : Json =>
    match j with
    | JObj (("workspace", JStr w) :: _) => w
    | _ => "{}"
    end in
  let uri := fun f : string => "file://" +:+ f in
  let cfg := {| ElectronAppConfig.browserNodeIntegrated := true;
                ElectronAppConfig.browserPreload := "preload.js";
                ElectronAppConfig.webviewPreload := "/webview.js";
                ElectronAppConfig.plainWebviewPreload := "/plain.js";
                ElectronAppConfig.extensionDir := "/ext";
                ElectronAppConfig.nodeEntry := "node.js";
                ElectronAppConfig.extensionEntry := "ext.js";
                ElectronAppConfig.browserUrl := "file:///index.html" |} in
  let this := new_CodeWindow cfg 1 (Some "/proj") None in
  let other := new_CodeWindow cfg 2 (Some "/secret") None in
  let other' := new_CodeWindow cfg 2 (Some "/changed")
                               (Some [("extensionDir", JStr "/x")]) in
  VNum 1 ≠ VNum (browserId (browser other))
  ∧ List.filter (addressed (VNum 1)) [this; other] = [this]
  ∧ List.filter (addressed (VNum 1)) [other'; this] = [this]
  ∧ query stringify uri [other'; this] (VNum 1)
    = query stringify uri [this; other] (VNum 1).
Proof.
  intros stringify uri cfg this other other'.
  assert (H1 : VNum 1 ≠ VNum (browserId (browser other))) by discriminate.
  assert (H2 : List.filter (addressed (VNum 1)) [this; other] = [this])
    by reflexivity.
  assert (H3 : List.filter (addressed (VNum 1)) [other'; this] = [this])
    by reflexivity.
  split; [exact H1|]. split; [exact H2|]. split; [exact H3|].
  exact (proj2 (proj2 (metadata_no_cross_window stringify uri (VNum 1) this other
                         [this; other] [other'; this]
                         {| returnValue := None |} H1 H2 H3))).
Defined.

(** ** What [clear] and the first part of [start] do *)

Lemma clear_node (a : App) : node (window (CodeWindow_clear a)) = None.
Proof. unfold CodeWindow_clear. by destruct (node (window a)) eqn:E. Qed.

Lemma clear_promises (a : App) :
  promises (world (CodeWindow_clear a)) = promises (world a).
Proof.
  unfold CodeWindow_clear, KTNodeProcess_dispose.
  by repeat case_match.
Qed.

Lemma clear_suspended (a : App) : suspended (CodeWindow_clear a) = suspended a.
Proof. unfold CodeWindow_clear. by case_match. Qed.

Lemma clear_browser (a : App) :
  browser (window (CodeWindow_clear a)) = browser (window a).
Proof. unfold CodeWindow_clear. by case_match. Qed.

Lemma clear_appConfig (a : App) :
  appConfig (window (CodeWindow_clear a)) = appConfig (window a).
Proof. unfold CodeWindow_clear. by case_match. Qed.

(** [clear] kills what the launcher holds and nothing else. *)
Lemma clear_trace (a : App) :
  trace (world (CodeWindow_clear a)) =
  trace (world a) ++ match owner a with Some pid => [EKill pid] | None => [] end.
Proof.
  unfold CodeWindow_clear, owner, KTNodeProcess_dispose.
  destruct (node (window a)) as [nd|]; [|by rewrite app_nil_r].
  destruct (_process nd); [done|by rewrite app_nil_r].
Qed.

Lemma clear_gates (a : App) pid c :
  procs (world (CodeWindow_clear a)) !! pid = Some c →
  ∃ c0, procs (world a) !! pid = Some c0 ∧ gate c0 = gate c.
Proof.
  unfold CodeWindow_clear, KTNodeProcess_dispose.
  destruct (node (window a)) as [nd|]; [|eauto].
  destruct (_process nd) as [pid0|]; eauto.
Qed.

(** [CodeWindow.start] up to its [await], spelled out: the result promise,
    [clear], then the first [start] of a new launcher. *)
Lemma CodeWindow_start_eq h se path (a : App) :
  let a1 := CodeWindow_clear
              {| world := snd (alloc (Own Pending) (world a));
                 window := window a; suspended := suspended a |} in
  let cfg := appConfig (window a) in
  let g := length (promises (world a1)) in
  CodeWindow_start h se path a =
  ({| world :=
        {| promises :=
             (promises (world a1)
                ++ [Own match se with Some e => Rejected e | None => Pending end])
               ++ [Follow g];
           procs := procs (world a1) ++
                    match se with
                    | Some _ => []
                    | None => [{| alive := true; gate := g |}]
                    end;
           trace := trace (world a1) ++
                    match se with
                    | Some _ => []
                    | None => [EFork (length (procs (world a1)))
                                     (ElectronAppConfig.nodeEntry cfg)
                                     (fork_args path)
                                     (fork_options h
                                        (ElectronAppConfig.extensionEntry cfg)
                                        (workspace (window a)))]
                    end |};
      window :=
        set_node (Some {| forkPath := ElectronAppConfig.nodeEntry cfg;
                          extensionEntry := ElectronAppConfig.extensionEntry cfg;
                          _process := match se with
                                      | Some _ => None
                                      | None => Some (length (procs (world a1)))
                                      end;
                          ready := Some g |}) (window a1);
      suspended := suspended a1 ++
                   [{| awaited := S g; listenPath := path;
                       result := length (promises (world a)) |}] |},
   length (promises (world a))).
Proof.
  cbv zeta. unfold CodeWindow_start. cbn [alloc fst snd].
  set (a1 := CodeWindow_clear _).
  set (g := length (promises (world a1))).
  assert (Hcfg : appConfig (window a1) = appConfig (window a))
    by (unfold a1; by rewrite clear_appConfig).
  assert (Hws : workspace (window a1) = workspace (window a)).
  { unfold a1, CodeWindow_clear, workspace. by case_match. }
  assert (HS : ∀ c, length (promises (world a1) ++ [c]) = S g).
  { intros c. rewrite length_app. simpl. unfold g. lia. }
  rewrite Hcfg, Hws. destruct se as [e|].
  - rewrite start_fresh_throws, HS. by rewrite !app_nil_r.
  - by rewrite start_fresh_forks, HS.
Qed.

Lemma clear_procs_length (a : App) :
  length (procs (world (CodeWindow_clear a))) = length (procs (world a)).
Proof.
  unfold CodeWindow_clear, KTNodeProcess_dispose, kill.
  by repeat case_match.
Qed.

Lemma clear_procs (a : App) :
  procs (world (CodeWindow_clear a)) = procs (world a).
Proof.
  unfold CodeWindow_clear, KTNodeProcess_dispose, kill.
  by repeat case_match.
Qed.

Lemma resume_procs s st a :
  procs (world (CodeWindow_start_resume s st a)) = procs (world a).
Proof. destruct st; simpl; by rewrite ?settle_procs. Qed.

Lemma resume_node s st a :
  node (window (CodeWindow_start_resume s st a)) = node (window a).
Proof. by destruct st. Qed.

Lemma resume_all_procs ss : ∀ a,
  procs (world (resume_all ss a)) = procs (world a).
Proof.
  induction ss as [|s ss IH]; intros a; [done|]. cbn [resume_all].
  destruct (outcome (world a) (awaited s)); cbn [world];
    rewrite IH; by rewrite ?resume_procs.
Qed.

Lemma resume_all_node ss : ∀ a,
  node (window (resume_all ss a)) = node (window a).
Proof.
  induction ss as [|s ss IH]; intros a; [done|]. cbn [resume_all].
  destruct (outcome (world a) (awaited s)); cbn [window];
    rewrite IH; by rewrite ?resume_node.
Qed.

Lemma clear_static (a : App) :
  static (window (CodeWindow_clear a)) = static (window a).
Proof. unfold CodeWindow_clear. by case_match. Qed.

Lemma resume_static s st a :
  static (window (CodeWindow_start_resume s st a)) = static (window a).
Proof. by destruct st. Qed.

Lemma resume_all_static ss : ∀ a,
  static (window (resume_all ss a)) = static (window a).
Proof.
  induction ss as [|s ss IH]; intros a; [done|]. cbn [resume_all].
  destruct (outcome (world a) (awaited s)); cbn [window];
    rewrite IH; by rewrite ?resume_static.
Qed.

Lemma turn_static (a : App) (act : Action) :
  static (window (turn a act)) = static (window a).
Proof.
  destruct act; cbn [turn]; try done.
  - rewrite CodeWindow_start_eq. cbn [fst window].
    set (a1 := CodeWindow_clear _).
    change (static (window a1) = static (window a)).
    unfold a1. by rewrite clear_static.
  - apply clear_static.
  - unfold CodeWindow_dispose. cbn [window].
    change (static (window (CodeWindow_clear a)) = static (window a)).
    apply clear_static.
  - unfold CodeWindow_dispose. cbn [window].
    change (static (window (CodeWindow_clear a)) = static (window a)).
    apply clear_static.
Qed.

Lemma run_static acts : ∀ a, static (window (run a acts)) = static (window a).
Proof.
  induction acts as [|act acts IH]; intros a; [done|].
  cbn [run fold_left]. fold (run (step a act) acts). rewrite IH.
  unfold step, run_microtasks. rewrite resume_all_static. apply turn_static.
Qed.

(** ** [CodeWindow.start] does not reject *)

Lemma unrejected_outcome w r :
  unrejected w r → outcome w r = Pending ∨ outcome w r = Fulfilled.
Proof. intros [H|H]; rewrite (outcome_own _ _ _ H); auto. Qed.

Lemma unrejected_settle_fulfilled w r p :
  unrejected w r → unrejected (settle p Fulfilled w) r.
Proof.
  intros H. destruct (decide (r = p)) as [->|Hne].
  - destruct H as [H|H]; [right|right]; by rewrite (settle_at _ _ _ _ H).
  - unfold unrejected. by rewrite settle_other.
Qed.

Lemma unrejected_settle_other w r p st :
  r ≠ p → unrejected w r → unrejected (settle p st w) r.
Proof. intros Hne H. unfold unrejected. by rewrite settle_other. Qed.

Lemma resume_unrejected s st a r :
  unrejected (world a) r → unrejected (world (CodeWindow_start_resume s st a)) r.
Proof.
  intros H. destruct st; cbn [CodeWindow_start_resume world]; [done| |];
    by apply unrejected_settle_fulfilled.
Qed.

Lemma resume_length s st a :
  length (promises (world (CodeWindow_start_resume s st a)))
  = length (promises (world a)).
Proof.
  destruct st; cbn [CodeWindow_start_resume world]; [done| |];
    by rewrite settle_length.
Qed.

Lemma resume_all_unrejected ss r : ∀ a,
  unrejected (world a) r → unrejected (world (resume_all ss a)) r.
Proof.
  induction ss as [|s ss IH]; intros a H; [done|]. cbn [resume_all].
  destruct (outcome (world a) (awaited s)); cbn [world];
    apply IH; by try apply resume_unrejected.
Qed.

Lemma resume_all_length ss : ∀ a,
  length (promises (world (resume_all ss a))) = length (promises (world a)).
Proof.
  induction ss as [|s ss IH]; intros a; [done|]. cbn [resume_all].
  destruct (outcome (world a) (awaited s)); cbn [world];
    rewrite IH; by rewrite ?resume_length.
Qed.

Lemma child_emit_gates pid ev w (i : nat) (c : ChildProcess) :
  procs (child_emit pid ev w) !! i = Some c →
  ∃ c0, procs w !! i = Some c0 ∧ gate c0 = gate c.
Proof.
  unfold child_emit. destruct (procs w !! pid) eqn:E; [|eauto].
  destruct ev; simpl; rewrite ?settle_procs; eauto.
  - case_match; simpl; rewrite ?settle_procs; eauto.
  - destruct (decide (pid = i)) as [->|Hne].
    + rewrite list_lookup_alter_eq, E. simpl. intros [= <-]. eauto.
    + rewrite list_lookup_alter_ne by done. eauto.
Qed.

Lemma child_emit_length pid ev w :
  length (promises (child_emit pid ev w)) = length (promises w).
Proof.
  unfold child_emit. destruct (procs w !! pid); [|done].
  destruct ev; simpl; rewrite ?settle_length; try done.
  case_match; simpl; by rewrite ?settle_length.
Qed.

Lemma child_emit_unrejected pid ev w r :
  (∀ c, procs w !! pid = Some c → gate c ≠ r) →
  unrejected w r → unrejected (child_emit pid ev w) r.
Proof.
  intros Hg H. unfold child_emit. destruct (procs w !! pid) as [c|]; [|done].
  specialize (Hg c eq_refl).
  destruct ev; simpl; try done.
  - case_match; [|done]. by apply unrejected_settle_other.
  - by apply unrejected_settle_other.
Qed.

Lemma start_gates h se path (a : App) pid c :
  procs (world (fst (CodeWindow_start h se path a))) !! pid = Some c →
  (∃ c0, procs (world a) !! pid = Some c0 ∧ gate c0 = gate c)
  ∨ gate c = S (length (promises (world a))).
Proof.
  rewrite CodeWindow_start_eq. cbn [fst world procs].
  set (a1 := CodeWindow_clear _).
  assert (Hp : promises (world a1) = promises (world a) ++ [Own Pending])
    by (unfold a1; by rewrite clear_promises).
  intros Hc. apply lookup_app_Some in Hc as [Hc|[_ Hc]].
  - left. unfold a1 in Hc. apply clear_gates in Hc. exact Hc.
  - right. destruct se; [by rewrite lookup_nil in Hc|].
    apply list_lookup_singleton_Some in Hc as [_ <-]. simpl.
    rewrite Hp, length_app. simpl. lia.
Qed.

Lemma start_promises h se path (a : App) :
  promises (world (fst (CodeWindow_start h se path a))) =
  promises (world a)
    ++ [Own Pending;
        Own match se with Some e => Rejected e | None => Pending end;
        Follow (S (length (promises (world a))))].
Proof.
  rewrite CodeWindow_start_eq. cbn [fst world promises].
  rewrite clear_promises. cbn [world snd alloc promises].
  rewrite length_app. simpl.
  replace (length (promises (world a)) + 1)%nat
    with (S (length (promises (world a)))) by lia.
  by rewrite <- !app_assoc.
Qed.

Lemma turn_gate_bound (a : App) (act : Action) :
  gate_bound a → gate_bound (turn a act).
Proof.
  intros H. destruct act as [h se path| | | | |pid ev| |event url];
    cbn [turn]; try exact H.
  - intros pid c Hc. rewrite start_promises, length_app. simpl.
    apply start_gates in Hc as [(c0 & Hc0 & <-)| ->]; [|lia].
    specialize (H pid c0 Hc0). lia.
  - intros pid c Hc. rewrite clear_promises.
    apply clear_gates in Hc as (c0 & Hc0 & <-). by apply (H pid c0).
  - intros pid c Hc. unfold CodeWindow_dispose in *. cbn [world] in *.
    rewrite clear_promises.
    apply clear_gates in Hc as (c0 & Hc0 & <-). by apply (H pid c0).
  - intros pid c Hc. unfold CodeWindow_dispose in *. cbn [world] in *.
    rewrite clear_promises.
    apply clear_gates in Hc as (c0 & Hc0 & <-). by apply (H pid c0).
  - intros i c Hc. cbn [world] in *. rewrite child_emit_length.
    apply child_emit_gates in Hc as (c0 & Hc0 & <-). by apply (H i c0).
Qed.

Lemma step_gate_bound (a : App) (act : Action) :
  gate_bound a → gate_bound (step a act).
Proof.
  intros H pid c. unfold step, run_microtasks.
  rewrite resume_all_procs, resume_all_length. cbn [world].
  apply (turn_gate_bound a act H).
Qed.

Lemma run_gate_bound acts : ∀ a, gate_bound a → gate_bound (run a acts).
Proof.
  induction acts as [|act acts IH]; intros a H; [done|].
  apply IH. by apply step_gate_bound.
Qed.

Lemma turn_result_ok r (a : App) (act : Action) :
  gate_bound a → result_ok r a → result_ok r (turn a act).
Proof.
  intros Hb [Hr Hg].
  assert (Hlt : (r < length (promises (world a)))%nat)
    by (destruct Hr as [Hr|Hr]; by eapply lookup_lt_Some).
  destruct act as [h se path| | | | |pid ev| |event url];
    cbn [turn]; try (split; [exact Hr|exact Hg]).
  - split.
    + unfold unrejected. rewrite start_promises.
      rewrite lookup_app_l by done. exact Hr.
    + intros pid c Hc.
      apply start_gates in Hc as [(c0 & Hc0 & <-)| ->]; [by eapply Hg|lia].
  - split.
    + unfold unrejected. by rewrite clear_promises.
    + intros pid c Hc. apply clear_gates in Hc as (c0 & Hc0 & <-).
      by eapply Hg.
  - split.
    + unfold unrejected, CodeWindow_dispose. cbn [world].
      by rewrite clear_promises.
    + intros pid c Hc. unfold CodeWindow_dispose in Hc. cbn [world] in Hc.
      apply clear_gates in Hc as (c0 & Hc0 & <-). by eapply Hg.
  - split.
    + unfold unrejected, CodeWindow_dispose. cbn [world].
      by rewrite clear_promises.
    + intros pid c Hc. unfold CodeWindow_dispose in Hc. cbn [world] in Hc.
      apply clear_gates in Hc as (c0 & Hc0 & <-). by eapply Hg.
  - split.
    + cbn [world]. apply child_emit_unrejected; [|done]. apply Hg.
    + intros i c Hc. cbn [world] in Hc.
      apply child_emit_gates in Hc as (c0 & Hc0 & <-). by eapply Hg.
Qed.

Lemma microtasks_result_ok r (a : App) :
  result_ok r a → result_ok r (run_microtasks a).
Proof.
  intros [Hr Hg]. unfold run_microtasks. split.
  - by apply resume_all_unrejected.
  - intros pid c. rewrite resume_all_procs. apply Hg.
Qed.

Lemma run_result_ok r acts : ∀ a,
  gate_bound a → result_ok r a → result_ok r (run a acts).
Proof.
  induction acts as [|act acts IH]; intros a Hb Hr; [done|].
  apply IH; [by apply step_gate_bound|].
  by apply microtasks_result_ok, turn_result_ok.
Qed.

Lemma start_result_ok h se path (a : App) :
  gate_bound a →
  result_ok (length (promises (world a))) (fst (CodeWindow_start h se path a)).
Proof.
  intros Hb. split.
  - left. rewrite start_promises.
    rewrite lookup_app_r by lia.
    by replace (length (promises (world a)) - length (promises (world a)))%nat
      with 0%nat by lia.
  - intros pid c Hc.
    apply start_gates in Hc as [(c0 & Hc0 & <-)| ->]; [|lia].
    specialize (Hb pid c0 Hc0). lia.
Qed.

Lemma microtasks_gate_bound (a : App) :
  gate_bound a → gate_bound (run_microtasks a).
Proof.
  intros H pid c. unfold run_microtasks.
  rewrite resume_all_procs, resume_all_length. apply H.
Qed.

(** The promise [CodeWindow.start] returns is never rejected, whatever the
    window went through before the call and goes through after it. *)
Lemma CodeWindow_start_unrejected cfg bid ws md acts0 h se path acts :
  let a0 := run (new_App cfg bid ws md) acts0 in
  let a := run (run_microtasks (fst (CodeWindow_start h se path a0))) acts in
  let r := snd (CodeWindow_start h se path a0) in
  outcome (world a) r = Pending ∨ outcome (world a) r = Fulfilled.
Proof.
  intros a0 a r.
  assert (Hb0 : gate_bound a0).
  { apply run_gate_bound. intros pid c Hc. done. }
  assert (Hr : r = length (promises (world a0)))
    by (unfold r; by rewrite CodeWindow_start_eq).
  apply unrejected_outcome.
  apply (run_result_ok r acts).
  - apply microtasks_gate_bound. apply (turn_gate_bound a0 (AStart h se path) Hb0).
  - apply microtasks_result_ok. rewrite Hr. by apply start_result_ok.
Qed.

(** ** The first [start] of a window, step by step *)

Section FirstStart.

Variable cfg : ElectronAppConfig.t.
Variable bid : Z.
Variable ws : option string.
Variable md : option (list (string * Json)).
Variable path : string.

Lemma first_start_forks h :
  step (new_App cfg bid ws md) (AStart h None path) =
  parked cfg bid ws md path true
    [EFork 0 (ElectronAppConfig.nodeEntry cfg) ["--listenPath"; path]
           (fork_options h (ElectronAppConfig.extensionEntry cfg) ws)].
Proof.
  unfold step. cbn [turn]. rewrite CodeWindow_start_eq. reflexivity.
Qed.

Lemma first_start_throws h e :
  step (new_App cfg bid ws md) (AStart h (Some e) path) =
  failed cfg bid ws md e None [] [ELogError e].
Proof.
  unfold step. cbn [turn]. rewrite CodeWindow_start_eq. reflexivity.
Qed.

Lemma parked_child al t ev :
  step (parked cfg bid ws md path al t) (AChild 0 ev) =
  match decisive ev with
  | Pending =>
      parked cfg bid ws md path (match ev with Exit => false | _ => al end)
             (t ++ child_logs ev)
  | Fulfilled =>
      running cfg bid ws md path al
        (t ++ child_logs ev ++
           [ELog ["starting browser window with url: ";
                  ElectronAppConfig.browserUrl cfg];
            ELoadURL (ElectronAppConfig.browserUrl cfg); EShow])
  | Rejected e =>
      failed cfg bid ws md e (Some 0%nat) [{| alive := al; gate := 1 |}]
             (t ++ child_logs ev ++ [ELogError e])
  end.
Proof.
  destruct ev as [m|e|d|d|]; unfold step; cbn [turn decisive].
  - unfold parked at 1. cbn [world child_emit procs lookup list_lookup].
    destruct (strict_eq m (VStr "ready")) eqn:E.
    + unfold run_microtasks, running, emit_effect. cbn.
      by rewrite <- !app_assoc.
    + unfold run_microtasks, parked, emit_effect. by cbn.
  - unfold run_microtasks, parked, failed, emit_effect. by cbn.
  - unfold run_microtasks, parked, emit_effect. by cbn.
  - unfold run_microtasks, parked, emit_effect. by cbn.
  - unfold run_microtasks, parked. cbn. by rewrite app_nil_r.
Qed.

Lemma failed_child e pid pr t ev :
  ∃ pr', step (failed cfg bid ws md e pid pr t) (AChild 0 ev) =
         failed cfg bid ws md e pid pr'
                (t ++ match pr with [] => [] | _ => child_logs ev end).
Proof.
  destruct pr as [|c pr].
  - exists []. unfold step, run_microtasks, failed. cbn. by rewrite app_nil_r.
  - destruct ev as [m|e'|d|d|]; unfold step, run_microtasks, failed;
      cbn [turn world child_emit procs lookup list_lookup].
    + exists (c :: pr). destruct (strict_eq m (VStr "ready"));
        unfold settle, emit_effect; cbn;
        by destruct (gate c) as [|[|[|?]]].
    + exists (c :: pr). unfold settle. cbn. rewrite app_nil_r.
      by destruct (gate c) as [|[|[|?]]].
    + by exists (c :: pr).
    + by exists (c :: pr).
    + eexists. cbn. by rewrite app_nil_r.
Qed.


Lemma quiet_app t u : quiet t → quiet u → quiet (t ++ u).
Proof.
  intros [H1 H2] [H3 H4].
  split; rewrite List.filter_app; by rewrite ?H1, ?H2, ?H3, ?H4.
Qed.

Lemma quiet_child_logs ev : quiet (child_logs ev).
Proof. by destruct ev. Qed.

Lemma failed_run e pid evs : ∀ pr t,
  ∃ pr' t', run (failed cfg bid ws md e pid pr t) (map (AChild 0) evs)
            = failed cfg bid ws md e pid pr' (t ++ t')
            ∧ quiet t'.
Proof.
  induction evs as [|ev evs IH]; intros pr t.
  - exists pr, []. by rewrite app_nil_r.
  - cbn [map run fold_left].
    destruct (failed_child e pid pr t ev) as [pr1 ->].
    destruct (IH pr1 (t ++ match pr with [] => [] | _ => child_logs ev end))
      as (pr' & t' & Hrun & Hq).
    unfold run in Hrun. rewrite Hrun.
    exists pr', (match pr with [] => [] | _ => child_logs ev end ++ t').
    split; [by rewrite app_assoc|].
    apply quiet_app; [|done]. destruct pr; [done|apply quiet_child_logs].
Qed.

Lemma parked_run e evs : ∀ al t,
  first_settlement evs = Rejected e →
  ∃ pr' t', run (parked cfg bid ws md path al t) (map (AChild 0) evs)
            = failed cfg bid ws md e (Some 0%nat) pr' (t ++ t')
            ∧ quiet t' ∧ In (ELogError e) t'.
Proof.
  induction evs as [|ev evs IH]; intros al t Hfs; [done|].
  cbn [map run fold_left]. rewrite parked_child.
  cbn [first_settlement] in Hfs.
  destruct (decisive ev) as [| |e'] eqn:Ed; [|done|].
  - destruct (IH (match ev with Exit => false | _ => al end)
                 (t ++ child_logs ev) Hfs) as (pr' & t' & Hrun & Hq & Hin).
    unfold run in Hrun. rewrite Hrun.
    exists pr', (child_logs ev ++ t'). split; [by rewrite app_assoc|].
    split; [by apply quiet_app; [apply quiet_child_logs|]|].
    apply in_or_app. by right.
  - injection Hfs as ->.
    destruct (failed_run e (Some 0%nat) evs [{| alive := al; gate := 1 |}]
                (t ++ child_logs ev ++ [ELogError e])) as (pr' & t' & Hrun & Hq).
    unfold run in Hrun. rewrite Hrun.
    exists pr', ((child_logs ev ++ [ELogError e]) ++ t').
    split; [by rewrite !app_assoc|]. split.
    + apply quiet_app; [|done]. apply quiet_app; [apply quiet_child_logs|done].
    + apply in_or_app. left. apply in_or_app. right. by left.
Qed.

(** A window whose first launch ends in a rejection: nothing but log entries
    after the fork, no listener on the window, the call itself fulfilled. *)
Lemma first_start_rejected h se evs e :
  launch_settlement se evs = Rejected e →
  let a := run (new_App cfg bid ws md)
               (AStart h se path :: map (AChild 0) evs) in
  browser (window a)
    = {| browserId := bid; did_finish_load := []; new_window := 0 |}
  ∧ List.filter is_content_effect (trace (world a)) = []
  ∧ forks (world a) = match se with Some _ => 0%nat | None => 1%nat end
  ∧ In (ELogError e) (trace (world a))
  ∧ outcome (world a) 0 = Fulfilled
  ∧ suspended a = [].
Proof.
  intros Hls a. subst a. cbn [run fold_left].
  destruct se as [e'|]; cbn [launch_settlement] in Hls.
  - injection Hls as ->. rewrite first_start_throws.
    destruct (failed_run e None evs [] [ELogError e])
      as (pr' & t' & Hrun & Hq1 & Hq2).
    unfold run in Hrun. rewrite Hrun. unfold failed, forks. cbn.
    rewrite Hq1, Hq2. repeat split; auto.
  - rewrite first_start_forks.
    match goal with
    | |- context [parked cfg bid ws md path true ?t] =>
        destruct (parked_run e evs true t Hls)
          as (pr' & t' & Hrun & [Hq1 Hq2] & Hin)
    end.
    unfold run in Hrun. rewrite Hrun. unfold failed, forks. cbn.
    rewrite Hq1, Hq2. repeat split; auto.
Qed.



End FirstStart.

(** C4. [CodeWindow.start] never rejects: in any run of a window the promise
    a call of [start] returned is pending or fulfilled.  A parked [start]
    whose awaited launcher promise is rejected with [e] resumes by logging
    [e] and nothing else: the window, its listeners and the processes are as
    before.  On a new window whose launch is rejected with [e] (by a throw
    of [fork] or by the child's events), all that follows the fork are log
    entries, [e] among them: no url is loaded, the window is not shown,
    nothing is sent to the content, no listener is bound, nothing is forked
    again. *)
Theorem CodeWindow_start_failure_logged (cfg : ElectronAppConfig.t) (bid : Z)
    (ws : option string) (md : option (list (string * Json)))
    (acts0 acts : list Action) (h : Host) (se : option JsVal) (path : string)
    (evs : list ChildEvent) (e : JsVal) (b : App) (s : Suspended) :
  outcome (world b) (awaited s) = Rejected e →
  launch_settlement se evs = Rejected e →
  (let a0 := run (new_App cfg bid ws md) acts0 in
   let r := snd (CodeWindow_start h se path a0) in
   let a := run a0 (AStart h se path :: acts) in
   outcome (world a) r = Pending ∨ outcome (world a) r = Fulfilled)
  ∧ (let b' := resume_all [s] b in
     trace (world b') = trace (world b) ++ [ELogError e]
     ∧ window b' = window b
     ∧ procs (world b') = procs (world b)
     ∧ suspended b' = suspended b)
  ∧ (let a := run (new_App cfg bid ws md)
                  (AStart h se path :: map (AChild 0) evs) in
     browser (window a)
       = {| browserId := bid; did_finish_load := []; new_window := 0 |}
     ∧ List.filter is_content_effect (trace (world a)) = []
     ∧ forks (world a) = match se with Some _ => 0%nat | None => 1%nat end
     ∧ In (ELogError e) (trace (world a))
     ∧ outcome (world a) 0 = Fulfilled
     ∧ suspended a = []).
Proof.
  intros Hb Hls. split; [|split].
  - apply (CodeWindow_start_unrejected cfg bid ws md acts0 h se path acts).
  - cbn [resume_all]. rewrite Hb.
    cbn [CodeWindow_start_resume world window suspended].
    rewrite settle_trace, settle_procs. by destruct b.
  - by apply first_start_rejected.
Qed.

Lemma CodeWindow_start_failure_logged_witness :
  let h := {| process_env := ∅; isDevelopment := false |} in
  let cfg := {| ElectronAppConfig.browserNodeIntegrated := true;
                ElectronAppConfig.browserPreload := "preload.js";
                ElectronAppConfig.webviewPreload := "/webview.js";
                ElectronAppConfig.plainWebviewPreload := "/plain.js";
                ElectronAppConfig.extensionDir := "/ext";
                ElectronAppConfig.nodeEntry := "node.js";
                ElectronAppConfig.extensionEntry := "ext.js";
                ElectronAppConfig.browserUrl := "file:///index.html" |} in
  let b := fst (CodeWindow_start h (Some (VObj 7)) "/tmp/abc.sock"
                                 (new_App cfg 1 (Some "/proj") None)) in
  let s := {| awaited := 2; listenPath := "/tmp/abc.sock"; result := 0 |} in
  let evs := [Message (VStr "booting"); Error (VObj 7); Message (VStr "ready")] in
  outcome (world b) (awaited s) = Rejected (VObj 7)
  ∧ launch_settlement None evs = Rejected (VObj 7)
  ∧ trace (world (resume_all [s] b)) = trace (world b) ++ [ELogError (VObj 7)]
  ∧ List.filter is_content_effect
      (trace (world (run (new_App cfg 1 (Some "/proj") None)
                         (AStart h None "/tmp/abc.sock" :: map (AChild 0) evs))))
    = [].
Proof.
  intros h cfg b s evs.
  assert (H1 : outcome (world b) (awaited s) = Rejected (VObj 7)) by reflexivity.
  assert (H2 : launch_settlement None evs = Rejected (VObj 7)) by reflexivity.
  split; [exact H1|]. split; [exact H2|].
  destruct (CodeWindow_start_failure_logged cfg 1 (Some "/proj") None [] []
              h None "/tmp/abc.sock" evs (VObj 7) b s H1 H2)
    as (_ & (Htrace & _) & (_ & Hquiet & _)).
  split; [exact Htrace|exact Hquiet].
Defined.

(** 'did-finish-load' listeners are only ever added. *)
Lemma resume_listeners s st a :
  ∃ more, did_finish_load (browser (window (CodeWindow_start_resume s st a)))
          = did_finish_load (browser (window a)) ++ more.
Proof.
  destruct st.
  - exists []. by rewrite app_nil_r.
  - by exists [listenPath s].
  - exists []. by rewrite app_nil_r.
Qed.

Lemma resume_all_listeners ss : ∀ a,
  ∃ more, did_finish_load (browser (window (resume_all ss a)))
          = did_finish_load (browser (window a)) ++ more.
Proof.
  induction ss as [|s ss IH]; intros a; [exists []; by rewrite app_nil_r|].
  cbn [resume_all].
  destruct (outcome (world a) (awaited s)) eqn:E; cbn [window].
  - apply IH.
  - destruct (IH (CodeWindow_start_resume s Fulfilled a)) as [m1 ->].
    destruct (resume_listeners s Fulfilled a) as [m2 ->].
    exists (m2 ++ m1). by rewrite app_assoc.
  - destruct (IH (CodeWindow_start_resume s (Rejected e) a)) as [m1 ->].
    destruct (resume_listeners s (Rejected e) a) as [m2 ->].
    exists (m2 ++ m1). by rewrite app_assoc.
Qed.

Lemma turn_browser (a : App) (act : Action) :
  browser (window (turn a act)) = browser (window a).
Proof.
  destruct act; cbn [turn]; try done.
  - rewrite CodeWindow_start_eq. cbn [fst window set_node browser].
    by rewrite clear_browser.
  - apply clear_browser.
  - unfold CodeWindow_dispose. cbn [window super_dispose browser].
    apply clear_browser.
  - unfold CodeWindow_dispose. cbn [window super_dispose browser].
    apply clear_browser.
Qed.

Lemma step_listeners (a : App) (act : Action) :
  ∃ more, did_finish_load (browser (window (step a act)))
          = did_finish_load (browser (window a)) ++ more.
Proof.
  unfold step, run_microtasks.
  destruct (resume_all_listeners (suspended (turn a act))
              {| world := world (turn a act); window := window (turn a act);
                 suspended := [] |}) as [more ->].
  cbn [window]. rewrite turn_browser. by exists more.
Qed.





(** * Further properties of the bridge *)

(** ** The object of the 'window-metadata' answer *)

Lemma obj_get_set (k k' : string) (v : Json) (o : list (string * Json)) :
  obj_get k' (obj_set k v o) = if String.eqb k k' then Some v else obj_get k' o.
Proof.
  induction o as [|[k0 v0] o IH]; cbn [obj_set obj_get].
  - done.
  - destruct (String.eqb_spec k0 k) as [->|Hne]; cbn [obj_get].
    + by destruct (String.eqb k k').
    + destruct (String.eqb_spec k0 k') as [->|Hne'].
      * destruct (String.eqb_spec k k'); [congruence|done].
      * exact IH.
Qed.

Lemma obj_get_snoc (k' k : string) (v : Json) (o : list (string * Json)) :
  obj_get k' (o ++ [(k, v)]) =
  match obj_get k' o with
  | Some x => Some x
  | None => if String.eqb k k' then Some v else None
  end.
Proof.
  induction o as [|[k0 v0] o IH]; cbn [app obj_get]; [done|].
  by destruct (String.eqb k0 k').
Qed.

Lemma obj_get_spread (k' : string) (extra : list (string * Json)) :
  ∀ o, obj_get k' (obj_spread o extra) =
       match obj_get k' (rev extra) with
       | Some v => Some v
       | None => obj_get k' o
       end.
Proof.
  induction extra as [|[k v] extra IH]; intros o; [done|].
  unfold obj_spread in *. cbn [fold_left fst snd rev].
  rewrite IH, obj_get_snoc, obj_get_set.
  destruct (obj_get k' (rev extra)); [done|]. by destruct (String.eqb k k').
Qed.

Section MetadataObject.

Variable URI_file_toString : string -> string.

(** X1. In the object the responder serializes, a key the caller's metadata
    carries has the metadata's value (its last one), also when it collides
    with a computed key such as "extensionDir"; every other key has the
    computed value. *)
Theorem metadata_extra_wins (this : CodeWindow) (k : string) :
  obj_get k (metadata_props URI_file_toString this) =
  match obj_get k (rev (default [] (metadata this))) with
  | Some v => Some v
  | None => obj_get k (metadata_defaults URI_file_toString this)
  end.
Proof. unfold metadata_props, metadata_object. apply obj_get_spread. Qed.

End MetadataObject.

(** ** What never changes while a window lives *)

Lemma resume_metadata s st a :
  metadata (window (CodeWindow_start_resume s st a)) = metadata (window a).
Proof. by destruct st. Qed.

Lemma resume_all_metadata ss : ∀ a,
  metadata (window (resume_all ss a)) = metadata (window a).
Proof.
  induction ss as [|s ss IH]; intros a; [done|]. cbn [resume_all].
  destruct (outcome (world a) (awaited s)); cbn [window];
    rewrite IH; by rewrite ?resume_metadata.
Qed.

Lemma clear_metadata (a : App) :
  metadata (window (CodeWindow_clear a)) = metadata (window a).
Proof. unfold CodeWindow_clear. by case_match. Qed.

Lemma turn_metadata (a : App) (act : Action) :
  metadata (window (turn a act)) = metadata (window a).
Proof.
  destruct act; cbn [turn]; try done.
  - rewrite CodeWindow_start_eq. cbn [fst window set_node metadata].
    by rewrite clear_metadata.
  - apply clear_metadata.
  - unfold CodeWindow_dispose. cbn [window super_dispose metadata].
    apply clear_metadata.
  - unfold CodeWindow_dispose. cbn [window super_dispose metadata].
    apply clear_metadata.
Qed.

Lemma run_metadata acts : ∀ a,
  metadata (window (run a acts)) = metadata (window a).
Proof.
  induction acts as [|act acts IH]; intros a; [done|].
  cbn [run fold_left]. fold (run (step a act) acts). rewrite IH.
  unfold step, run_microtasks. rewrite resume_all_metadata. apply turn_metadata.
Qed.

(** X2. The answer of a window to a 'window-metadata' query for its own id
    is fixed when the window is constructed: whatever the window goes
    through afterwards (starts that succeed or fail, [clear], events of its
    children and of its content), its responder computes the same string,
    that of the workspace, configuration and metadata it was created with. *)
Theorem metadata_answer_stable (JSON_stringify : Json -> string)
    (URI_file_toString : string -> string)
    (cfg : ElectronAppConfig.t) (bid : Z) (ws : option string)
    (md : option (list (string * Json))) (acts : list Action)
    (event : IpcEvent) :
  metadataResponser JSON_stringify URI_file_toString
    (window (run (new_App cfg bid ws md) acts)) event (VNum bid)
  = {| returnValue :=
         Some (JSON_stringify
                 (metadata_object URI_file_toString
                    (new_CodeWindow cfg bid ws md))) |}.
Proof.
  pose proof (run_static acts (new_App cfg bid ws md)) as Hst.
  pose proof (run_metadata acts (new_App cfg bid ws md)) as Hmd.
  set (this := window (run (new_App cfg bid ws md) acts)) in *.
  unfold static in Hst. cbn in Hst, Hmd. injection Hst as Hcfg Hws Hbid.
  unfold metadataResponser, strict_eq. rewrite Hbid.
  rewrite bool_decide_eq_true_2 by done.
  unfold metadata_object, workspace. by rewrite Hcfg, Hws, Hmd.
Qed.

(** ** Settled promises stay as they are *)

Lemma keeps_refl ps : keeps ps ps.
Proof. split; [lia|]. intros i c H. by right. Qed.

Lemma keeps_trans ps1 ps2 ps3 : keeps ps1 ps2 → keeps ps2 ps3 → keeps ps1 ps3.
Proof.
  intros [Hl1 H1] [Hl2 H2]. split; [lia|]. intros i c Hc.
  destruct (H1 i c Hc) as [->|Hc2]; [by left|]. by apply (H2 i c).
Qed.

Lemma keeps_app ps more : keeps ps (ps ++ more).
Proof.
  split; [rewrite length_app; lia|]. intros i c H. right.
  by apply lookup_app_l_Some.
Qed.

Lemma keeps_settle p st w : keeps (promises w) (promises (settle p st w)).
Proof.
  split; [by rewrite settle_length|]. intros i c H.
  destruct (decide (i = p)) as [->|Hne].
  - unfold settle. rewrite H. destruct c as [[| |e]|q]; auto.
  - right. by rewrite settle_other.
Qed.

Lemma outcome_fuel_keeps n : ∀ ps p,
  outcome_fuel n ps p ≠ Pending →
  ∀ m ps', (n ≤ m)%nat → keeps ps ps' →
           outcome_fuel m ps' p = outcome_fuel n ps p.
Proof.
  induction n as [|n IH]; intros ps p Hne m ps' Hle Hk; [done|].
  destruct m as [|m]; [lia|]. cbn [outcome_fuel] in *.
  destruct (ps !! p) as [[st|q]|] eqn:E; [| |done].
  - destruct (proj2 Hk p _ E) as [[= ->]| ->]; done.
  - destruct (proj2 Hk p _ E) as [| ->]; [done|].
    apply IH; [done|lia|done].
Qed.

Lemma outcome_keeps (w w' : World) (p : nat) :
  keeps (promises w) (promises w') →
  outcome w p ≠ Pending → outcome w' p = outcome w p.
Proof.
  intros Hk Hne. unfold outcome in *.
  apply outcome_fuel_keeps; [done|apply Hk|done].
Qed.

Lemma child_emit_keeps pid ev w :
  keeps (promises w) (promises (child_emit pid ev w)).
Proof.
  unfold child_emit. destruct (procs w !! pid); [|apply keeps_refl].
  destruct ev; cbn [promises emit_effect]; try apply keeps_refl.
  - case_match; [|apply keeps_refl].
    apply (keeps_settle _ _ (emit_effect _ w)).
  - apply keeps_settle.
Qed.

Lemma resume_keeps s st a :
  keeps (promises (world a))
        (promises (world (CodeWindow_start_resume s st a))).
Proof.
  destruct st; cbn [CodeWindow_start_resume world]; [apply keeps_refl| |].
  - match goal with
    | |- keeps _ (promises (settle _ _ ?w)) =>
        apply (keeps_settle (result s) Fulfilled w)
    end.
  - apply (keeps_settle _ _ (emit_effect _ (world a))).
Qed.

Lemma resume_all_keeps ss : ∀ a,
  keeps (promises (world a)) (promises (world (resume_all ss a))).
Proof.
  induction ss as [|s ss IH]; intros a; [apply keeps_refl|].
  cbn [resume_all].
  destruct (outcome (world a) (awaited s)) eqn:E; cbn [world].
  - apply IH.
  - eapply keeps_trans; [apply (resume_keeps s Fulfilled)|apply IH].
  - eapply keeps_trans; [apply (resume_keeps s (Rejected e))|apply IH].
Qed.

Lemma turn_keeps (a : App) (act : Action) :
  keeps (promises (world a)) (promises (world (turn a act))).
Proof.
  destruct act; cbn [turn world]; try apply keeps_refl.
  - rewrite start_promises. apply keeps_app.
  - rewrite clear_promises. apply keeps_refl.
  - unfold CodeWindow_dispose. cbn [world]. rewrite clear_promises.
    apply keeps_refl.
  - unfold CodeWindow_dispose. cbn [world]. rewrite clear_promises.
    apply keeps_refl.
  - apply child_emit_keeps.
Qed.

Lemma run_keeps acts : ∀ a,
  keeps (promises (world a)) (promises (world (run a acts))).
Proof.
  induction acts as [|act acts IH]; intros a; [apply keeps_refl|].
  cbn [run fold_left]. fold (run (step a act) acts).
  eapply keeps_trans; [|apply IH]. unfold step, run_microtasks.
  eapply keeps_trans; [apply (turn_keeps a act)|].
  apply (resume_all_keeps (suspended (turn a act))
           {| world := world (turn a act); window := window (turn a act);
              suspended := [] |}).
Qed.

(** ** A launcher whose fork threw *)

Lemma node_op_spawn_failed e g s op :
  spawn_failed e g s →
  spawn_failed e g (node_op s op)
  ∧ forks (s_world (node_op s op)) = forks (s_world s).
Proof.
  intros (Hp & Hr & Hg & Hret).
  destruct op as [h se path ws|ev|]; unfold node_op.
  - rewrite (start_again h se path ws _ _ g Hr).
    split; [|done]. split; [done|]. split; [done|].
    cbn [s_world s_returned s_node promises]. split.
    + by apply lookup_snoc_some.
    + apply Forall_app. split.
      * eapply Forall_impl; [exact Hret|]. intros p Hfp.
        by apply lookup_snoc_some.
      * constructor; [|constructor]. apply lookup_snoc_last.
  - rewrite Hp. by repeat split.
  - unfold KTNodeProcess_dispose. rewrite Hp. by repeat split.
Qed.

Lemma node_ops_spawn_failed e g ops : ∀ s,
  spawn_failed e g s →
  spawn_failed e g (fold_left node_op ops s)
  ∧ forks (s_world (fold_left node_op ops s)) = forks (s_world s).
Proof.
  induction ops as [|op ops IH]; intros s Hs; [done|]. cbn [fold_left].
  destruct (node_op_spawn_failed e g s op Hs) as [Hs' Hf].
  destruct (IH _ Hs') as [Hs'' Hf']. split; [done|congruence].
Qed.

(** X4. A launcher whose [fork] threw is never armed again.  However its
    client goes on (further calls of [start] with any arguments, also ones
    for which [fork] would succeed, [dispose]), nothing is forked, the
    launcher holds no process, and every promise [start] has returned is
    rejected with the error of the first attempt. *)
Theorem spawn_failure_is_permanent (fp entry : string) (w : World) (h : Host)
    (e : JsVal) (path : string) (ws : option string) (ops : list NodeOp) :
  let s := fold_left node_op ops
             (node_op (new_Session fp entry w) (OpStart h (Some e) path ws)) in
  _process (s_node s) = None
  ∧ forks (s_world s) = forks w
  ∧ s_returned s ≠ []
  ∧ Forall (fun p => outcome (s_world s) p = Rejected e) (s_returned s).
Proof.
  intros s.
  assert (H1 : spawn_failed e (length (promises w))
                 (node_op (new_Session fp entry w) (OpStart h (Some e) path ws))
               ∧ forks (s_world (node_op (new_Session fp entry w)
                                         (OpStart h (Some e) path ws)))
                 = forks w).
  { unfold node_op, new_Session. cbn [s_node s_world s_returned].
    rewrite start_fresh_throws. cbn [s_node s_world s_returned app].
    split; [|done]. split; [done|]. split; [done|]. cbn [promises]. split.
    - apply lookup_snoc_some, lookup_snoc_last.
    - constructor; [|constructor]. apply lookup_snoc_last. }
  destruct H1 as [H1 Hf1].
  destruct (node_ops_spawn_failed e _ ops _ H1) as [(Hp & Hr & Hg & Hret) Hf].
  fold s in Hp, Hr, Hg, Hret, Hf.
  split; [done|]. split; [congruence|]. split.
  - subst s. clear. revert w.
    assert (Hgrow : ∀ l s, s_returned s ≠ [] →
                           s_returned (fold_left node_op l s) ≠ []).
    { induction l as [|op l IH]; intros s Hs; [exact Hs|]. cbn [fold_left].
      apply IH. destruct op; unfold node_op; try exact Hs.
      - destruct (KTNodeProcess_start _ _ _ _ _ _) as [[nd w'] p].
        cbn [s_returned]. by destruct (s_returned s).
      - by destruct (_process (s_node s)). }
    intros w. apply Hgrow. unfold node_op.
    destruct (KTNodeProcess_start _ _ _ _ _ _) as [[nd w'] p]. done.
  - eapply Forall_impl; [exact Hret|]. intros p Hfp. cbn in Hfp.
    by eapply outcome_follow.
Qed.

(** ** Output of the child *)

Lemma child_emit_trace pid ev w (c : ChildProcess) :
  procs w !! pid = Some c →
  trace (child_emit pid ev w) = trace w ++ child_logs ev
  ∧ ∃ c', procs (child_emit pid ev w) !! pid = Some c'.
Proof.
  intros Hc. unfold child_emit. rewrite Hc.
  destruct ev as [m|e|d|d|]; cbn [child_logs].
  - case_match; rewrite ?settle_trace, ?settle_procs; eauto.
  - rewrite settle_trace, settle_procs, app_nil_r. eauto.
  - eauto.
  - eauto.
  - cbn [trace procs]. rewrite app_nil_r, list_lookup_alter_eq, Hc. eauto.
Qed.

(** X5. Everything a forked child writes is forwarded to the logs, in the
    order it arrives and whatever state the launch is in (ready, failed,
    killed): each message goes to the console, each chunk of stdout to the
    log and each chunk of stderr to the error log, both prefixed with
    "[node]"; 'error' events and the exit of the child leave no entry. *)
Theorem child_output_forwarded (pid : nat) (evs : list ChildEvent) (w : World)
    (c : ChildProcess) :
  procs w !! pid = Some c →
  trace (child_emit_all pid evs w) = trace w ++ flat_map child_logs evs.
Proof.
  revert w c. induction evs as [|ev evs IH]; intros w c Hc.
  - by rewrite app_nil_r.
  - unfold child_emit_all. cbn [fold_left flat_map].
    destruct (child_emit_trace pid ev w c Hc) as [Ht [c' Hc']].
    fold (child_emit_all pid evs (child_emit pid ev w)).
    rewrite (IH _ c' Hc'), Ht. by rewrite app_assoc.
Qed.

Lemma child_output_forwarded_witness :
  let h := {| process_env := ∅; isDevelopment := false |} in
  let w := snd (fst (KTNodeProcess_start h None "/tmp/a.sock" None
                       (new_KTNodeProcess "node.js" "ext.js") empty_world)) in
  let evs := [StdoutData "listening"; Message (VStr "ready");
              Error (VObj 1); StderrData "warn"; Exit; StdoutData "late"] in
  procs w !! 0%nat = Some {| alive := true; gate := 0 |}
  ∧ List.filter (fun e => negb (is_fork e)) (trace (child_emit_all 0 evs w))
    = [ELog ["[node]listening"]; EConsoleLog (VStr "ready");
       ELogError (VStr "[node]warn"); ELog ["[node]late"]].
Proof.
  intros h w evs.
  assert (H : procs w !! 0%nat = Some {| alive := true; gate := 0 |})
    by reflexivity.
  split; [exact H|].
  rewrite (child_output_forwarded 0 evs w _ H). by vm_compute.
Defined.

Lemma fresh_start_outcome h path ws fp entry w evs :
  let '(_, w', p) :=
    KTNodeProcess_start h None path ws (new_KTNodeProcess fp entry) w in
  outcome (child_emit_all (length (procs w)) evs w') p = first_settlement evs.
Proof.
  rewrite start_fresh_forks. rewrite <- after_all_pending.
  apply (child_emit_all_gate evs (length (procs w)) _
           {| alive := true; gate := length (promises w) |} Pending).
  - cbn [procs]. apply lookup_snoc_last.
  - cbn [promises gate]. apply lookup_snoc_some, lookup_snoc_last.
  - cbn [promises gate]. apply lookup_snoc_last.
Qed.

Lemma first_settlement_control (evs : list ChildEvent) :
  first_settlement (List.filter (fun ev => negb (is_side_channel ev)) evs)
  = first_settlement evs.
Proof.
  induction evs as [|ev evs IH]; [done|].
  destruct ev; cbn [List.filter is_side_channel negb first_settlement decisive];
    try done; by rewrite IH.
Qed.

(** X6. Output is a side channel.  What a first [start] resolves to depends
    only on the messages and 'error' events of the child: dropping every
    chunk of stdout and stderr and the exit of the child from what it emits
    leaves the state of the returned promise the same. *)
Theorem output_never_settles (h : Host) (path fp entry : string)
    (ws : option string) (w : World) (evs : list ChildEvent) :
  let '(_, w', p) :=
    KTNodeProcess_start h None path ws (new_KTNodeProcess fp entry) w in
  let pid := length (procs w) in
  outcome (child_emit_all pid evs w') p
  = outcome (child_emit_all pid
               (List.filter (fun ev => negb (is_side_channel ev)) evs) w') p.
Proof.
  pose proof (fresh_start_outcome h path ws fp entry w evs) as H1.
  pose proof (fresh_start_outcome h path ws fp entry w
                (List.filter (fun ev => negb (is_side_channel ev)) evs)) as H2.
  destruct (KTNodeProcess_start _ _ _ _ _ _) as [[nd w'] p].
  cbv zeta. by rewrite H1, H2, first_settlement_control.
Qed.

(** ** What a turn and its microtasks add to the trace *)

Lemma owner_alloc (a : App) c :
  owner {| world := snd (alloc c (world a)); window := window a;
           suspended := suspended a |} = owner a.
Proof. done. Qed.

Lemma turn_trace (a : App) (act : Action) :
  trace (world (turn a act)) = trace (world a) ++ turn_effects a act.
Proof.
  destruct act as [h se path| | | | |pid ev| |event url];
    cbn [turn turn_effects world]; try done.
  - rewrite CodeWindow_start_eq. cbn [fst world trace].
    rewrite clear_trace, owner_alloc, clear_procs_length, <- app_assoc.
    by destruct se.
  - apply clear_trace.
  - unfold CodeWindow_dispose. cbn [world]. apply clear_trace.
  - unfold CodeWindow_dispose. cbn [world]. apply clear_trace.
  - unfold child_emit. destruct (procs (world a) !! pid) as [c|];
      [|by rewrite app_nil_r].
    destruct ev; cbn [child_logs trace emit_effect];
      rewrite ?settle_trace, ?app_nil_r; try done.
    case_match; by rewrite ?settle_trace.
Qed.

Lemma count_app f (w : World) (fx : list Effect) :
  count f {| promises := promises w; procs := procs w;
             trace := trace w ++ fx |}
  = (count f w + length (List.filter f fx))%nat.
Proof. unfold count. cbn [trace]. by rewrite List.filter_app, length_app. Qed.

Lemma count_turn f (a : App) (act : Action) :
  count f (world (turn a act))
  = (count f (world a) + length (List.filter f (turn_effects a act)))%nat.
Proof.
  unfold count. by rewrite turn_trace, List.filter_app, length_app.
Qed.

Lemma resume_trace s st a :
  ∃ fx, trace (world (CodeWindow_start_resume s st a)) = trace (world a) ++ fx
        ∧ forallb is_resume_effect fx = true.
Proof.
  destruct st; cbn [CodeWindow_start_resume world]; rewrite ?settle_trace.
  - exists []. by rewrite app_nil_r.
  - eexists [_; _; _]. cbn [emit_effect trace]. by rewrite <- !app_assoc.
  - by eexists [_].
Qed.

Lemma resume_all_trace ss : ∀ a,
  ∃ fx, trace (world (resume_all ss a)) = trace (world a) ++ fx
        ∧ forallb is_resume_effect fx = true.
Proof.
  induction ss as [|s ss IH]; intros a;
    [exists []; by rewrite app_nil_r|].
  cbn [resume_all].
  destruct (outcome (world a) (awaited s)) eqn:E; cbn [world].
  - apply IH.
  - destruct (resume_trace s Fulfilled a) as (f1 & H1 & Hf1).
    destruct (IH (CodeWindow_start_resume s Fulfilled a)) as (f2 & H2 & Hf2).
    exists (f1 ++ f2). rewrite H2, H1, <- app_assoc. split; [done|].
    by rewrite forallb_app, Hf1, Hf2.
  - destruct (resume_trace s (Rejected e) a) as (f1 & H1 & Hf1).
    destruct (IH (CodeWindow_start_resume s (Rejected e) a))
      as (f2 & H2 & Hf2).
    exists (f1 ++ f2). rewrite H2, H1, <- app_assoc. split; [done|].
    by rewrite forallb_app, Hf1, Hf2.
Qed.

Lemma filter_none f (fx : list Effect) :
  (∀ e, is_resume_effect e = true → f e = false) →
  forallb is_resume_effect fx = true → List.filter f fx = [].
Proof.
  intros Hf. induction fx as [|e fx IH]; [done|]. cbn [forallb List.filter].
  intros [He Hfx]%andb_prop. rewrite (Hf e He). by apply IH.
Qed.

(** A kind of effect the continuation of [start] never has is counted the
    same before and after the microtasks. *)
Lemma count_microtasks f (a : App) :
  (∀ e, is_resume_effect e = true → f e = false) →
  count f (world (run_microtasks a)) = count f (world a).
Proof.
  intros Hf. unfold run_microtasks, count.
  destruct (resume_all_trace (suspended a)
              {| world := world a; window := window a; suspended := [] |})
    as (fx & -> & Hfx).
  cbn [world]. rewrite List.filter_app, (filter_none f fx Hf Hfx).
  by rewrite app_nil_r.
Qed.

Lemma microtasks_owner (a : App) : owner (run_microtasks a) = owner a.
Proof. unfold owner, run_microtasks. by rewrite resume_all_node. Qed.

Lemma microtasks_procs (a : App) :
  procs (world (run_microtasks a)) = procs (world a).
Proof. unfold run_microtasks. by rewrite resume_all_procs. Qed.

(** ** Forks *)

Lemma forks_count (w : World) : forks w = count is_fork w.
Proof. done. Qed.

Lemma step_forks (a : App) (act : Action) :
  forks (world (step a act))
  = (forks (world a) + forking_starts [act])%nat.
Proof.
  unfold step. rewrite !forks_count, count_microtasks by (by intros []).
  rewrite count_turn. f_equal.
  destruct act as [h [e|] path| | | | |pid ev| |event url];
    cbn [turn_effects forking_starts List.filter length];
    rewrite ?List.filter_app, ?length_app, ?app_nil_r; cbn [length].
  - by destruct (owner a).
  - cbn. by destruct (owner a).
  - by destruct (owner a).
  - done.
  - by destruct (owner a).
  - by destruct (owner a).
  - destruct (procs (world a) !! pid); [|done]. by destruct ev.
  - unfold emit_did_finish_load.
    by induction (did_finish_load (browser (window a))).
  - induction (new_window (browser (window a))) as [|k IH] in event |- *;
      [done|].
    cbn [emit_new_window]. unfold new_window_listener at 1.
    destruct (defaultPrevented event); cbn [negb].
    + specialize (IH event).
      destruct (emit_new_window k event url) as [ev2 fx2]. exact IH.
    + specialize (IH {| defaultPrevented := true |}).
      destruct (emit_new_window k _ url) as [ev2 fx2]. cbn [snd] in *.
      by destruct (indexOf url "http" =? 0).
Qed.

(** X7. A window forks exactly once per call of [start] whose [fork] does
    not throw, and at no other time: not on a failure (no retry), not on
    [clear], [dispose] or [close], not on any event of a child or of the
    content. *)
Theorem forks_once_per_start (a : App) (acts : list Action) :
  forks (world (run a acts)) = (forks (world a) + forking_starts acts)%nat.
Proof.
  revert a. induction acts as [|act acts IH]; intros a.
  - unfold forking_starts. cbn. lia.
  - cbn [run fold_left]. fold (run (step a act) acts).
    rewrite IH, step_forks. unfold forking_starts. cbn [List.filter].
    destruct act as [h [e|] path| | | | | | |]; cbn [length]; lia.
Qed.

Lemma Forall_resume_effects (P : Effect → Prop) (fx : list Effect) :
  (∀ e, is_resume_effect e = true → P e) →
  forallb is_resume_effect fx = true → Forall P fx.
Proof.
  intros HP. induction fx as [|e fx IH]; [constructor|]. cbn [forallb].
  intros [He Hfx]%andb_prop. constructor; [by apply HP|by apply IH].
Qed.

Lemma step_fork_of cfg ws (a : App) (act : Action) :
  appConfig (window a) = cfg → _workspace (window a) = ws →
  Forall (fork_of cfg ws) (trace (world a)) →
  Forall (fork_of cfg ws) (trace (world (step a act))).
Proof.
  intros Hcfg Hws H. unfold step, run_microtasks.
  destruct (resume_all_trace (suspended (turn a act))
              {| world := world (turn a act); window := window (turn a act);
                 suspended := [] |}) as (fx & -> & Hfx).
  cbn [world]. rewrite turn_trace. apply Forall_app. split.
  - apply Forall_app. split; [done|].
    destruct act as [h se path| | | | |pid ev| |event url];
      cbn [turn_effects].
    + apply Forall_app. split; [destruct (owner a); by repeat constructor|].
      destruct se; [constructor|]. constructor; [|constructor].
      cbn [fork_of fork_options env stdio]. unfold workspace.
      rewrite Hcfg, Hws. split; [done|]. split; [by eexists|].
      split; [apply fork_env_KTELECTRON|].
      split; [apply fork_env_EXTENSION_HOST_ENTRY|].
      split; [apply fork_env_WORKSPACE_DIR|done].
    + destruct (owner a); by repeat constructor.
    + by repeat constructor.
    + destruct (owner a); by repeat constructor.
    + destruct (owner a); by repeat constructor.
    + destruct (procs (world a) !! pid); [|constructor].
      destruct ev; by repeat constructor.
    + unfold emit_did_finish_load.
      induction (did_finish_load (browser (window a))); by constructor.
    + induction (new_window (browser (window a))) as [|k IH] in event |- *;
        [constructor|].
      cbn [emit_new_window]. unfold new_window_listener at 1.
      destruct (defaultPrevented event); cbn [negb].
      * specialize (IH event).
        destruct (emit_new_window k event url) as [ev2 fx2]. exact IH.
      * specialize (IH {| defaultPrevented := true |}).
        destruct (emit_new_window k _ url) as [ev2 fx2]. cbn [snd] in *.
        destruct (indexOf url "http" =? 0); by repeat constructor.
  - apply Forall_resume_effects; [|done]. by intros [].
Qed.

(** X8. Every extension host a window ever forks, on its first start and on
    every restart, is launched the same way: the configured node entry as
    module, one ["--listenPath"; path] pair as arguments, the four stdio
    channels "pipe", "pipe", "pipe", "ipc", and an environment that marks
    the desktop host, names the configured extension entry and carries the
    workspace the window was constructed with. *)
Theorem every_fork_uses_window_config (cfg : ElectronAppConfig.t) (bid : Z)
    (ws : option string) (md : option (list (string * Json)))
    (acts : list Action) :
  Forall (fork_of cfg ws) (trace (world (run (new_App cfg bid ws md) acts))).
Proof.
  assert (H : ∀ acts a,
    appConfig (window a) = cfg → _workspace (window a) = ws →
    Forall (fork_of cfg ws) (trace (world a)) →
    Forall (fork_of cfg ws) (trace (world (run a acts)))).
  { clear acts. induction acts as [|act acts IH]; intros a Hc Hw Hf; [done|].
    cbn [run fold_left]. fold (run (step a act) acts).
    pose proof (run_static [act] a) as Hst. cbn [run fold_left] in Hst.
    unfold static in Hst. injection Hst as Hc' Hw' _.
    apply IH; [congruence|congruence|by apply step_fork_of]. }
  apply H; [done|done|constructor].
Qed.

(** ** Kills *)

Lemma kills_turn pid (a : App) (act : Action) :
  kills pid (world (turn a act)) =
  (kills pid (world a)
   + match act with
     | AStart _ _ _ | AClear | ADispose | AClosed =>
         match owner a with
         | Some q => if Nat.eqb q pid then 1 else 0
         | None => 0
         end
     | _ => 0
     end)%nat.
Proof.
  unfold kills. rewrite count_turn. f_equal.
  destruct act as [h se path| | | | |q ev| |event url]; cbn [turn_effects].
  - rewrite List.filter_app, length_app.
    destruct se; destruct (owner a); cbn; try destruct (Nat.eqb _ _); done.
  - destruct (owner a); cbn; try destruct (Nat.eqb _ _); done.
  - done.
  - destruct (owner a); cbn; try destruct (Nat.eqb _ _); done.
  - destruct (owner a); cbn; try destruct (Nat.eqb _ _); done.
  - destruct (procs (world a) !! q); [|done]. by destruct ev.
  - unfold emit_did_finish_load.
    by induction (did_finish_load (browser (window a))).
  - induction (new_window (browser (window a))) as [|k IH] in event |- *;
      [done|].
    cbn [emit_new_window]. unfold new_window_listener at 1.
    destruct (defaultPrevented event); cbn [negb].
    + specialize (IH event).
      destruct (emit_new_window k event url) as [ev2 fx2]. exact IH.
    + specialize (IH {| defaultPrevented := true |}).
      destruct (emit_new_window k _ url) as [ev2 fx2]. cbn [snd] in *.
      by destruct (indexOf url "http" =? 0).
Qed.

Lemma turn_owner (a : App) (act : Action) :
  owner (turn a act) =
  match act with
  | AStart _ None _ => Some (length (procs (world a)))
  | AStart _ (Some _) _ | AClear | ADispose | AClosed => None
  | _ => owner a
  end.
Proof.
  destruct act as [h se path| | | | |q ev| |event url]; cbn [turn]; try done.
  - rewrite CodeWindow_start_eq. unfold owner.
    cbn [fst window set_node node _process].
    rewrite clear_procs_length. by destruct se.
  - unfold owner. by rewrite clear_node.
  - unfold owner, CodeWindow_dispose. cbn [window super_dispose node].
    by rewrite clear_node.
  - unfold owner, CodeWindow_dispose. cbn [window super_dispose node].
    by rewrite clear_node.
Qed.

Lemma child_emit_procs_length pid ev w :
  length (procs (child_emit pid ev w)) = length (procs w).
Proof.
  unfold child_emit. destruct (procs w !! pid); [|done].
  destruct ev; cbn [procs emit_effect]; rewrite ?settle_procs; try done.
  - case_match; by rewrite ?settle_procs.
  - by rewrite length_alter.
Qed.

Lemma turn_procs_length (a : App) (act : Action) :
  length (procs (world (turn a act))) =
  (length (procs (world a))
   + match act with AStart _ None _ => 1 | _ => 0 end)%nat.
Proof.
  destruct act as [h se path| | | | |q ev| |event url]; cbn [turn world];
    try (cbn [procs emit_effects CodeWindow_close emit_effect world]; lia).
  - rewrite CodeWindow_start_eq. cbn [fst world procs].
    rewrite length_app, clear_procs_length. by destruct se.
  - rewrite clear_procs_length. lia.
  - unfold CodeWindow_dispose. cbn [world]. rewrite clear_procs_length. lia.
  - unfold CodeWindow_dispose. cbn [world]. rewrite clear_procs_length. lia.
  - rewrite child_emit_procs_length. lia.
Qed.

Lemma step_kill_once (a : App) (act : Action) :
  kill_once a → kill_once (step a act).
Proof.
  intros [Hb Hk]. unfold kill_once, step.
  rewrite microtasks_owner, microtasks_procs.
  assert (Hkm : ∀ pid, kills pid (world (run_microtasks (turn a act)))
                       = kills pid (world (turn a act))).
  { intros pid. unfold kills. apply count_microtasks. by intros []. }
  rewrite turn_owner, turn_procs_length. split.
  - intros pid Ho.
    destruct act as [h [e|] path| | | | |q ev| |event url];
      try done; try (specialize (Hb pid Ho); lia).
    injection Ho as <-. lia.
  - intros pid. rewrite Hkm, kills_turn.
    destruct (Hk pid) as [Hle Hz].
    assert (Hin : owner a = Some pid →
                  kills pid (world a) = 0%nat
                  ∧ (pid < length (procs (world a)))%nat).
    { intros Ho. split; [apply Hz; by left|by apply Hb]. }
    assert (Hout : (length (procs (world a)) ≤ pid)%nat →
                   kills pid (world a) = 0%nat).
    { intros Hl. apply Hz. by right. }
    clear Hz Hk Hb Hkm.
    destruct (owner a) as [q0|] eqn:Eo;
      [destruct (Nat.eqb_spec q0 pid) as [->|Hne];
       [destruct (Hin eq_refl) as [Hk0 Hlt]|]|].
    all: destruct act as [h [e|] path| | | | |q ev| |event url].
    all: split; [lia|].
    all: intros [Hc|Hc]; try discriminate; try (injection Hc as Hc);
      first [lia | congruence | rewrite Hout; lia].
Qed.

Lemma run_kill_once acts : ∀ a, kill_once a → kill_once (run a acts).
Proof.
  induction acts as [|act acts IH]; intros a H; [done|].
  apply IH. by apply step_kill_once.
Qed.

Lemma step_dropped_killed (a : App) (act : Action) :
  dropped_killed a → dropped_killed (step a act).
Proof.
  intros Hd pid. unfold step. rewrite microtasks_owner, microtasks_procs.
  assert (Hkm : kills pid (world (run_microtasks (turn a act)))
                = kills pid (world (turn a act))).
  { unfold kills. apply count_microtasks. by intros []. }
  rewrite Hkm, turn_owner, turn_procs_length, kills_turn.
  specialize (Hd pid).
  destruct (owner a) as [q0|] eqn:Eo;
    [destruct (Nat.eqb_spec q0 pid) as [->|Hne]|].
  all: destruct act as [h [e|] path| | | | |q ev| |event url].
  all: intros Hlt Hno; try congruence.
  all: try (assert (length (procs (world a)) ≠ pid) by congruence).
  all: try lia.
  all: enough (1 ≤ kills pid (world a))%nat by lia.
  all: apply Hd; [lia|congruence].
Qed.

Lemma run_dropped_killed acts : ∀ a,
  dropped_killed a → dropped_killed (run a acts).
Proof.
  induction acts as [|act acts IH]; intros a H; [done|].
  apply IH. by apply step_dropped_killed.
Qed.

Lemma new_App_kill_once cfg bid ws md : kill_once (new_App cfg bid ws md).
Proof. split; [done|]. intros q. split; [cbn; lia|done]. Qed.

Lemma new_App_dropped_killed cfg bid ws md :
  dropped_killed (new_App cfg bid ws md).
Proof. intros pid Hlt. cbn in Hlt. lia. Qed.

(** X9. [kill] is called at most once on any process a window has forked:
    never on the process the window holds, and exactly once on a process it
    has dropped, by the [clear] that dropped it; no later [clear], [dispose]
    or [start] reaches that process again. *)
Theorem each_process_killed_at_most_once (cfg : ElectronAppConfig.t)
    (bid : Z) (ws : option string) (md : option (list (string * Json)))
    (acts : list Action) (pid : nat) :
  let a := run (new_App cfg bid ws md) acts in
  (kills pid (world a) ≤ 1)%nat
  ∧ match procs (world a) !! pid with
    | Some c =>
        kills pid (world a)
        = if bool_decide (owner a = Some pid) then 0%nat else 1%nat
    | None => kills pid (world a) = 0%nat
    end.
Proof.
  intros a.
  assert (Hk : kill_once a) by apply run_kill_once, new_App_kill_once.
  assert (Hd : dropped_killed a)
    by apply run_dropped_killed, new_App_dropped_killed.
  destruct Hk as [Hb Hk]. destruct (Hk pid) as [Hle Hz]. split; [done|].
  destruct (procs (world a) !! pid) as [c|] eqn:E.
  - case_bool_decide as Eo; [apply Hz; by left|].
    apply lookup_lt_Some in E. specialize (Hd pid E Eo). lia.
  - apply Hz. right. by apply lookup_ge_None.
Qed.

(** ** One window, at most one extension host it has not asked to leave *)

Lemma filter_seq_none (f : nat → bool) n : ∀ s,
  (∀ i, (s ≤ i < s + n)%nat → f i = false) → List.filter f (seq s n) = [].
Proof.
  induction n as [|n IH]; intros s H; [done|]. cbn [seq List.filter].
  rewrite (H s) by lia. apply IH. intros i Hi. apply H. lia.
Qed.

Lemma filter_seq_one (f : nat → bool) (k : nat) n : ∀ s,
  (s ≤ k < s + n)%nat →
  (∀ i, (s ≤ i < s + n)%nat → f i = bool_decide (i = k)) →
  List.filter f (seq s n) = [k].
Proof.
  induction n as [|n IH]; intros s Hk H; [lia|]. cbn [seq List.filter].
  rewrite (H s) by lia. case_bool_decide as E.
  - subst s. f_equal. apply filter_seq_none. intros i Hi.
    rewrite H by lia. apply bool_decide_eq_false. lia.
  - apply IH; [lia|]. intros i Hi. apply H. lia.
Qed.

(** The processes not yet asked to terminate are the one the window holds. *)
Lemma unsignalled_held (a : App) :
  kill_once a → dropped_killed a → unsignalled (world a) = held a.
Proof.
  intros [Hb Hk] Hd. unfold unsignalled, held.
  destruct (owner a) as [pid|] eqn:Eo.
  - apply filter_seq_one; [specialize (Hb pid eq_refl); lia|].
    intros i Hi. case_bool_decide as E.
    + subst i. destruct (Hk pid) as [_ Hz]. by rewrite Hz by (by left).
    + apply Nat.eqb_neq.
      assert (1 ≤ kills i (world a))%nat by (apply Hd; [lia|congruence]).
      lia.
  - apply filter_seq_none. intros i Hi. apply Nat.eqb_neq.
    assert (1 ≤ kills i (world a))%nat by (apply Hd; [lia|congruence]).
    lia.
Qed.

Lemma unsignalled_microtasks (a : App) :
  unsignalled (world (run_microtasks a)) = unsignalled (world a).
Proof.
  unfold unsignalled. rewrite microtasks_procs.
  apply List.filter_ext. intros pid. f_equal.
  unfold kills. apply count_microtasks. by intros [].
Qed.

(** What is left unsignalled by one turn of a window. *)
Lemma unsignalled_turn (a : App) (act : Action) :
  kill_once a → dropped_killed a →
  unsignalled (world (turn a act)) = held (turn a act).
Proof.
  intros Hk Hd. rewrite <- unsignalled_microtasks.
  change (run_microtasks (turn a act)) with (step a act).
  rewrite unsignalled_held
    by (by apply step_kill_once || by apply step_dropped_killed).
  unfold held, step. by rewrite microtasks_owner.
Qed.

(** C5, as the code has it.  In every state a window can reach, the
    processes it has forked and not yet asked to terminate are at most one:
    the process its launcher holds.  [clear] and [dispose] leave the
    launcher reference null and no process unsignalled.  [start] first calls
    [kill] on the process the old launcher holds and only then forks for the
    new one, after which the new process alone is unsignalled (none if the
    fork threw). *)
Theorem one_held_extension_host (cfg : ElectronAppConfig.t) (bid : Z)
    (ws : option string) (md : option (list (string * Json)))
    (acts : list Action) (h : Host) (se : option JsVal) (path : string) :
  let a := run (new_App cfg bid ws md) acts in
  let a' := fst (CodeWindow_start h se path a) in
  unsignalled (world a) = held a
  ∧ node (window (CodeWindow_clear a)) = None
  ∧ unsignalled (world (CodeWindow_clear a)) = []
  ∧ node (window (CodeWindow_dispose a)) = None
  ∧ unsignalled (world (CodeWindow_dispose a)) = []
  ∧ trace (world a') =
      trace (world a)
        ++ map EKill (held a)
        ++ match se with
           | Some _ => []
           | None => [EFork (length (procs (world a)))
                            (ElectronAppConfig.nodeEntry cfg)
                            ["--listenPath"; path]
                            (fork_options
                               h (ElectronAppConfig.extensionEntry cfg) ws)]
           end
  ∧ unsignalled (world a') = match se with
                             | Some _ => []
                             | None => [length (procs (world a))]
                             end
  ∧ owner a' = match se with
               | Some _ => None
               | None => Some (length (procs (world a)))
               end.
Proof.
  intros a a'.
  assert (Hk : kill_once a) by apply run_kill_once, new_App_kill_once.
  assert (Hd : dropped_killed a)
    by apply run_dropped_killed, new_App_dropped_killed.
  assert (Hst : static (window a) = (cfg, ws, bid)) by apply run_static.
  injection Hst as Hcfg Hws Hbid.
  assert (Hclear : unsignalled (world (CodeWindow_clear a)) = []).
  { change (CodeWindow_clear a) with (turn a AClear).
    rewrite unsignalled_turn by done. unfold held. by rewrite turn_owner. }
  assert (Ho : owner a' = match se with
                          | Some _ => None
                          | None => Some (length (procs (world a)))
                          end).
  { change a' with (turn a (AStart h se path)). rewrite turn_owner.
    by destruct se. }
  split; [by apply unsignalled_held|].
  split; [apply clear_node|]. split; [done|].
  split; [apply clear_node|]. split; [done|].
  split; [|split; [|done]].
  - change a' with (turn a (AStart h se path)). rewrite turn_trace.
    cbn [turn_effects]. unfold held, workspace. rewrite Hcfg, Hws.
    f_equal. by destruct (owner a), se.
  - change a' with (turn a (AStart h se path)).
    rewrite unsignalled_turn by done. unfold held.
    change (turn a (AStart h se path)) with a'. rewrite Ho. by destruct se.
Qed.

(** C5, as the claim has it, fails: [kill] is a request and [start] does not
    wait for the old child to exit, so right after a restart the window has
    two live children. *)
Lemma restart_leaves_two_live :
  let h := {| process_env := ∅; isDevelopment := false |} in
  let cfg := {| ElectronAppConfig.browserNodeIntegrated := true;
                ElectronAppConfig.browserPreload := "preload.js";
                ElectronAppConfig.webviewPreload := "/webview.js";
                ElectronAppConfig.plainWebviewPreload := "/plain.js";
                ElectronAppConfig.extensionDir := "/ext";
                ElectronAppConfig.nodeEntry := "node.js";
                ElectronAppConfig.extensionEntry := "ext.js";
                ElectronAppConfig.browserUrl := "file:///index.html" |} in
  let a := run (new_App cfg 1 (Some "/proj") None)
               [AStart h None "/tmp/a.sock"; AStart h None "/tmp/b.sock"] in
  live (world a) = 2%nat
  ∧ ¬ (live (world a) ≤ 1)%nat
  ∧ trace (world a)
    = [EFork 0 "node.js" ["--listenPath"; "/tmp/a.sock"]
             (fork_options h "ext.js" (Some "/proj"));
       EKill 0;
       EFork 1 "node.js" ["--listenPath"; "/tmp/b.sock"]
             (fork_options h "ext.js" (Some "/proj"))].
Proof.
  intros h cfg a.
  assert (H : live (world a) = 2%nat) by by vm_compute.
  split; [exact H|]. split; [lia|]. by vm_compute.
Qed.

(** ** Listeners on the content *)

Lemma emit_new_window_kinds k url : ∀ event,
  forallb (fun e => match e with
                    | EPreventDefault | EOpenExternal _ => true
                    | _ => false
                    end) (snd (emit_new_window k event url)) = true.
Proof.
  induction k as [|k IH]; intros event; [done|].
  cbn [emit_new_window]. unfold new_window_listener at 1.
  destruct (defaultPrevented event); cbn [negb].
  - specialize (IH event).
    destruct (emit_new_window k event url) as [ev2 fx2]. exact IH.
  - specialize (IH {| defaultPrevented := true |}).
    destruct (emit_new_window k _ url) as [ev2 fx2]. cbn [snd] in *.
    destruct (indexOf url "http" =? 0); cbn; by rewrite IH.
Qed.

Lemma filter_nil_forallb {A} (f g : A → bool) (l : list A) :
  (∀ x, g x = true → f x = false) → forallb g l = true → List.filter f l = [].
Proof.
  intros Hfg. induction l as [|x l IH]; [done|]. cbn [forallb List.filter].
  intros [Hx Hl]%andb_prop. rewrite (Hfg x Hx). by apply IH.
Qed.

(** No turn loads a url or shows the window by itself. *)
Lemma turn_effects_no_load (a : App) (act : Action) :
  List.filter is_load (turn_effects a act) = []
  ∧ List.filter is_show (turn_effects a act) = [].
Proof.
  destruct act as [h se path| | | | |q ev| |event url]; cbn [turn_effects].
  - rewrite !List.filter_app. by destruct (owner a), se.
  - by destruct (owner a).
  - done.
  - by destruct (owner a).
  - by destruct (owner a).
  - destruct (procs (world a) !! q); [|done]. by destruct ev.
  - unfold emit_did_finish_load.
    split; by induction (did_finish_load (browser (window a))).
  - split; eapply filter_nil_forallb;
      try apply emit_new_window_kinds; by intros [].
Qed.

(** Without listeners, no turn sends anything to the content or intercepts
    a navigation. *)
Lemma turn_effects_no_traffic (a : App) (act : Action) :
  new_window (browser (window a)) = 0%nat →
  did_finish_load (browser (window a)) = [] →
  List.filter is_content_traffic (turn_effects a act) = [].
Proof.
  intros Hn Hd.
  destruct act as [h se path| | | | |q ev| |event url]; cbn [turn_effects].
  - rewrite !List.filter_app. by destruct (owner a), se.
  - by destruct (owner a).
  - done.
  - by destruct (owner a).
  - by destruct (owner a).
  - destruct (procs (world a) !! q); [|done]. by destruct ev.
  - unfold emit_did_finish_load. by rewrite Hd.
  - by rewrite Hn.
Qed.

Lemma turn_listeners_inv (a : App) (act : Action) :
  listeners_inv a → listeners_inv (turn a act).
Proof.
  intros (Hn & Hd & Hs & Ht). unfold listeners_inv.
  rewrite turn_browser, !count_turn.
  destruct (turn_effects_no_load a act) as [-> ->]. cbn [length].
  rewrite !Nat.add_0_r. split; [done|]. split; [done|]. split; [done|].
  intros H0. rewrite turn_effects_no_traffic; [cbn [length]; by rewrite Ht|lia|].
  apply length_zero_iff_nil. lia.
Qed.

Lemma resume_listeners_inv s st (a : App) :
  listeners_inv a → listeners_inv (CodeWindow_start_resume s st a).
Proof.
  intros (Hn & Hd & Hs & Ht). destruct st; [done| |].
  - unfold listeners_inv, count.
    cbn [CodeWindow_start_resume world window CodeWindow_bindEvents
         set_browser browser new_window did_finish_load].
    rewrite settle_trace. cbn [emit_effect trace].
    rewrite <- !app_assoc, !List.filter_app, !length_app. cbn.
    fold (count is_load (world a)) (count is_show (world a)).
    split; [lia|]. split; [lia|]. split; [lia|lia].
  - unfold listeners_inv, count.
    cbn [CodeWindow_start_resume world window]. rewrite settle_trace.
    cbn [emit_effect trace]. rewrite !List.filter_app, !length_app. cbn.
    fold (count is_load (world a)) (count is_show (world a))
         (count is_content_traffic (world a)).
    rewrite !Nat.add_0_r. by repeat split.
Qed.

Lemma resume_all_listeners_inv ss : ∀ a,
  listeners_inv a → listeners_inv (resume_all ss a).
Proof.
  induction ss as [|s ss IH]; intros a H; [done|]. cbn [resume_all].
  destruct (outcome (world a) (awaited s)) eqn:E.
  - exact (IH a H).
  - apply IH. by apply resume_listeners_inv.
  - apply IH. by apply resume_listeners_inv.
Qed.

Lemma run_listeners_inv acts : ∀ a, listeners_inv a → listeners_inv (run a acts).
Proof.
  induction acts as [|act acts IH]; intros a H; [done|].
  apply IH. unfold step, run_microtasks.
  apply (resume_all_listeners_inv (suspended (turn a act))
           {| world := world (turn a act); window := window (turn a act);
              suspended := [] |}).
  by apply turn_listeners_inv.
Qed.

Lemma new_App_listeners_inv cfg bid ws md : listeners_inv (new_App cfg bid ws md).
Proof. by repeat split. Qed.

(** X11. Until a start has completed successfully, a window leaves its
    content alone: as long as no url was loaded, no address was sent to the
    content and no navigation was intercepted or handed to the external
    opener, whatever events arrived. *)
Theorem no_traffic_before_first_load (cfg : ElectronAppConfig.t) (bid : Z)
    (ws : option string) (md : option (list (string * Json)))
    (acts : list Action) :
  let a := run (new_App cfg bid ws md) acts in
  count is_load (world a) = 0%nat →
  count is_content_traffic (world a) = 0%nat.
Proof.
  intros a.
  destruct (run_listeners_inv acts _ (new_App_listeners_inv cfg bid ws md))
    as (_ & _ & _ & Ht).
  exact Ht.
Qed.

Lemma no_traffic_before_first_load_witness :
  let h := {| process_env := ∅; isDevelopment := false |} in
  let cfg := {| ElectronAppConfig.browserNodeIntegrated := true;
                ElectronAppConfig.browserPreload := "preload.js";
                ElectronAppConfig.webviewPreload := "/webview.js";
                ElectronAppConfig.plainWebviewPreload := "/plain.js";
                ElectronAppConfig.extensionDir := "/ext";
                ElectronAppConfig.nodeEntry := "node.js";
                ElectronAppConfig.extensionEntry := "ext.js";
                ElectronAppConfig.browserUrl := "file:///index.html" |} in
  let acts := [ADidFinishLoad;
               ANewWindow {| defaultPrevented := false |} "http://a";
               AStart h None "/tmp/a.sock"; ADidFinishLoad;
               AChild 0 (Error (VObj 1));
               ANewWindow {| defaultPrevented := false |} "http://b"] in
  let a := run (new_App cfg 1 None None) acts in
  count is_load (world a) = 0%nat
  ∧ count is_content_traffic (world a) = 0%nat.
Proof.
  intros h cfg acts a.
  assert (H : count is_load (world a) = 0%nat) by by vm_compute.
  split; [exact H|].
  exact (no_traffic_before_first_load cfg 1 None None acts H).
Defined.

(** ** A parked start and its child *)

Lemma resume_all_suspended ss : ∀ a s,
  s ∈ suspended (resume_all ss a) → s ∈ ss ∨ s ∈ suspended a.
Proof.
  induction ss as [|s0 ss IH]; intros a s Hs; [by right|].
  cbn [resume_all] in Hs.
  destruct (outcome (world a) (awaited s0)) eqn:E.
  - cbn [suspended] in Hs. apply elem_of_cons in Hs as [->|Hs].
    + left. by left.
    + destruct (IH a s Hs) as [H|H]; [left; by right|by right].
  - destruct (IH _ s Hs) as [H|H]; [left; by right|right; exact H].
  - destruct (IH _ s Hs) as [H|H]; [left; by right|right; exact H].
Qed.

Lemma turn_suspended (a : App) (act : Action) :
  suspended (turn a act) =
  suspended a ++
  match act with
  | AStart _ _ path => [parked_call (length (promises (world a))) path]
  | _ => []
  end.
Proof.
  destruct act as [h se path| | | | |q ev| |event url]; cbn [turn suspended];
    rewrite ?app_nil_r; try done.
  - rewrite CodeWindow_start_eq. cbn [fst suspended].
    rewrite clear_suspended, clear_promises. cbn [suspended world alloc snd promises].
    rewrite length_app. cbn [length].
    by replace (length (promises (world a)) + 1)%nat
      with (S (length (promises (world a)))) by lia.
  - apply clear_suspended.
  - unfold CodeWindow_dispose. cbn [suspended]. apply clear_suspended.
  - unfold CodeWindow_dispose. cbn [suspended]. apply clear_suspended.
Qed.

Lemma turn_length (a : App) (act : Action) :
  (length (promises (world a)) ≤ length (promises (world (turn a act))))%nat.
Proof. apply turn_keeps. Qed.

Lemma step_result_bound (a : App) (act : Action) :
  result_bound a → result_bound (step a act).
Proof.
  intros H s Hs. unfold step, run_microtasks in *.
  rewrite resume_all_length. cbn [world].
  apply resume_all_suspended in Hs as [Hs|Hs]; [|by apply elem_of_nil in Hs].
  rewrite turn_suspended in Hs. apply elem_of_app in Hs as [Hs|Hs].
  - specialize (H s Hs). pose proof (turn_length a act). lia.
  - destruct act as [h se path| | | | |q ev| |event url];
      try by apply elem_of_nil in Hs.
    apply list_elem_of_singleton in Hs as ->. cbn [turn parked_call result].
    rewrite start_promises, length_app. cbn. lia.
Qed.

Lemma run_result_bound acts : ∀ a, result_bound a → result_bound (run a acts).
Proof.
  induction acts as [|act acts IH]; intros a H; [done|].
  apply IH. by apply step_result_bound.
Qed.

Lemma untouched_outcome r w :
  untouched r w → outcome w r = Pending ∧ outcome w (S (S r)) = Pending.
Proof.
  intros (H0 & H1 & H2). split; [by apply outcome_own|].
  by eapply outcome_follow.
Qed.

Lemma untouched_settle r w p st :
  p ≠ r → p ≠ S r → untouched r w → untouched r (settle p st w).
Proof.
  intros Hr Hg (H0 & H1 & H2). unfold untouched.
  rewrite !settle_other by done. split; [done|]. split; [done|].
  by apply settle_follow.
Qed.

Lemma untouched_app r w more :
  untouched r w →
  untouched r {| promises := promises w ++ more; procs := procs w;
                 trace := trace w |}.
Proof.
  intros (H0 & H1 & H2). unfold untouched. cbn [promises].
  by rewrite !(lookup_app_l_Some _ _ _ _ H0), !(lookup_app_l_Some _ _ _ _ H1),
    !(lookup_app_l_Some _ _ _ _ H2).
Qed.

Lemma untouched_ext r w w' :
  promises w' = promises w → untouched r w → untouched r w'.
Proof. unfold untouched. by intros ->. Qed.

Lemma resume_untouched r path s st a :
  apart r path s → outcome (world a) (awaited s) = st →
  untouched r (world a) →
  untouched r (world (CodeWindow_start_resume s st a)).
Proof.
  intros [->|[Hr Hg]] Ho Hu.
  - destruct (untouched_outcome r _ Hu) as [_ Hp].
    cbn [parked_call awaited] in Ho. rewrite Hp in Ho. by subst st.
  - destruct st; cbn [CodeWindow_start_resume world]; [done| |].
    + apply untouched_settle; [done|done|].
      eapply untouched_ext; [|exact Hu]. done.
    + apply untouched_settle; [done|done|].
      eapply untouched_ext; [|exact Hu]. done.
Qed.

(** The microtasks leave a call alone whose awaited promise is pending. *)
Lemma resume_all_waits r path ss : ∀ a,
  untouched r (world a) → Forall (apart r path) ss →
  Forall (apart r path) (suspended a) →
  untouched r (world (resume_all ss a))
  ∧ Forall (apart r path) (suspended (resume_all ss a))
  ∧ (parked_call r path ∈ ss ∨ parked_call r path ∈ suspended a →
     parked_call r path ∈ suspended (resume_all ss a)).
Proof.
  induction ss as [|s ss IH]; intros a Hu Hss Ha.
  - split; [exact Hu|]. split; [exact Ha|].
    intros [H|H]; [by apply elem_of_nil in H|exact H].
  - apply Forall_cons in Hss as [Hs Hss]. cbn [resume_all].
    destruct (outcome (world a) (awaited s)) eqn:E.
    + destruct (IH a Hu Hss Ha) as (Hu' & Ha' & Hin).
      cbn [world suspended]. split; [done|]. split; [by constructor|].
      intros [H|H].
      * apply elem_of_cons in H as [<-|H]; [by left|].
        right. apply Hin. by left.
      * right. apply Hin. by right.
    + assert (Hs0 : s ≠ parked_call r path).
      { intros ->. destruct (untouched_outcome r _ Hu) as [_ Hp].
        cbn [parked_call awaited] in E. congruence. }
      destruct (IH (CodeWindow_start_resume s Fulfilled a)) as (Hu' & Ha' & Hin);
        [by eapply resume_untouched|done|done|].
      split; [done|]. split; [done|]. intros [H|H].
      * apply elem_of_cons in H as [H|H]; [congruence|]. apply Hin. by left.
      * apply Hin. by right.
    + assert (Hs0 : s ≠ parked_call r path).
      { intros ->. destruct (untouched_outcome r _ Hu) as [_ Hp].
        cbn [parked_call awaited] in E. congruence. }
      destruct (IH (CodeWindow_start_resume s (Rejected e) a))
        as (Hu' & Ha' & Hin);
        [by eapply resume_untouched|done|done|].
      split; [done|]. split; [done|]. intros [H|H].
      * apply elem_of_cons in H as [H|H]; [congruence|]. apply Hin. by left.
      * apply Hin. by right.
Qed.

Lemma microtasks_waits r pid path (a : App) :
  waits_for_child r pid path a → waits_for_child r pid path (run_microtasks a).
Proof.
  intros (Hu & Hg & Hap & Hin). unfold run_microtasks.
  destruct (resume_all_waits r path (suspended a)
              {| world := world a; window := window a; suspended := [] |}
              Hu Hap (Forall_nil_2 _)) as (Hu' & Hap' & Hin').
  split; [done|]. split; [|split; [done|]].
  - intros q c. rewrite resume_all_procs. apply Hg.
  - apply Hin'. by left.
Qed.

Lemma child_emit_untouched r q ev w :
  (∀ c, procs w !! q = Some c → gate c ≠ r ∧ gate c ≠ S r) →
  untouched r w → untouched r (child_emit q ev w).
Proof.
  intros Hg Hu. unfold child_emit. destruct (procs w !! q) as [c|]; [|done].
  destruct (Hg c eq_refl) as [Hr Hs].
  destruct ev; cbn [emit_effect]; try done.
  - case_match; [|done]. apply untouched_settle; [done|done|].
    eapply untouched_ext; [|exact Hu]. done.
  - by apply untouched_settle.
Qed.

Lemma turn_waits r pid path (a : App) (act : Action) :
  is_from_child pid act = false →
  waits_for_child r pid path a → waits_for_child r pid path (turn a act).
Proof.
  intros Hact (Hu & Hg & Hap & Hin).
  assert (Hlen : (S (S r) < length (promises (world a)))%nat).
  { destruct Hu as (_ & _ & H2). by eapply lookup_lt_Some. }
  unfold waits_for_child. rewrite turn_suspended.
  destruct act as [h se path'| | | | |q ev| |event url]; cbn [turn world];
    rewrite ?app_nil_r.
  - split; [|split; [|split]].
    + unfold untouched. rewrite start_promises.
      destruct Hu as (H0 & H1 & H2).
      by rewrite !(lookup_app_l_Some _ _ _ _ H0),
        !(lookup_app_l_Some _ _ _ _ H1), !(lookup_app_l_Some _ _ _ _ H2).
    + intros q c Hc Hq.
      apply start_gates in Hc as [(c0 & Hc0 & <-)| ->]; [by eapply Hg|lia].
    + apply Forall_app. split; [done|]. constructor; [|constructor].
      right. cbn [parked_call result]. lia.
    + apply elem_of_app. by left.
  - split; [unfold untouched; by rewrite clear_promises|]. split; [|done].
    intros q c Hc Hq. apply clear_gates in Hc as (c0 & Hc0 & <-). by eapply Hg.
  - done.
  - unfold CodeWindow_dispose. cbn [world].
    split; [unfold untouched; by rewrite clear_promises|]. split; [|done].
    intros q c Hc Hq. apply clear_gates in Hc as (c0 & Hc0 & <-). by eapply Hg.
  - unfold CodeWindow_dispose. cbn [world].
    split; [unfold untouched; by rewrite clear_promises|]. split; [|done].
    intros q c Hc Hq. apply clear_gates in Hc as (c0 & Hc0 & <-). by eapply Hg.
  - cbn [is_from_child] in Hact. apply Nat.eqb_neq in Hact.
    split; [|split; [|done]].
    + apply child_emit_untouched; [|done]. intros c Hc. by eapply Hg.
    + intros q' c Hc Hq.
      apply child_emit_gates in Hc as (c0 & Hc0 & <-). by eapply Hg.
  - done.
  - done.
Qed.

Lemma run_waits r pid path acts : ∀ a,
  forallb (fun act => negb (is_from_child pid act)) acts = true →
  waits_for_child r pid path a → waits_for_child r pid path (run a acts).
Proof.
  induction acts as [|act acts IH]; intros a Hacts H; [done|].
  cbn [forallb] in Hacts. apply andb_prop in Hacts as [Hact Hacts].
  apply negb_true_iff in Hact.
  apply IH; [done|]. unfold step. by apply microtasks_waits, turn_waits.
Qed.

Lemma start_waits h path (a : App) :
  gate_bound a → result_bound a →
  waits_for_child (length (promises (world a))) (length (procs (world a)))
                  path (turn a (AStart h None path)).
Proof.
  intros Hb Hr. unfold waits_for_child. rewrite turn_suspended.
  cbn [turn]. split; [|split; [|split]].
  - unfold untouched. rewrite start_promises.
    set (n := length (promises (world a))).
    rewrite !lookup_app_r by lia. fold n.
    replace (n - n)%nat with 0%nat by lia.
    replace (S n - n)%nat with 1%nat by lia.
    by replace (S (S n) - n)%nat with 2%nat by lia.
  - intros q c Hc Hq. rewrite CodeWindow_start_eq in Hc.
    cbn [fst world procs] in Hc.
    apply lookup_app_Some in Hc as [Hc|[Hge Hc]].
    + apply clear_gates in Hc as (c0 & Hc0 & <-).
      specialize (Hb q c0 Hc0). lia.
    + rewrite clear_procs_length in Hge, Hc.
      cbn [world procs alloc snd] in Hge, Hc.
      apply list_lookup_singleton_Some in Hc as [Hc _]. lia.
  - apply Forall_app. split; [|constructor; [by left|constructor]].
    apply Forall_forall. intros s Hs. right. specialize (Hr s Hs). lia.
  - apply elem_of_app. right. by left.
Qed.

(** X12. A start completes only through its own child, and there is no
    timeout.  After a call of [CodeWindow.start] has forked, as long as the
    child it forked emits nothing, the call stays parked and its promise
    pending, whatever else happens to the window: [clear], [dispose], the
    window closing, further starts, events of the content, and messages or
    errors of the children of other starts. *)
Theorem start_waits_for_its_child (cfg : ElectronAppConfig.t) (bid : Z)
    (ws : option string) (md : option (list (string * Json)))
    (acts0 acts : list Action) (h : Host) (path : string) :
  let a0 := run (new_App cfg bid ws md) acts0 in
  let pid := length (procs (world a0)) in
  let r := snd (CodeWindow_start h None path a0) in
  let a := run a0 (AStart h None path :: acts) in
  forallb (fun act => negb (is_from_child pid act)) acts = true →
  outcome (world a) r = Pending
  ∧ parked_call r path ∈ suspended a.
Proof.
  intros a0 pid r a Hacts.
  assert (Hr : r = length (promises (world a0)))
    by (unfold r; by rewrite CodeWindow_start_eq).
  assert (Hb : gate_bound a0).
  { apply run_gate_bound. intros q c Hc. done. }
  assert (Hrb : result_bound a0).
  { apply run_result_bound. intros s Hs. by apply elem_of_nil in Hs. }
  assert (H : waits_for_child r pid path a).
  { subst a. cbn [run fold_left]. apply run_waits; [done|].
    unfold step. apply microtasks_waits. rewrite Hr. by apply start_waits. }
  destruct H as (Hu & _ & _ & Hin). split; [|done].
  by apply untouched_outcome.
Qed.

Lemma start_waits_for_its_child_witness :
  let h := {| process_env := ∅; isDevelopment := false |} in
  let cfg := {| ElectronAppConfig.browserNodeIntegrated := true;
                ElectronAppConfig.browserPreload := "preload.js";
                ElectronAppConfig.webviewPreload := "/webview.js";
                ElectronAppConfig.plainWebviewPreload := "/plain.js";
                ElectronAppConfig.extensionDir := "/ext";
                ElectronAppConfig.nodeEntry := "node.js";
                ElectronAppConfig.extensionEntry := "ext.js";
                ElectronAppConfig.browserUrl := "file:///index.html" |} in
  let acts0 := [AStart h None "/tmp/a.sock"] in
  let acts := [AChild 0 (Message (VStr "ready")); AClear;
               AStart h None "/tmp/c.sock";
               AChild 2 (Message (VStr "ready")); ADidFinishLoad] in
  let a0 := run (new_App cfg 1 None None) acts0 in
  let r := snd (CodeWindow_start h None "/tmp/b.sock" a0) in
  let a := run a0 (AStart h None "/tmp/b.sock" :: acts) in
  forallb (fun act => negb (is_from_child (length (procs (world a0))) act))
          acts = true
  ∧ outcome (world a) r = Pending
  ∧ parked_call r "/tmp/b.sock" ∈ suspended a.
Proof.
  intros h cfg acts0 acts a0 r a.
  assert (H : forallb (fun act =>
                negb (is_from_child (length (procs (world a0))) act))
                acts = true) by (by vm_compute).
  split; [exact H|].
  apply (start_waits_for_its_child cfg 1 None None acts0 acts h
           "/tmp/b.sock" H).
Defined.

(** ** No content without 'ready' *)

Lemma unready_call_app w w' more s :
  promises w' = promises w ++ more →
  unready_call w s → unready_call w' s.
Proof.
  intros Hw (Hk & Ha & Hf & st & Hst & Hne). unfold unready_call.
  rewrite Hw. split; [done|]. split; [done|].
  split; [by apply lookup_app_l_Some|].
  exists st. split; [by apply lookup_app_l_Some|done].
Qed.

Lemma unready_call_ext w w' s :
  promises w' = promises w → unready_call w s → unready_call w' s.
Proof. unfold unready_call. by intros ->. Qed.

(** Settling a result promise (the first of a triple) leaves the launchers
    of parked calls alone. *)
Lemma unready_call_settle_result w k st s :
  unready_call w s → unready_call (settle (3 * k) st w) s.
Proof.
  intros ([k' Hk] & Ha & Hf & st' & Hst & Hne). unfold unready_call.
  split; [by exists k'|]. split; [done|].
  split; [by apply settle_follow|].
  exists st'. split; [|done]. rewrite settle_other; [done|lia].
Qed.

(** A rejection leaves unfulfilled launchers unfulfilled. *)
Lemma unready_call_settle_rejected w p e s :
  unready_call w s → unready_call (settle p (Rejected e) w) s.
Proof.
  intros (Hk & Ha & Hf & st' & Hst & Hne). unfold unready_call.
  split; [done|]. split; [done|]. split; [by apply settle_follow|].
  destruct (decide (S (result s) = p)) as [<-|Hp].
  - eexists. split; [by apply settle_at|]. by destruct st'.
  - exists st'. split; [|done]. by rewrite settle_other.
Qed.

Lemma unready_call_outcome w s :
  unready_call w s → outcome w (awaited s) ≠ Fulfilled.
Proof.
  intros (Hk & Ha & Hf & st & Hst & Hne). rewrite Ha.
  by rewrite (outcome_follow _ _ _ _ Hf Hst).
Qed.

Lemma resume_all_unready ss : ∀ a,
  count is_load (world a) = 0%nat →
  Forall (unready_call (world a)) ss →
  Forall (unready_call (world a)) (suspended a) →
  count is_load (world (resume_all ss a)) = 0%nat
  ∧ Forall (unready_call (world (resume_all ss a)))
           (suspended (resume_all ss a)).
Proof.
  induction ss as [|s ss IH]; intros a Hl Hss Ha; [done|].
  apply Forall_cons in Hss as [Hs Hss]. cbn [resume_all].
  pose proof (unready_call_outcome _ _ Hs) as Hne.
  destruct (outcome (world a) (awaited s)) eqn:E; [|done|].
  - destruct (IH a Hl Hss Ha) as [Hl' Ha']. cbn [world suspended].
    split; [done|]. constructor; [|done].
    (* the promises of [s] are as the later continuations left them *)
    clear IH Hl' Ha' Hne E Hl Ha. revert a Hs Hss.
    induction ss as [|s' ss IH']; intros a Hs Hss; [done|].
    apply Forall_cons in Hss as [Hs' Hss]. cbn [resume_all].
    pose proof (unready_call_outcome _ _ Hs') as Hne.
    destruct (outcome (world a) (awaited s')) eqn:E'; [|done|].
    + cbn [world]. by apply IH'.
    + destruct Hs' as ([k Hk] & Hrest).
      apply IH'.
      * cbn [CodeWindow_start_resume world]. rewrite Hk.
        apply unready_call_settle_result.
        eapply unready_call_ext; [|exact Hs]. done.
      * eapply Forall_impl; [exact Hss|]. intros s0 Hs0.
        cbn [CodeWindow_start_resume world]. rewrite Hk.
        apply unready_call_settle_result.
        eapply unready_call_ext; [|exact Hs0]. done.
  - destruct Hs as ([k Hk] & Hrest).
    assert (Hkeep : ∀ s0, unready_call (world a) s0 →
                          unready_call
                            (world (CodeWindow_start_resume s (Rejected e) a)) s0).
    { intros s0 Hs0. cbn [CodeWindow_start_resume world]. rewrite Hk.
      apply unready_call_settle_result.
      eapply unready_call_ext; [|exact Hs0]. done. }
    apply IH.
    + unfold count in *. cbn [CodeWindow_start_resume world].
      rewrite settle_trace. cbn [emit_effect trace].
      rewrite List.filter_app, length_app. cbn. lia.
    + eapply Forall_impl; [exact Hss|]. exact Hkeep.
    + eapply Forall_impl; [exact Ha|]. exact Hkeep.
Qed.

Lemma count_ready_microtasks (a : App) :
  count is_ready_log (world (run_microtasks a)) = count is_ready_log (world a).
Proof. apply count_microtasks. by intros []. Qed.

Lemma child_emit_unready q ev w s :
  List.filter is_ready_log
    (match procs w !! q with Some _ => child_logs ev | None => [] end) = [] →
  unready_call w s → unready_call (child_emit q ev w) s.
Proof.
  intros Hlog Hs. unfold child_emit.
  destruct (procs w !! q) as [c|]; [|done].
  destruct ev as [m|e|d|d|]; cbn [emit_effect].
  - cbn [child_logs List.filter is_ready_log] in Hlog.
    destruct (strict_eq m (VStr "ready")); [done|].
    eapply unready_call_ext; [|exact Hs]. done.
  - by apply unready_call_settle_rejected.
  - eapply unready_call_ext; [|exact Hs]. done.
  - eapply unready_call_ext; [|exact Hs]. done.
  - eapply unready_call_ext; [|exact Hs]. done.
Qed.

Lemma step_no_ready_inv (a : App) (act : Action) :
  no_ready_inv a → no_ready_inv (step a act).
Proof.
  intros Ha Hno. unfold step in *.
  rewrite count_ready_microtasks, count_turn in Hno.
  destruct (Ha ltac:(lia)) as ([n Hn] & Hl & Hs).
  assert (Hfx : List.filter is_ready_log (turn_effects a act) = []).
  { apply length_zero_iff_nil. lia. }
  assert (Hturn : (∃ n', length (promises (world (turn a act))) = 3 * n')%nat
                  ∧ count is_load (world (turn a act)) = 0%nat
                  ∧ Forall (unready_call (world (turn a act)))
                           (suspended (turn a act))).
  { split; [|split].
    - destruct act as [h se path| | | | |q ev| |event url]; cbn [turn world];
        try (by exists n).
      + exists (S n). rewrite start_promises, length_app. cbn. lia.
      + exists n. by rewrite clear_promises.
      + exists n. unfold CodeWindow_dispose. cbn [world].
        by rewrite clear_promises.
      + exists n. unfold CodeWindow_dispose. cbn [world].
        by rewrite clear_promises.
      + exists n. by rewrite child_emit_length.
    - rewrite count_turn. destruct (turn_effects_no_load a act) as [-> _].
      cbn. lia.
    - rewrite turn_suspended.
      destruct act as [h se path| | | | |q ev| |event url]; cbn [turn world];
        rewrite ?app_nil_r.
      + apply Forall_app. split.
        * eapply Forall_impl; [exact Hs|]. intros s Hs0.
          eapply unready_call_app; [apply start_promises|done].
        * constructor; [|constructor]. unfold unready_call.
          cbn [parked_call result awaited]. rewrite start_promises.
          split; [by exists n|]. split; [done|].
          set (m := length (promises (world a))).
          rewrite !lookup_app_r by lia. fold m.
          replace (S m - m)%nat with 1%nat by lia.
          replace (S (S m) - m)%nat with 2%nat by lia.
          split; [done|]. eexists. split; [done|]. by destruct se.
      + eapply Forall_impl; [exact Hs|]. intros s Hs0.
        eapply unready_call_ext; [apply clear_promises|done].
      + done.
      + eapply Forall_impl; [exact Hs|]. intros s Hs0.
        unfold CodeWindow_dispose. cbn [world].
        eapply unready_call_ext; [apply clear_promises|done].
      + eapply Forall_impl; [exact Hs|]. intros s Hs0.
        unfold CodeWindow_dispose. cbn [world].
        eapply unready_call_ext; [apply clear_promises|done].
      + eapply Forall_impl; [exact Hs|]. intros s Hs0.
        by apply child_emit_unready.
      + done.
      + done. }
  destruct Hturn as ([n' Hn'] & Hl' & Hs').
  unfold run_microtasks.
  destruct (resume_all_unready (suspended (turn a act))
              {| world := world (turn a act); window := window (turn a act);
                 suspended := [] |} Hl' Hs' (Forall_nil_2 _)) as [Hl'' Hs''].
  split; [|split; [done|done]].
  exists n'. by rewrite resume_all_length.
Qed.

Lemma run_no_ready_inv acts : ∀ a, no_ready_inv a → no_ready_inv (run a acts).
Proof.
  induction acts as [|act acts IH]; intros a H; [done|].
  apply IH. by apply step_no_ready_inv.
Qed.

(** X13. No content without 'ready'.  As long as no child of the window has
    sent the message 'ready', the window has loaded no url and has not been
    shown, whatever else happened: failed forks, 'error' events, other
    messages, output, [clear] and restarts.  Every loaded content therefore
    follows a 'ready'. *)
Theorem no_load_without_ready (cfg : ElectronAppConfig.t) (bid : Z)
    (ws : option string) (md : option (list (string * Json)))
    (acts : list Action) :
  let a := run (new_App cfg bid ws md) acts in
  count is_ready_log (world a) = 0%nat →
  count is_load (world a) = 0%nat ∧ count is_show (world a) = 0%nat.
Proof.
  intros a Hno.
  assert (Hinv : no_ready_inv (new_App cfg bid ws md)).
  { intros _. split; [by exists 0%nat|]. split; [done|constructor]. }
  destruct (run_no_ready_inv acts _ Hinv Hno) as (_ & Hl & _).
  destruct (run_listeners_inv acts _ (new_App_listeners_inv cfg bid ws md))
    as (_ & _ & Hs & _).
  fold a in Hs, Hl. split; [done|lia].
Qed.

Lemma no_load_without_ready_witness :
  let h := {| process_env := ∅; isDevelopment := false |} in
  let cfg := {| ElectronAppConfig.browserNodeIntegrated := true;
                ElectronAppConfig.browserPreload := "preload.js";
                ElectronAppConfig.webviewPreload := "/webview.js";
                ElectronAppConfig.plainWebviewPreload := "/plain.js";
                ElectronAppConfig.extensionDir := "/ext";
                ElectronAppConfig.nodeEntry := "node.js";
                ElectronAppConfig.extensionEntry := "ext.js";
                ElectronAppConfig.browserUrl := "file:///index.html" |} in
  let acts := [AStart h None "/tmp/a.sock";
               AChild 0 (Message (VStr "starting"));
               AChild 0 (StdoutData "ready");
               AStart h (Some (VObj 9)) "/tmp/b.sock";
               AChild 0 (Error (VObj 1)); ADidFinishLoad] in
  let a := run (new_App cfg 1 None None) acts in
  count is_ready_log (world a) = 0%nat
  ∧ count is_load (world a) = 0%nat ∧ count is_show (world a) = 0%nat.
Proof.
  intros h cfg acts a.
  assert (H : count is_ready_log (world a) = 0%nat) by by vm_compute.
  split; [exact H|].
  exact (no_load_without_ready cfg 1 None None acts H).
Defined.

(** ** Calling [clear] and [dispose] again *)

(** X14. [clear] guards its kill and [KTNodeProcess.dispose] does not.  A
    second [clear] right after a first changes nothing, so the process is
    not signalled twice; [dispose] of a launcher that holds a process calls
    [kill] on it every time it is called, and on a launcher that never
    forked it does nothing. *)
Theorem clear_guards_dispose_does_not (a : App) (nd : KTNodeProcess)
    (pid : nat) (w : World) :
  _process nd = Some pid →
  CodeWindow_clear (CodeWindow_clear a) = CodeWindow_clear a
  ∧ trace (KTNodeProcess_dispose nd (KTNodeProcess_dispose nd w))
    = trace w ++ [EKill pid; EKill pid]
  ∧ ∀ fp entry, KTNodeProcess_dispose (new_KTNodeProcess fp entry) w = w.
Proof.
  intros Hp. split; [|split; [|done]].
  - pose proof (clear_node a) as Hn.
    unfold CodeWindow_clear at 1. by rewrite Hn.
  - unfold KTNodeProcess_dispose, kill. rewrite Hp. cbn [emit_effect trace].
    by rewrite <- app_assoc.
Qed.

Lemma clear_guards_dispose_does_not_witness :
  let h := {| process_env := ∅; isDevelopment := false |} in
  let r := KTNodeProcess_start h None "/tmp/a.sock" None
             (new_KTNodeProcess "node.js" "ext.js") empty_world in
  let nd := fst (fst r) in
  let w := snd (fst r) in
  _process nd = Some 0%nat
  ∧ kills 0 (KTNodeProcess_dispose nd (KTNodeProcess_dispose nd w)) = 2%nat.
Proof.
  intros h r nd w.
  assert (H : _process nd = Some 0%nat) by reflexivity.
  split; [exact H|].
  destruct (clear_guards_dispose_does_not
              {| world := w; window := new_CodeWindow
                   {| ElectronAppConfig.browserNodeIntegrated := true;
                      ElectronAppConfig.browserPreload := "preload.js";
                      ElectronAppConfig.webviewPreload := "/webview.js";
                      ElectronAppConfig.plainWebviewPreload := "/plain.js";
                      ElectronAppConfig.extensionDir := "/ext";
                      ElectronAppConfig.nodeEntry := "node.js";
                      ElectronAppConfig.extensionEntry := "ext.js";
                      ElectronAppConfig.browserUrl := "file:///index.html" |}
                   1 None None;
                 suspended := [] |} nd 0 w H) as (_ & Ht & _).
  unfold kills, count. rewrite Ht. by vm_compute.
Defined.

(** ** What reaches the content *)

Lemma forked_with_app path t fx : forked_with path t → forked_with path (t ++ fx).
Proof.
  intros (pid & m & o & H). exists pid, m, o. apply elem_of_app. by left.
Qed.

Lemma content_effect_ok_app cfg t fx e :
  content_effect_ok cfg t e → content_effect_ok cfg (t ++ fx) e.
Proof.
  destruct e; cbn [content_effect_ok]; try done.
  intros [Hc Hf]. split; [done|]. by apply forked_with_app.
Qed.

Lemma grows_refl w : grows w w.
Proof. split; [apply keeps_refl|]. exists []. by rewrite app_nil_r. Qed.

Lemma grows_trans w1 w2 w3 : grows w1 w2 → grows w2 w3 → grows w1 w3.
Proof.
  intros [Hk1 [f1 H1]] [Hk2 [f2 H2]]. split; [by eapply keeps_trans|].
  exists (f1 ++ f2). by rewrite H2, H1, app_assoc.
Qed.

Lemma launch_ok_grows w w' s : grows w w' → launch_ok w s → launch_ok w' s.
Proof.
  intros [Hk [fx Hfx]] [Hf|[e He]].
  - left. rewrite Hfx. by apply forked_with_app.
  - right. exists e. rewrite <- He. apply outcome_keeps; [done|].
    by rewrite He.
Qed.

Lemma resume_grows s st a :
  grows (world a) (world (CodeWindow_start_resume s st a)).
Proof.
  split; [apply resume_keeps|].
  destruct (resume_trace s st a) as (fx & H & _). by exists fx.
Qed.

Lemma turn_grows (a : App) (act : Action) : grows (world a) (world (turn a act)).
Proof. split; [apply turn_keeps|]. eexists. apply turn_trace. Qed.

Lemma pushes_inv_grows_parts cfg (a : App) (w' : World) :
  grows (world a) w' →
  pushes_inv cfg a →
  Forall (content_effect_ok cfg (trace w')) (trace (world a))
  ∧ Forall (fun p => forked_with p (trace w'))
           (did_finish_load (browser (window a)))
  ∧ Forall (launch_ok w') (suspended a).
Proof.
  intros Hg (Ht & Hd & Hs). pose proof Hg as [Hk [fx Hfx]].
  split; [|split].
  - eapply Forall_impl; [exact Ht|]. intros e He. rewrite Hfx.
    by apply content_effect_ok_app.
  - eapply Forall_impl; [exact Hd|]. intros p Hp. rewrite Hfx.
    by apply forked_with_app.
  - eapply Forall_impl; [exact Hs|]. intros s Hs0. by eapply launch_ok_grows.
Qed.

Lemma resume_pushes_inv cfg s (a : App) :
  appConfig (window a) = cfg →
  launch_ok (world a) s →
  pushes_inv cfg a →
  pushes_inv cfg (CodeWindow_start_resume s (outcome (world a) (awaited s)) a).
Proof.
  intros Hcfg Hs Ha.
  destruct (pushes_inv_grows_parts cfg a _
              (resume_grows s (outcome (world a) (awaited s)) a) Ha)
    as (Ht & Hd & Hsu).
  destruct (outcome (world a) (awaited s)) eqn:E; [done| |].
  - destruct Hs as [Hf|[e He]]; [|congruence].
    unfold pushes_inv.
    cbn [CodeWindow_start_resume world window suspended] in *.
    rewrite settle_trace in *. cbn [emit_effect trace] in *.
    rewrite <- !app_assoc in *.
    split; [|split; [|done]].
    + apply Forall_app. split; [done|].
      repeat constructor. cbn [content_effect_ok]. by rewrite Hcfg.
    + cbn [CodeWindow_bindEvents set_browser browser did_finish_load].
      apply Forall_app. split; [done|]. constructor; [|constructor].
      by apply forked_with_app.
  - unfold pushes_inv.
    cbn [CodeWindow_start_resume world window suspended] in *.
    rewrite settle_trace in *. cbn [emit_effect trace] in *.
    split; [|split; [done|done]].
    apply Forall_app. split; [done|]. by repeat constructor.
Qed.

Lemma resume_all_pushes_inv cfg ss : ∀ a,
  appConfig (window a) = cfg →
  Forall (launch_ok (world a)) ss →
  pushes_inv cfg a →
  pushes_inv cfg (resume_all ss a).
Proof.
  induction ss as [|s ss IH]; intros a Hcfg Hss Ha; [done|].
  apply Forall_cons in Hss as [Hs Hss]. cbn [resume_all].
  destruct (outcome (world a) (awaited s)) eqn:E.
  - destruct (IH a Hcfg Hss Ha) as (Ht & Hd & Hsu).
    split; [done|]. split; [done|]. cbn [suspended world].
    constructor; [|done].
    eapply launch_ok_grows; [|exact Hs].
    split; [apply resume_all_keeps|].
    destruct (resume_all_trace ss a) as (fx & H & _). by exists fx.
  - pose proof (resume_pushes_inv cfg s a Hcfg Hs Ha) as H. rewrite E in H.
    apply IH; [by rewrite <- Hcfg| |done].
    eapply Forall_impl; [exact Hss|]. intros s0 Hs0.
    eapply launch_ok_grows; [apply resume_grows|done].
  - pose proof (resume_pushes_inv cfg s a Hcfg Hs Ha) as H. rewrite E in H.
    apply IH; [by rewrite <- Hcfg| |done].
    eapply Forall_impl; [exact Hss|]. intros s0 Hs0.
    eapply launch_ok_grows; [apply resume_grows|done].
Qed.

Lemma turn_pushes_inv cfg (a : App) (act : Action) :
  pushes_inv cfg a → pushes_inv cfg (turn a act).
Proof.
  intros Ha.
  destruct (pushes_inv_grows_parts cfg a _ (turn_grows a act) Ha)
    as (Ht & Hd & Hsu).
  unfold pushes_inv. rewrite turn_browser, turn_suspended.
  split; [|split; [done|]].
  - rewrite turn_trace at 2. apply Forall_app. split; [done|].
    destruct act as [h se path| | | | |q ev| |event url]; cbn [turn_effects].
    + apply Forall_app. split; [destruct (owner a); by repeat constructor|].
      destruct se; by repeat constructor.
    + destruct (owner a); by repeat constructor.
    + by repeat constructor.
    + destruct (owner a); by repeat constructor.
    + destruct (owner a); by repeat constructor.
    + destruct (procs (world a) !! q); [|constructor].
      destruct ev; by repeat constructor.
    + unfold emit_did_finish_load. apply Forall_map.
      eapply Forall_impl; [exact Hd|]. intros p Hp. by split.
    + pose proof (emit_new_window_kinds (new_window (browser (window a)))
                    url event) as Hk.
      induction (snd (emit_new_window _ event url)) as [|e l IH];
        [constructor|].
      cbn [forallb] in Hk. apply andb_prop in Hk as [He Hl].
      constructor; [by destruct e|by apply IH].
  - apply Forall_app. split; [done|].
    destruct act as [h se path| | | | |q ev| |event url]; try constructor;
      [|constructor].
    destruct se as [e|].
    + right. exists e. cbn [turn]. rewrite CodeWindow_start_eq.
      cbn [fst world parked_call awaited].
      rewrite clear_promises. cbn [world alloc snd promises].
      eapply outcome_follow; cbn [promises].
      * rewrite length_app. cbn [length].
        replace (S (S (length (promises (world a)))))
          with (length ((promises (world a) ++ [Own Pending])
                          ++ [Own (Rejected e)]))
          by (rewrite !length_app; cbn; lia).
        apply lookup_snoc_last.
      * apply lookup_snoc_some.
        replace (length (promises (world a)) + 1)%nat
          with (length (promises (world a) ++ [Own Pending]))
          by (rewrite length_app; cbn; lia).
        apply lookup_snoc_last.
    + left. rewrite turn_trace. cbn [turn_effects parked_call listenPath].
      eexists _, _, _. apply elem_of_app. right. apply elem_of_app. right.
      by left.
Qed.

Lemma run_pushes_inv cfg acts : ∀ a,
  appConfig (window a) = cfg → pushes_inv cfg a → pushes_inv cfg (run a acts).
Proof.
  induction acts as [|act acts IH]; intros a Hcfg Ha; [done|].
  cbn [run fold_left]. fold (run (step a act) acts).
  pose proof (run_static [act] a) as Hst. cbn [run fold_left] in Hst.
  unfold static in Hst. injection Hst as Hc' _ _.
  apply IH; [congruence|]. unfold step, run_microtasks.
  pose proof (turn_pushes_inv cfg a act Ha) as (Ht & Hd & Hs).
  pose proof (turn_static a act) as Hts. unfold static in Hts.
  injection Hts as Hc'' _ _.
  apply resume_all_pushes_inv; [cbn [window]; congruence|done|].
  split; [done|]. split; [done|constructor].
Qed.

(** X15. The content is only ever given what is real.  Every url a window
    loads is the configured browser url, and every message it sends to its
    content goes over 'preload:listenPath' and carries a listen path that an
    extension host was forked with ([--listenPath] of some fork of this
    window): a start whose fork threw never gets its path pushed. *)
Theorem content_gets_forked_paths (cfg : ElectronAppConfig.t) (bid : Z)
    (ws : option string) (md : option (list (string * Json)))
    (acts : list Action) :
  let a := run (new_App cfg bid ws md) acts in
  Forall (content_effect_ok cfg (trace (world a))) (trace (world a)).
Proof.
  intros a.
  assert (H : pushes_inv cfg a).
  { apply run_pushes_inv; [done|]. by repeat split. }
  apply H.
Qed.

(** ** A start completes when its child decides *)

Lemma decided_settle r st w p st' :
  p ≠ r → p ≠ S r → decided r st w → decided r st (settle p st' w).
Proof.
  intros Hr Hg (H0 & H1 & H2). unfold decided.
  rewrite !settle_other by done. split; [done|]. split; [done|].
  by apply settle_follow.
Qed.

Lemma resume_all_decided r path st ss : ∀ a,
  st ≠ Pending →
  Forall (apart r path) ss →
  parked_call r path ∈ ss →
  decided r st (world a) →
  outcome (world (resume_all ss a)) r = Fulfilled.
Proof.
  induction ss as [|s ss IH]; intros a Hst Hss Hin Hd;
    [by apply elem_of_nil in Hin|].
  apply Forall_cons in Hss as [Hs Hss].
  destruct Hd as (H0 & H1 & H2).
  assert (Hp : outcome (world a) (awaited (parked_call r path)) = st)
    by (by eapply outcome_follow).
  destruct Hs as [->|[Hr Hg]].
  - cbn [resume_all]. rewrite Hp.
    assert (Hf : outcome (world (CodeWindow_start_resume
                                   (parked_call r path) st a)) r = Fulfilled).
    { apply outcome_own.
      destruct st as [| |e]; [done| |];
        cbn [CodeWindow_start_resume world parked_call result].
      - match goal with
        | |- promises (settle _ _ ?w) !! _ = _ =>
            apply (settle_at r Fulfilled w Pending)
        end. exact H0.
      - apply (settle_at r Fulfilled (emit_effect _ (world a)) Pending).
        exact H0. }
    destruct st as [| |e]; [done| |].
    + etrans; [|exact Hf].
      apply outcome_keeps; [apply resume_all_keeps|by rewrite Hf].
    + etrans; [|exact Hf].
      apply outcome_keeps; [apply resume_all_keeps|by rewrite Hf].
  - apply elem_of_cons in Hin as [Hin|Hin];
      [subst s; by cbn [parked_call result] in Hr|].
    cbn [resume_all].
    destruct (outcome (world a) (awaited s)) eqn:E.
    + cbn [world]. by apply IH.
    + apply IH; try done. cbn [CodeWindow_start_resume world].
      apply decided_settle; done.
    + apply IH; try done. cbn [CodeWindow_start_resume world].
      apply decided_settle; done.
Qed.

Lemma child_gate_turn r pid (a : App) (act : Action) :
  (∃ c, procs (world a) !! pid = Some c ∧ gate c = S r) →
  ∃ c, procs (world (turn a act)) !! pid = Some c ∧ gate c = S r.
Proof.
  intros (c & Hc & Hg).
  assert (Hclear : ∀ b, (∃ c, procs (world b) !! pid = Some c ∧ gate c = S r) →
                        ∃ c, procs (world (CodeWindow_clear b)) !! pid = Some c
                             ∧ gate c = S r).
  { intros b (c0 & Hc0 & Hg0).
    unfold CodeWindow_clear, KTNodeProcess_dispose, kill.
    destruct (node (window b)) as [nd|]; [|eauto].
    destruct (_process nd) as [q|]; eauto. }
  destruct act as [h se path| | | | |q ev| |event url]; cbn [turn world].
  - rewrite CodeWindow_start_eq. cbn [fst world procs].
    destruct (Hclear {| world := snd (alloc (Own Pending) (world a));
                        window := window a; suspended := suspended a |})
      as (c1 & Hc1 & Hg1); [eauto|].
    exists c1. split; [by apply lookup_app_l_Some|done].
  - apply Hclear. eauto.
  - eauto.
  - unfold CodeWindow_dispose. cbn [world]. apply Hclear. eauto.
  - unfold CodeWindow_dispose. cbn [world]. apply Hclear. eauto.
  - unfold child_emit. destruct (procs (world a) !! q) as [cq|] eqn:Eq;
      [|eauto].
    destruct ev; cbn [emit_effect procs]; rewrite ?settle_procs; eauto.
    + case_match; rewrite ?settle_procs; eauto.
    + destruct (decide (q = pid)) as [->|Hq].
      * rewrite list_lookup_alter_eq, Hc. cbn. eauto.
      * rewrite list_lookup_alter_ne by done. eauto.
  - eauto.
  - eauto.
Qed.

Lemma child_gate_run r pid acts : ∀ a,
  (∃ c, procs (world a) !! pid = Some c ∧ gate c = S r) →
  ∃ c, procs (world (run a acts)) !! pid = Some c ∧ gate c = S r.
Proof.
  induction acts as [|act acts IH]; intros a H; [done|].
  apply IH. unfold step. rewrite microtasks_procs. by apply child_gate_turn.
Qed.

(** X16. A start completes as soon as its child decides.  When the child a
    call of [CodeWindow.start] forked sends 'ready' or raises an 'error',
    the call resumes in the same turn and its promise is fulfilled, in both
    cases: the caller cannot tell a failed launch from a successful one.
    This holds whatever happened to the window between the fork and that
    event, as long as it did not come from this child. *)
Theorem start_completes_when_child_decides (cfg : ElectronAppConfig.t)
    (bid : Z) (ws : option string) (md : option (list (string * Json)))
    (acts0 acts : list Action) (h : Host) (path : string) (ev : ChildEvent) :
  let a0 := run (new_App cfg bid ws md) acts0 in
  let pid := length (procs (world a0)) in
  let r := snd (CodeWindow_start h None path a0) in
  let a := run a0 (AStart h None path :: acts ++ [AChild pid ev]) in
  forallb (fun act => negb (is_from_child pid act)) acts = true →
  decisive ev ≠ Pending →
  outcome (world a) r = Fulfilled.
Proof.
  intros a0 pid r a Hacts Hev.
  assert (Hr : r = length (promises (world a0)))
    by (unfold r; by rewrite CodeWindow_start_eq).
  assert (Hb : gate_bound a0).
  { apply run_gate_bound. intros q c Hc. done. }
  assert (Hrb : result_bound a0).
  { apply run_result_bound. intros s Hs. by apply elem_of_nil in Hs. }
  set (a1 := step a0 (AStart h None path)).
  assert (H1 : waits_for_child r pid path a1).
  { unfold a1, step. apply microtasks_waits. rewrite Hr. by apply start_waits. }
  assert (G1 : ∃ c, procs (world a1) !! pid = Some c ∧ gate c = S r).
  { unfold a1, step. rewrite microtasks_procs. cbn [turn].
    rewrite CodeWindow_start_eq. cbn [fst world procs].
    eexists. split.
    - rewrite lookup_app_r
        by (rewrite clear_procs_length; cbn [world alloc snd procs];
            unfold pid; lia).
      rewrite clear_procs_length. cbn [world alloc snd procs].
      unfold pid. rewrite Nat.sub_diag. reflexivity.
    - cbn [gate]. rewrite clear_promises. cbn [world alloc snd promises].
      rewrite length_app, Hr. cbn. lia. }
  set (a2 := run a1 acts).
  assert (H2 : waits_for_child r pid path a2) by by apply run_waits.
  assert (G2 : ∃ c, procs (world a2) !! pid = Some c ∧ gate c = S r)
    by by apply child_gate_run.
  assert (Ha : a = step a2 (AChild pid ev)).
  { unfold a, a2, a1. cbn [run fold_left]. by rewrite fold_left_app. }
  rewrite Ha. unfold step, run_microtasks.
  destruct H2 as ((H0 & Hg & Hf) & _ & Hap & Hin).
  destruct G2 as (c & Hc & Hgc).
  apply (resume_all_decided r path (decisive ev)); [done| | |].
  - by rewrite turn_suspended, app_nil_r.
  - by rewrite turn_suspended, app_nil_r.
  - cbn [world turn]. unfold child_emit. rewrite Hc, Hgc.
    destruct ev as [m|e|d|d|]; cbn [decisive] in *; try done.
    + destruct (strict_eq m (VStr "ready")); [|done].
      split; [|split].
      * rewrite settle_other by lia. exact H0.
      * apply (settle_at (S r) Fulfilled (emit_effect _ (world a2)) Pending).
        exact Hg.
      * apply settle_follow. exact Hf.
    + split; [|split].
      * rewrite settle_other by lia. exact H0.
      * apply (settle_at (S r) (Rejected e) (world a2) Pending). exact Hg.
      * apply settle_follow. exact Hf.
Qed.

Lemma start_completes_when_child_decides_witness :
  let h := {| process_env := ∅; isDevelopment := false |} in
  let cfg := {| ElectronAppConfig.browserNodeIntegrated := true;
                ElectronAppConfig.browserPreload := "preload.js";
                ElectronAppConfig.webviewPreload := "/webview.js";
                ElectronAppConfig.plainWebviewPreload := "/plain.js";
                ElectronAppConfig.extensionDir := "/ext";
                ElectronAppConfig.nodeEntry := "node.js";
                ElectronAppConfig.extensionEntry := "ext.js";
                ElectronAppConfig.browserUrl := "file:///index.html" |} in
  let acts0 := [AStart h None "/tmp/a.sock"] in
  let acts := [AChild 0 (Message (VStr "ready")); ADidFinishLoad] in
  let ev := Error (VObj 6) in
  let a0 := run (new_App cfg 1 None None) acts0 in
  let pid := length (procs (world a0)) in
  let r := snd (CodeWindow_start h None "/tmp/b.sock" a0) in
  let a := run a0 (AStart h None "/tmp/b.sock" :: acts ++ [AChild pid ev]) in
  forallb (fun act => negb (is_from_child pid act)) acts = true
  ∧ decisive ev ≠ Pending
  ∧ outcome (world a) r = Fulfilled.
Proof.
  intros h cfg acts0 acts ev a0 pid r a.
  assert (H1 : forallb (fun act => negb (is_from_child pid act)) acts = true)
    by (by vm_compute).
  assert (H2 : decisive ev ≠ Pending) by discriminate.
  split; [exact H1|]. split; [exact H2|].
  apply (start_completes_when_child_decides cfg 1 None None acts0 acts h
           "/tmp/b.sock" ev H1 H2).
Defined.

(** ** Closing the window *)



(** ** Parked starts between two turns *)

Lemma decided_apart r1 st1 r2 st2 w :
  decided r1 st1 w → decided r2 st2 w → r1 ≠ S r2.
Proof. intros (_ & H1 & _) (_ & _ & H2) ->. congruence. Qed.

Lemma decided_app r st w w' more :
  promises w' = promises w ++ more → decided r st w → decided r st w'.
Proof.
  intros Hw (H0 & H1 & H2). unfold decided. rewrite Hw.
  by rewrite !(lookup_app_l_Some _ _ _ _ H0), !(lookup_app_l_Some _ _ _ _ H1),
    !(lookup_app_l_Some _ _ _ _ H2).
Qed.

Lemma decided_ext r st w w' :
  promises w' = promises w → decided r st w → decided r st w'.
Proof. unfold decided. by intros ->. Qed.

Lemma decided_outcome r st w :
  decided r st w → outcome w r = Pending ∧ outcome w (S (S r)) = st.
Proof.
  intros (H0 & H1 & H2). split; [by apply outcome_own|].
  by eapply outcome_follow.
Qed.

(** A call that resumes leaves the promises of every other call alone. *)
Lemma resume_decided r st s st' a :
  result s ≠ r → (∃ st0, decided (result s) st0 (world a)) →
  decided r st (world a) →
  decided r st (world (CodeWindow_start_resume s st' a)).
Proof.
  intros Hne [st0 Hs] Hr.
  assert (Hs' : result s ≠ S r) by by eapply decided_apart.
  destruct st'; cbn [CodeWindow_start_resume world]; [done| |];
    apply decided_settle; try done; by eapply decided_ext; [|exact Hr].
Qed.

(** The microtasks of a turn: calls whose launcher has settled resume and
    leave, the others stay as they are. *)
Lemma resume_all_calm ss : ∀ a,
  Forall (settling_call (world a)) ss → NoDup (result <$> ss) →
  (∀ r st, r ∉ (result <$> ss) → decided r st (world a) →
           decided r st (world (resume_all ss a)))
  ∧ ∃ kept, suspended (resume_all ss a) = kept ++ suspended a
            ∧ sublist kept ss
            ∧ Forall (calm_call (world (resume_all ss a))) kept.
Proof.
  induction ss as [|s ss IH]; intros a Hss Hnd.
  { split; [done|]. exists []. split; [done|]. split; constructor. }
  apply Forall_cons in Hss as [[Haw [st0 Hs]] Hss].
  cbn [fmap list_fmap] in Hnd. apply NoDup_cons in Hnd as [Hnin Hnd].
  assert (Ho : outcome (world a) (awaited s) = st0)
    by (rewrite Haw; by apply decided_outcome).
  assert (Hrest : ∀ st', Forall (settling_call
                           (world (CodeWindow_start_resume s st' a))) ss).
  { intros st'. apply Forall_forall. intros s' Hs'.
    rewrite Forall_forall in Hss. destruct (Hss s' Hs') as [Haw' [st1 Hd']].
    split; [done|]. exists st1. apply resume_decided; [|by eauto|done].
    intros Heq. apply Hnin. rewrite Heq. by apply list_elem_of_fmap_2. }
  cbn [resume_all]. rewrite Ho. destruct st0 as [| |e].
  - destruct (IH a Hss Hnd) as [IH1 (kept & Hk & Hsub & Hc)].
    cbn [world suspended]. split.
    + intros r st Hr. apply IH1. cbn [fmap list_fmap] in Hr.
      by apply not_elem_of_cons in Hr as [_ Hr].
    + exists (s :: kept). split; [by rewrite Hk|].
      split; [by apply sublist_skip|]. constructor; [|done].
      split; [done|]. by apply IH1.
  - destruct (IH _ (Hrest Fulfilled) Hnd) as [IH1 (kept & Hk & Hsub & Hc)].
    split.
    + intros r st Hr Hd. cbn [fmap list_fmap] in Hr.
      apply not_elem_of_cons in Hr as [Hr1 Hr2].
      apply IH1; [done|]. apply resume_decided; [congruence|by eauto|done].
    + exists kept. split; [exact Hk|]. split; [by apply sublist_cons|done].
  - destruct (IH _ (Hrest (Rejected e)) Hnd)
      as [IH1 (kept & Hk & Hsub & Hc)].
    split.
    + intros r st Hr Hd. cbn [fmap list_fmap] in Hr.
      apply not_elem_of_cons in Hr as [Hr1 Hr2].
      apply IH1; [done|]. apply resume_decided; [congruence|by eauto|done].
    + exists kept. split; [exact Hk|]. split; [by apply sublist_cons|done].
Qed.

Lemma start_decided h se path (a : App) :
  decided (length (promises (world a)))
          match se with Some e => Rejected e | None => Pending end
          (world (turn a (AStart h se path))).
Proof.
  unfold decided. cbn [turn]. rewrite start_promises.
  set (n := length (promises (world a))).
  rewrite !lookup_app_r by lia. fold n.
  replace (n - n)%nat with 0%nat by lia.
  replace (S n - n)%nat with 1%nat by lia.
  by replace (S (S n) - n)%nat with 2%nat by lia.
Qed.

Lemma child_emit_settling q ev w s :
  (∀ c, procs w !! q = Some c → gate c ≠ result s) →
  calm_call w s → settling_call (child_emit q ev w) s.
Proof.
  intros Hg [Haw Hu]. split; [done|]. unfold child_emit.
  destruct (procs w !! q) as [c|]; [|by exists Pending].
  specialize (Hg c eq_refl).
  assert (Hset : ∀ st w', promises w' = promises w →
                          ∃ st', decided (result s) st'
                                         (settle (gate c) st w')).
  { intros st w' Hw'.
    assert (Hu' : decided (result s) Pending w') by by eapply decided_ext.
    destruct (decide (gate c = S (result s))) as [Heq|Hne].
    - exists st. destruct Hu' as (H0 & H1 & H2). rewrite Heq.
      split; [by rewrite settle_other by lia|].
      split; [exact (settle_at (S (result s)) st w' Pending H1)|].
      by apply settle_follow.
    - exists Pending. by apply decided_settle. }
  destruct ev; cbn [emit_effect]; try by exists Pending.
  - case_match; [by apply Hset|by exists Pending].
  - by apply Hset.
Qed.

(** What a turn leaves for its microtasks. *)
Lemma turn_settling (a : App) (act : Action) :
  gate_bound a → result_bound a → calm a →
  Forall (settling_call (world (turn a act))) (suspended (turn a act))
  ∧ NoDup (result <$> suspended (turn a act))
  ∧ ∀ s q c, s ∈ suspended (turn a act) →
             procs (world (turn a act)) !! q = Some c → gate c ≠ result s.
Proof.
  intros Hgb Hrb (Hc & Hnd & Hgs).
  assert (Hsame : promises (world (turn a act)) = promises (world a) →
                  suspended (turn a act) = suspended a →
                  Forall (settling_call (world (turn a act)))
                         (suspended (turn a act))
                  ∧ NoDup (result <$> suspended (turn a act))).
  { intros Hp ->. split; [|done]. eapply Forall_impl; [exact Hc|].
    intros s [Haw Hu]. split; [done|]. exists Pending.
    by eapply decided_ext. }
  destruct act as [h se path| | | | |q ev| |event url].
  - rewrite turn_suspended. split; [|split].
    + apply Forall_app. split.
      * eapply Forall_impl; [exact Hc|]. intros s [Haw Hu].
        split; [done|]. exists Pending.
        eapply decided_app; [|exact Hu]. cbn [turn]. apply start_promises.
      * constructor; [|constructor]. split; [done|]. eexists.
        apply start_decided.
    + rewrite fmap_app. apply NoDup_app. split; [done|].
      split; [|apply NoDup_singleton].
      intros r Hr Hin. apply list_elem_of_fmap_1 in Hr as (s & -> & Hs).
      apply list_elem_of_singleton in Hin. specialize (Hrb s Hs).
      cbn [parked_call result] in Hin. lia.
    + intros s q c Hs Hq. cbn [turn] in Hq.
      apply start_gates in Hq as [(c0 & Hc0 & <-)|Hnew];
        apply elem_of_app in Hs as [Hs|Hs].
      * by eapply Hgs.
      * apply list_elem_of_singleton in Hs as ->. cbn [parked_call result].
        specialize (Hgb q c0 Hc0). lia.
      * specialize (Hrb s Hs). lia.
      * apply list_elem_of_singleton in Hs as ->. cbn [parked_call result].
        lia.
  - destruct Hsame as [H1 H2]; [apply clear_promises|apply clear_suspended|].
    split; [done|]. split; [done|]. cbn [turn]. intros s q c.
    rewrite clear_suspended, clear_procs. apply Hgs.
  - destruct Hsame as [H1 H2]; [done|done|]. split; [done|]. by split.
  - destruct Hsame as [H1 H2];
      [cbn [turn CodeWindow_dispose world]; apply clear_promises
      |cbn [turn CodeWindow_dispose suspended]; apply clear_suspended|].
    split; [done|]. split; [done|].
    cbn [turn CodeWindow_dispose world suspended]. intros s q c.
    rewrite clear_suspended, clear_procs. apply Hgs.
  - destruct Hsame as [H1 H2];
      [cbn [turn CodeWindow_dispose world]; apply clear_promises
      |cbn [turn CodeWindow_dispose suspended]; apply clear_suspended|].
    split; [done|]. split; [done|].
    cbn [turn CodeWindow_dispose world suspended]. intros s q c.
    rewrite clear_suspended, clear_procs. apply Hgs.
  - cbn [turn world suspended]. split; [|split; [done|]].
    + apply Forall_forall. intros s Hs. rewrite Forall_forall in Hc.
      apply child_emit_settling; [|by apply Hc].
      intros c Hq. by eapply Hgs.
    + intros s q' c Hs Hq.
      apply child_emit_gates in Hq as (c0 & Hc0 & <-). by eapply Hgs.
  - destruct Hsame as [H1 H2]; [done|done|]. split; [done|]. by split.
  - destruct Hsame as [H1 H2]; [done|done|]. split; [done|]. by split.
Qed.

Lemma step_calm (a : App) (act : Action) :
  gate_bound a → result_bound a → calm a → calm (step a act).
Proof.
  intros Hgb Hrb Hc.
  destruct (turn_settling a act Hgb Hrb Hc) as (Hs & Hnd & Hgs).
  unfold step, run_microtasks.
  destruct (resume_all_calm (suspended (turn a act))
              {| world := world (turn a act); window := window (turn a act);
                 suspended := [] |} Hs Hnd)
    as [_ (kept & Hk & Hsub & Hcalm)].
  cbn [suspended] in Hk. rewrite app_nil_r in Hk.
  unfold calm. rewrite Hk. split; [done|]. split.
  - eapply sublist_NoDup; [exact Hnd|]. by apply fmap_sublist.
  - intros s q c Hin. rewrite resume_all_procs. cbn [world].
    apply Hgs. by eapply elem_of_sublist.
Qed.

Lemma step_between_turns (a : App) (act : Action) :
  between_turns a → between_turns (step a act).
Proof.
  intros (Hgb & Hrb & Hc & Hl). split; [by apply step_gate_bound|].
  split; [by apply step_result_bound|]. split; [by apply step_calm|].
  by apply (run_listeners_inv [act]).
Qed.

Lemma run_between_turns acts : ∀ a,
  between_turns a → between_turns (run a acts).
Proof.
  induction acts as [|act acts IH]; intros a H; [done|].
  apply IH. by apply step_between_turns.
Qed.

Lemma new_App_between_turns cfg bid ws md :
  between_turns (new_App cfg bid ws md).
Proof.
  split; [by intros q c Hc|]. split; [by intros s Hs%elem_of_nil|].
  split; [|apply new_App_listeners_inv].
  split; [constructor|]. split; [constructor|]. by intros s q c Hs%elem_of_nil.
Qed.

(** Calls whose awaited promise is pending stay parked, in their order. *)
Lemma resume_all_parked l1 l2 : ∀ a,
  Forall (fun s => outcome (world a) (awaited s) = Pending) l1 →
  resume_all (l1 ++ l2) a =
  {| world := world (resume_all l2 a); window := window (resume_all l2 a);
     suspended := l1 ++ suspended (resume_all l2 a) |}.
Proof.
  induction l1 as [|s l1 IH]; intros a H.
  - cbn [app]. by destruct (resume_all l2 a).
  - apply Forall_cons in H as [Hs H]. cbn [app resume_all].
    by rewrite Hs, IH.
Qed.

Lemma calm_call_pending w s :
  calm_call w s → outcome w (awaited s) = Pending.
Proof. intros [-> Hu]. by apply untouched_outcome. Qed.

(** With every parked call waiting, the microtasks have nothing to do. *)
Lemma microtasks_idle (a : App) :
  Forall (calm_call (world a)) (suspended a) → run_microtasks a = a.
Proof.
  intros H. unfold run_microtasks.
  rewrite <- (app_nil_r (suspended a)) at 1. rewrite resume_all_parked.
  - cbn [resume_all world window suspended]. rewrite app_nil_r.
    by destruct a.
  - eapply Forall_impl; [exact H|]. intros s. apply calm_call_pending.
Qed.

(** Turns that settle nothing are not followed by any microtask. *)
Lemma step_idle (a : App) (act : Action) :
  calm a → result_bound a →
  match act with
  | AStart _ (Some _) _ | AChild _ _ => False
  | _ => True
  end →
  step a act = turn a act.
Proof.
  intros (Hc & _ & _) Hrb Hact. unfold step. apply microtasks_idle.
  assert (Hsame : promises (world (turn a act)) = promises (world a) →
                  suspended (turn a act) = suspended a →
                  Forall (calm_call (world (turn a act)))
                         (suspended (turn a act))).
  { intros Hp ->. eapply Forall_impl; [exact Hc|].
    intros s [Haw Hu]. split; [done|]. by eapply untouched_ext. }
  destruct act as [h [e|] path| | | | |q ev| |event url].
  - destruct Hact.
  - rewrite turn_suspended. apply Forall_app. split.
    + eapply Forall_impl; [exact Hc|]. intros s [Haw Hu].
      split; [done|]. eapply decided_app; [|exact Hu].
      cbn [turn]. apply start_promises.
    + constructor; [|constructor]. split; [done|].
      apply (start_decided h None path a).
  - apply Hsame; [apply clear_promises|apply clear_suspended].
  - apply Hsame; reflexivity.
  - apply Hsame;
      [cbn [turn CodeWindow_dispose world]; apply clear_promises
      |cbn [turn CodeWindow_dispose suspended]; apply clear_suspended].
  - apply Hsame;
      [cbn [turn CodeWindow_dispose world]; apply clear_promises
      |cbn [turn CodeWindow_dispose suspended]; apply clear_suspended].
  - destruct Hact.
  - apply Hsame; reflexivity.
  - apply Hsame; reflexivity.
Qed.

(** ** A start that completes *)

(** The 'ready' of its child makes exactly one parked [start] resume: the
    url is loaded, the window shown, and one listener of each kind added,
    the 'did-finish-load' one with the address of that call. *)
Lemma ready_completes (a : App) (r pid : nat) (path : string)
    (c : ChildProcess) :
  calm a → parked_call r path ∈ suspended a →
  procs (world a) !! pid = Some c → gate c = S r →
  let a' := step a (AChild pid (Message (VStr "ready"))) in
  let url := ElectronAppConfig.browserUrl (appConfig (window a)) in
  did_finish_load (browser (window a'))
  = did_finish_load (browser (window a)) ++ [path]
  ∧ new_window (browser (window a')) = S (new_window (browser (window a)))
  ∧ trace (world a')
    = trace (world a)
        ++ [EConsoleLog (VStr "ready");
            ELog ["starting browser window with url: "; url];
            ELoadURL url; EShow].
Proof.
  intros (Hc & Hnd & Hgs) Hin Hp Hg a' url.
  apply list_elem_of_split in Hin as (l1 & l2 & Hsplit).
  rewrite Hsplit in Hc, Hnd.
  apply Forall_app in Hc as [Hc1 Hc]. apply Forall_cons in Hc as [Hc0 Hc2].
  rewrite fmap_app in Hnd. cbn [fmap list_fmap parked_call result] in Hnd.
  apply NoDup_app in Hnd as (_ & Hd1 & Hnd).
  apply NoDup_cons in Hnd as [Hd2 _].
  assert (Hne : ∀ s, s ∈ l1 ∨ s ∈ l2 → result s ≠ r).
  { intros s [Hs|Hs] Heq.
    - apply (Hd1 r); [rewrite <- Heq; by apply list_elem_of_fmap_2|by left].
    - apply Hd2. rewrite <- Heq. by apply list_elem_of_fmap_2. }
  destruct Hc0 as [_ Hu0]. cbn [parked_call result] in Hu0.
  set (w1 := child_emit pid (Message (VStr "ready")) (world a)).
  assert (Hw1 : w1 = settle (S r) Fulfilled
                       (emit_effect (EConsoleLog (VStr "ready")) (world a))).
  { unfold w1, child_emit. rewrite Hp, Hg. unfold strict_eq.
    by rewrite bool_decide_eq_true_2. }
  assert (Hd0 : decided r Fulfilled w1).
  { rewrite Hw1. destruct Hu0 as (H0 & H1 & H2). split; [|split].
    - by rewrite settle_other by lia.
    - exact (settle_at (S r) Fulfilled (emit_effect _ (world a)) Pending H1).
    - by apply settle_follow. }
  assert (Hother : ∀ s, calm_call (world a) s → result s ≠ r →
                        decided (result s) Pending w1).
  { intros s [_ Hu] Hs. rewrite Hw1. apply decided_settle.
    - intros Heq. symmetry in Heq. revert Heq.
      by eapply decided_apart; [exact Hu|exact Hu0].
    - lia.
    - by eapply decided_ext; [|exact Hu]. }
  set (b0 := {| world := w1; window := window a; suspended := [] |}).
  set (s0 := parked_call r path).
  set (b1 := CodeWindow_start_resume s0 Fulfilled b0).
  assert (Hstep : a' = {| world := world b1; window := window b1;
                          suspended := l1 ++ l2 |}).
  { unfold a', step, run_microtasks. cbn [turn world window suspended].
    fold w1. rewrite Hsplit. fold b0 s0. rewrite resume_all_parked.
    - cbn [resume_all].
      assert (Ho : outcome (world b0) (awaited s0) = Fulfilled)
        by (by apply decided_outcome).
      rewrite Ho. fold b1.
      rewrite <- (app_nil_r l2) at 1 2 3. rewrite resume_all_parked.
      + cbn [resume_all world window suspended].
        by rewrite !app_nil_r.
      + apply Forall_forall. intros s Hs. rewrite Forall_forall in Hc2.
        destruct (Hc2 s Hs) as [Haw Hu]. rewrite Haw.
        apply (decided_outcome (result s) Pending).
        apply resume_decided; [by apply not_eq_sym, Hne; right|by eauto|].
        apply Hother; [by apply Hc2|by apply Hne; right].
    - apply Forall_forall. intros s Hs. rewrite Forall_forall in Hc1.
      destruct (Hc1 s Hs) as [Haw Hu]. rewrite Haw.
      apply (decided_outcome (result s) Pending).
      apply Hother; [by apply Hc1|by apply Hne; left]. }
  rewrite Hstep. unfold b1, b0, s0.
  cbn [CodeWindow_start_resume world window CodeWindow_bindEvents set_browser
       browser did_finish_load new_window parked_call listenPath appConfig].
  split; [done|]. split; [done|].
  rewrite settle_trace. cbn [emit_effect trace]. rewrite Hw1, settle_trace.
  cbn [emit_effect trace]. by rewrite <- !app_assoc.
Qed.

(** A start that forked is parked, with its child aiming at its launcher's
    promise, until that child decides. *)
Lemma start_parked (a0 : App) (acts : list Action) (h : Host)
    (path : string) :
  let pid := length (procs (world a0)) in
  let r := length (promises (world a0)) in
  let a := run a0 (AStart h None path :: acts) in
  between_turns a0 →
  forallb (fun act => negb (is_from_child pid act)) acts = true →
  between_turns a
  ∧ parked_call r path ∈ suspended a
  ∧ ∃ c, procs (world a) !! pid = Some c ∧ gate c = S r.
Proof.
  intros pid r a H0 Hacts.
  pose proof H0 as (Hb & Hrb & _).
  set (a1 := step a0 (AStart h None path)).
  assert (H1 : waits_for_child r pid path a1).
  { unfold a1, step. apply microtasks_waits. by apply start_waits. }
  assert (G1 : ∃ c, procs (world a1) !! pid = Some c ∧ gate c = S r).
  { unfold a1, step. rewrite microtasks_procs. cbn [turn].
    rewrite CodeWindow_start_eq. cbn [fst world procs].
    eexists. split.
    - rewrite lookup_app_r
        by (rewrite clear_procs_length; cbn [world alloc snd procs];
            unfold pid; lia).
      rewrite clear_procs_length. cbn [world alloc snd procs].
      unfold pid. rewrite Nat.sub_diag. reflexivity.
    - cbn [gate]. rewrite clear_promises. cbn [world alloc snd promises].
      rewrite length_app. unfold r. cbn. lia. }
  split; [|split].
  - unfold a. by apply run_between_turns.
  - by apply (run_waits r pid path acts a1).
  - by apply (child_gate_run r pid acts a1).
Qed.

Lemma run_listeners acts : ∀ a,
  ∃ more, did_finish_load (browser (window (run a acts)))
          = did_finish_load (browser (window a)) ++ more.
Proof.
  induction acts as [|act acts IH]; intros a;
    [exists []; by rewrite app_nil_r|].
  cbn [run fold_left]. fold (run (step a act) acts).
  destruct (IH (step a act)) as [m1 ->].
  destruct (step_listeners a act) as [m2 ->].
  exists (m2 ++ m1). by rewrite app_assoc.
Qed.

(** A 'did-finish-load' event between two turns: every listener sends its
    address once, and nothing else happens. *)
Lemma did_finish_load_trace (a : App) :
  between_turns a →
  trace (world (step a ADidFinishLoad))
  = trace (world a)
      ++ map (ESend "preload:listenPath")
             (did_finish_load (browser (window a))).
Proof. intros (_ & Hrb & Hc & _). by rewrite step_idle. Qed.

Lemma new_window_policy_spec (k : nat) (event : NavEvent) (url : string) :
  snd (emit_new_window (S k) event url) = new_window_policy event url.
Proof.
  unfold new_window_policy. destruct event as [[|]]; cbn [defaultPrevented].
  - by rewrite emit_new_window_prevented.
  - cbn [emit_new_window new_window_listener defaultPrevented negb].
    rewrite emit_new_window_prevented, app_nil_r. cbn [snd].
    by rewrite indexOf_http_prefix.
Qed.

Lemma step_procs_length (a : App) (act : Action) :
  length (procs (world (step a act))) =
  (length (procs (world a))
   + match act with AStart _ None _ => 1 | _ => 0 end)%nat.
Proof. unfold step. rewrite microtasks_procs. apply turn_procs_length. Qed.

(** ** The address of a start reaches the content on every load *)



(** ** Navigation out of the content *)

(** C10.  A [start] that completes binds the 'new-window' listener
    ([bindEvents]), and from then on the window handles every 'new-window'
    event of its content the same way: an event that is not yet
    default-prevented always has its default prevented, and its url is
    handed to [shell.openExternal] exactly when it starts with "http";
    "httpx://…" is handed to the external opener, "ftp://…" is neither
    navigated to nor opened.  An event that is already default-prevented is
    left alone, so with several listeners bound the first one alone acts. *)
Theorem CodeWindow_new_window_policy (cfg : ElectronAppConfig.t) (bid : Z)
    (ws : option string) (md : option (list (string * Json)))
    (acts0 acts acts' : list Action) (h : Host) (path : string)
    (event : NavEvent) (url : string) :
  let a0 := run (new_App cfg bid ws md) acts0 in
  let pid := length (procs (world a0)) in
  let a2 := run a0 (AStart h None path :: acts) in
  let a3 := step a2 (AChild pid (Message (VStr "ready"))) in
  let b := run a3 acts' in
  let fresh := {| defaultPrevented := false |} in
  forallb (fun act => negb (is_from_child pid act)) acts = true →
  new_window (browser (window a3)) = S (new_window (browser (window a2)))
  ∧ new_window (browser (CodeWindow_bindEvents (window a2)))
    = S (new_window (browser (window a2)))
  ∧ trace (world (step b (ANewWindow event url)))
    = trace (world b) ++ new_window_policy event url
  ∧ trace (world (step b (ANewWindow fresh "httpx://host/x")))
    = trace (world b) ++ [EPreventDefault; EOpenExternal "httpx://host/x"]
  ∧ trace (world (step b (ANewWindow fresh "ftp://host/x")))
    = trace (world b) ++ [EPreventDefault]
  ∧ (String.prefix "http" url = true ↔ ∃ rest, url = "http" +:+ rest)
  ∧ new_window_listener fresh url
    = ({| defaultPrevented := true |}, new_window_policy fresh url)
  ∧ new_window_listener {| defaultPrevented := true |} url
    = ({| defaultPrevented := true |}, []).
Proof.
  intros a0 pid a2 a3 b fresh Hacts.
  assert (H0 : between_turns a0)
    by apply run_between_turns, new_App_between_turns.
  destruct (start_parked a0 acts h path H0 Hacts)
    as (Hbt & Hin & c & Hc & Hg).
  fold pid a2 in Hbt, Hin, Hc.
  pose proof Hbt as (_ & _ & Hcalm & _).
  destruct (ready_completes a2 _ pid path c Hcalm Hin Hc Hg)
    as (Hd & Hn & _).
  fold a3 in Hd, Hn.
  assert (Hb : between_turns b)
    by (by apply run_between_turns, step_between_turns).
  destruct (run_listeners acts' a3) as [more Hmore]. fold b in Hmore.
  assert (Hk : ∃ k, new_window (browser (window b)) = S k).
  { destruct Hb as (_ & _ & _ & Hnw & Hlen & _).
    assert (Hl : (1 ≤ length (did_finish_load (browser (window b))))%nat).
    { rewrite Hmore, Hd, !length_app. cbn [length]. lia. }
    exists (pred (new_window (browser (window b)))). lia. }
  destruct Hk as [k Hk].
  assert (Hev : ∀ ev u, trace (world (step b (ANewWindow ev u)))
                        = trace (world b) ++ new_window_policy ev u).
  { intros ev u. destruct Hb as (_ & Hrb & Hcb & _).
    rewrite step_idle by done. rewrite turn_trace. cbn [turn_effects].
    by rewrite Hk, new_window_policy_spec. }
  split; [exact Hn|]. split; [done|]. split; [apply Hev|].
  split; [apply Hev|]. split; [apply Hev|].
  split; [apply prefix_http_spec|]. split; [|done].
  unfold new_window_listener, new_window_policy, fresh.
  cbn [defaultPrevented negb]. by rewrite indexOf_http_prefix.
Qed.

Lemma CodeWindow_new_window_policy_witness :
  let h := {| process_env := ∅; isDevelopment := false |} in
  let cfg := {| ElectronAppConfig.browserNodeIntegrated := true;
                ElectronAppConfig.browserPreload := "preload.js";
                ElectronAppConfig.webviewPreload := "/webview.js";
                ElectronAppConfig.plainWebviewPreload := "/plain.js";
                ElectronAppConfig.extensionDir := "/ext";
                ElectronAppConfig.nodeEntry := "node.js";
                ElectronAppConfig.extensionEntry := "ext.js";
                ElectronAppConfig.browserUrl := "file:///index.html" |} in
  let acts0 := [AStart h (Some (VObj 3)) "/tmp/a.sock"] in
  let acts := [ANewWindow {| defaultPrevented := false |} "http://early";
               AChild 7 (Message (VStr "ready"))] in
  let acts' := [AStart h None "/tmp/b.sock";
                AChild 1 (Message (VStr "ready"))] in
  let a0 := run (new_App cfg 1 None None) acts0 in
  let pid := length (procs (world a0)) in
  let a2 := run a0 (AStart h None "/tmp/c.sock" :: acts) in
  let a3 := step a2 (AChild pid (Message (VStr "ready"))) in
  let b := run a3 acts' in
  forallb (fun act => negb (is_from_child pid act)) acts = true
  ∧ trace (world (step b (ANewWindow {| defaultPrevented := false |}
                                     "https://example.org/")))
    = trace (world b)
        ++ new_window_policy {| defaultPrevented := false |}
                             "https://example.org/".
Proof.
  intros h cfg acts0 acts acts' a0 pid a2 a3 b.
  assert (H : forallb (fun act => negb (is_from_child pid act)) acts = true)
    by (by vm_compute).
  split; [exact H|].
  destruct (CodeWindow_new_window_policy cfg 1 None None acts0 acts acts'
              h "/tmp/c.sock" {| defaultPrevented := false |}
              "https://example.org/" H) as (_ & _ & H1 & _).
  exact H1.
Defined.

(** ** Listeners pile up *)

Lemma restarts_listeners h paths : ∀ a0,
  between_turns a0 →
  let a := run a0 (restarts h (length (procs (world a0))) paths) in
  did_finish_load (browser (window a))
  = did_finish_load (browser (window a0)) ++ paths
  ∧ new_window (browser (window a))
    = (new_window (browser (window a0)) + length paths)%nat.
Proof.
  induction paths as [|p rest IH]; intros a0 H0; cbv zeta.
  { cbn [restarts run fold_left length]. by rewrite app_nil_r, Nat.add_0_r. }
  cbn [restarts run fold_left].
  set (pid := length (procs (world a0))).
  set (a2 := step a0 (AStart h None p)).
  set (a3 := step a2 (AChild pid (Message (VStr "ready")))).
  destruct (start_parked a0 [] h p H0 eq_refl) as (Hbt & Hin & c & Hc & Hg).
  change (run a0 [AStart h None p]) with a2 in Hbt, Hin, Hc. fold pid in Hc.
  pose proof Hbt as (_ & _ & Hcalm & _).
  destruct (ready_completes a2 _ pid p c Hcalm Hin Hc Hg) as (Hd & Hn & _).
  fold a3 in Hd, Hn.
  assert (Hb2 : browser (window a2) = browser (window a0)).
  { destruct H0 as (_ & Hrb & Hc0 & _). unfold a2.
    rewrite step_idle by done. apply turn_browser. }
  assert (Hlen : length (procs (world a3)) = S pid).
  { unfold a3, a2. rewrite !step_procs_length. fold pid. lia. }
  assert (H3 : between_turns a3) by by apply step_between_turns.
  specialize (IH a3 H3). cbv zeta in IH. rewrite Hlen in IH.
  unfold run in IH. destruct IH as [IH1 IH2].
  rewrite IH1, IH2, Hd, Hn, Hb2. cbn [length].
  split; [by rewrite <- app_assoc|lia].
Qed.

(** X10. Listeners pile up.  Starts of one window in a row, each completed
    by the 'ready' of its child, leave one 'did-finish-load' listener and
    one 'new-window' listener each, on top of those the window had: none is
    removed when the next start kills the host of the previous one.  So
    after [k] such starts a single 'did-finish-load' event sends [k] more
    addresses to the content, in the order of the starts, although at most
    one of the hosts has not been asked to terminate. *)
Theorem listeners_pile_up (cfg : ElectronAppConfig.t) (bid : Z)
    (ws : option string) (md : option (list (string * Json)))
    (acts0 : list Action) (h : Host) (paths : list string) :
  let a0 := run (new_App cfg bid ws md) acts0 in
  let a := run a0 (restarts h (length (procs (world a0))) paths) in
  did_finish_load (browser (window a))
  = did_finish_load (browser (window a0)) ++ paths
  ∧ new_window (browser (window a))
    = (new_window (browser (window a0)) + length paths)%nat
  ∧ trace (world (step a ADidFinishLoad))
    = trace (world a)
        ++ map (ESend "preload:listenPath")
               (did_finish_load (browser (window a0)) ++ paths)
  ∧ (length (unsignalled (world a)) ≤ 1)%nat.
Proof.
  intros a0 a.
  assert (H0 : between_turns a0)
    by apply run_between_turns, new_App_between_turns.
  destruct (restarts_listeners h paths a0 H0) as [Hd Hn]. fold a in Hd, Hn.
  split; [exact Hd|]. split; [exact Hn|]. split.
  - rewrite <- Hd. apply did_finish_load_trace.
    by apply run_between_turns.
  - rewrite unsignalled_held.
    + unfold held. destruct (owner a); cbn; lia.
    + unfold a, a0. by apply run_kill_once, run_kill_once, new_App_kill_once.
    + unfold a, a0.
      by apply run_dropped_killed, run_dropped_killed, new_App_dropped_killed.
Qed.
